(** * Verification of the NG-DSAC scene-coordinate network ([network.py])

    A shallow embedding of [Network.__init__] and [Network.forward] and of the
    tensor operations they call.  Tensors are modelled the way the tensor
    library has them: a handle (storage location, sizes, gradient flag) that
    points into a store of flat, row-major storages.  Operations that return a
    new tensor allocate a storage, views ([view], [detach], [expand]) share the
    storage of their argument, and the in-place [+=] writes into the storage of
    its left operand.  Library errors are results of an error monad.

    The scalar type is a parameter: every structural fact (shapes, wiring of
    the layers, aliasing, absence of mutation) is proved for an arbitrary
    scalar type with arbitrary arithmetic, single precision included.  What
    depends on the arithmetic says which one it is about: the sum of the
    normalised exponentials is stated under an explicit hypothesis of
    exactness, and the sign of the guidance entries for single-precision
    numbers with their range, their infinities and NaN (rounding of finite
    results is not modelled).  Exact real arithmetic serves the examples. *)

From Stdlib Require Import Reals Lra Lia List String Bool.
From stdpp Require Import base list.

Set Default Proof Using "Type".

(** ** Scalars *)

(** The element type of a floating tensor with the operations the forward
    pass applies to elements. *)
Class Scalar (T : Type) := {
  s_zero : T;
  s_add : T -> T -> T;
  s_sub : T -> T -> T;
  s_mul : T -> T -> T;
  s_relu : T -> T;
  s_logsigmoid : T -> T;
  s_logsumexp : list T -> T
}.

(** ** Errors and results *)

(** [ShapeMismatch] is the library's runtime error on incompatible sizes,
    [IndexError] the error of an index out of range, [InvalidArgument] the
    construction error the specification names, and [StorageFault] a handle
    without a floating storage behind it (excluded by well-formedness). *)
Inductive error := ShapeMismatch | InvalidArgument | IndexError | StorageFault.

Inductive result (A : Type) :=
| Ok (a : A)
| Err (e : error).
Arguments Ok {A} a.
Arguments Err {A} e.

#[global] Instance error_eq_dec : EqDecision error.
Proof. solve_decision. Defined.

(** ** The store *)

(** Locations are indices into the store. *)
Abbreviation loc := nat.

Inductive cell (T : Type) :=
| FloatStorage (d : list T)
| LongStorage (d : list nat).
Arguments FloatStorage {T} d.
Arguments LongStorage {T} d.

Abbreviation heap T := (list (cell T)).

(** State and error monad over the store. *)
Definition Op (T A : Type) := heap T -> result (A * heap T).

Definition ret {T A} (a : A) : Op T A := fun h => Ok (a, h).

Definition bind {T A B} (m : Op T A) (k : A -> Op T B) : Op T B :=
  fun h => match m h with
           | Ok (a, h') => k a h'
           | Err e => Err e
           end.

Definition raise {T A} (e : error) : Op T A := fun _ => Err e.

Notation "'let*' x ':=' m 'in' k" := (bind m (fun x => k))
  (at level 10, x pattern, m at level 100, k at level 200).

(** ** Tensor handles *)

(** A 4-D tensor (batch, channel, height, width) over a contiguous storage. *)
Record Tensor4 := mkTensor4 {
  storage : loc;
  size0 : nat;
  size1 : nat;
  size2 : nat;
  size3 : nat;
  requires_grad : bool
}.

(** A 1-D tensor: element [i] is at offset [i * stride1] of its storage. *)
Record Tensor1 := mkTensor1 {
  storage1 : loc;
  len1 : nat;
  stride1 : nat;
  requires_grad1 : bool
}.

(** A 0-D tensor: one element at offset 0 of its storage. *)
Record Tensor0 := mkTensor0 {
  storage0 : loc;
  requires_grad0 : bool
}.

(** [nn.Conv2d(in_channels, out_channels, kernel_size, stride, padding)]:
    the hyper-parameters and the handles of the two parameter storages,
    [weight] of sizes (out, in, k, k) and [bias] of size (out). *)
Record Conv2d := mkConv2d {
  in_channels : nat;
  out_channels : nat;
  kernel_size : nat;
  stride : nat;
  padding : nat;
  weight : loc;
  bias : loc;
  params_require_grad : bool
}.

Definition numel (t : Tensor4) : nat := size0 t * size1 t * size2 t * size3 t.

Section Ops.
Context {T : Type} `{!Scalar T}.

Local Abbreviation M := (Op T).

(** *** Store primitives *)

Definition alloc (c : cell T) : M loc :=
  fun h => Ok (length h, h ++ [c]).

Definition load (l : loc) : M (list T) :=
  fun h => match h !! l with
           | Some (FloatStorage d) => Ok (d, h)
           | _ => Err StorageFault
           end.

Definition store (l : loc) (d : list T) : M unit :=
  fun h => match h !! l with
           | Some (FloatStorage _) => Ok (tt, <[l := FloatStorage d]> h)
           | _ => Err StorageFault
           end.

(** *** Indexing of flat storages *)

(** Element (b, c, i, j) of a contiguous tensor of sizes (_, C, H, W). *)
Definition get4 (d : list T) (C H W b c i j : nat) : T :=
  nth (((b * C + c) * H + i) * W + j) d s_zero.

(** The same element of the tensor padded with [p] zeros on each border;
    [i] and [j] are coordinates of the padded tensor. *)
Definition get4_padded (d : list T) (C H W p b c i j : nat) : T :=
  if (p <=? i) && (i <? p + H) && (p <=? j) && (j <? p + W)
  then get4 d C H W b c (i - p) (j - p)
  else s_zero.

(** The elements of a 1-D tensor read from its storage. *)
Definition elements (n st : nat) (d : list T) : list T :=
  map (fun i => nth (i * st) d s_zero) (seq 0 n).

Definition sum_list (l : list T) : T := fold_right s_add s_zero l.

(** *** Convolution *)

(** Output size of a convolution along one spatial dimension. *)
Definition conv_out (n k s p : nat) : nat := (n + 2 * p - k) / s + 1.

(** One output element: the bias plus the sum over input channels and
    kernel taps of weight times (padded) input. *)
Definition conv2d_at (L : Conv2d) (w bs d : list T) (H W b o i j : nat) : T :=
  let Cin := in_channels L in
  let k := kernel_size L in
  s_add (nth o bs s_zero)
    (sum_list
       (flat_map (fun c =>
          flat_map (fun di =>
            map (fun dj =>
                   s_mul (get4 w Cin k k o c di dj)
                         (get4_padded d Cin H W (padding L) b c
                            (i * stride L + di) (j * stride L + dj)))
                (seq 0 k))
            (seq 0 k))
          (seq 0 Cin))).

(** The whole output in row-major order. *)
Definition conv2d_data (L : Conv2d) (w bs d : list T) (B H W : nat) : list T :=
  let Ho := conv_out H (kernel_size L) (stride L) (padding L) in
  let Wo := conv_out W (kernel_size L) (stride L) (padding L) in
  flat_map (fun b =>
    flat_map (fun o =>
      flat_map (fun i =>
        map (fun j => conv2d_at L w bs d H W b o i j) (seq 0 Wo))
        (seq 0 Ho))
      (seq 0 (out_channels L)))
    (seq 0 B).

(** [layer(x)] for [layer = nn.Conv2d(...)].  The library checks the channel
    count of the input against the weight, then that the kernel fits into the
    padded input, and raises its runtime error otherwise. *)
Definition conv2d (L : Conv2d) (x : Tensor4) : M Tensor4 :=
  if negb (size1 x =? in_channels L) then raise ShapeMismatch
  else if (size2 x + 2 * padding L <? kernel_size L)
          || (size3 x + 2 * padding L <? kernel_size L) then raise ShapeMismatch
  else
    let* w := load (weight L) in
    let* bs := load (bias L) in
    let* d := load (storage x) in
    let* l := alloc (FloatStorage (conv2d_data L w bs d (size0 x) (size2 x) (size3 x))) in
    ret {| storage := l;
           size0 := size0 x;
           size1 := out_channels L;
           size2 := conv_out (size2 x) (kernel_size L) (stride L) (padding L);
           size3 := conv_out (size3 x) (kernel_size L) (stride L) (padding L);
           requires_grad := requires_grad x || params_require_grad L |}.

(** *** Elementwise operations *)

Definition with_storage (x : Tensor4) (l : loc) : Tensor4 :=
  {| storage := l; size0 := size0 x; size1 := size1 x; size2 := size2 x;
     size3 := size3 x; requires_grad := requires_grad x |}.

(** [F.relu(x)]: a new tensor. *)
Definition relu (x : Tensor4) : M Tensor4 :=
  let* d := load (storage x) in
  let* l := alloc (FloatStorage (map s_relu d)) in
  ret (with_storage x l).

(** [F.logsigmoid(x)]: a new tensor. *)
Definition logsigmoid (x : Tensor4) : M Tensor4 :=
  let* d := load (storage x) in
  let* l := alloc (FloatStorage (map s_logsigmoid d)) in
  ret (with_storage x l).

Definition same_sizes (x y : Tensor4) : bool :=
  (size0 x =? size0 y) && (size1 x =? size1 y) && (size2 x =? size2 y)
  && (size3 x =? size3 y).

Definition zip_add (a b : list T) : list T :=
  map (fun p => s_add (fst p) (snd p)) (combine a b).

(** [x + y] for tensors of equal sizes: a new tensor.  (The forward pass only
    adds tensors of equal sizes; unequal sizes are reported as a mismatch.) *)
Definition tadd (x y : Tensor4) : M Tensor4 :=
  if same_sizes x y then
    let* a := load (storage x) in
    let* b := load (storage y) in
    let* l := alloc (FloatStorage (zip_add a b)) in
    ret {| storage := l; size0 := size0 x; size1 := size1 x; size2 := size2 x;
           size3 := size3 x; requires_grad := requires_grad x || requires_grad y |}
  else raise ShapeMismatch.

(** [m[i]] read as a number; an index outside the vector is an index error. *)
Definition item (m : Tensor1) (i : nat) : M T :=
  if i <? len1 m then
    let* d := load (storage1 m) in
    ret (nth (i * stride1 m) d s_zero)
  else raise IndexError.

(** The data of [x] after [x[:, c] += v]. *)
Definition add_to_channel (C HW c : nat) (v : T) (d : list T) : list T :=
  imap (fun n a => if (n / HW) mod C =? c then s_add a v else a) d.

(** [x[:, c] += v]: in place, into the storage of [x]. *)
Definition iadd_channel (x : Tensor4) (c : nat) (v : T) : M unit :=
  if c <? size1 x then
    let* d := load (storage x) in
    store (storage x) (add_to_channel (size1 x) (size2 x * size3 x) c v d)
  else raise IndexError.

(** *** Views *)

(** [x.detach()]: the same storage, cut off from the gradient graph. *)
Definition detach (x : Tensor4) : Tensor4 :=
  {| storage := storage x; size0 := size0 x; size1 := size1 x;
     size2 := size2 x; size3 := size3 x; requires_grad := false |}.

(** [x.view(-1)] of a contiguous tensor: the same storage, one dimension. *)
Definition view_flat (x : Tensor4) : Tensor1 :=
  {| storage1 := storage x; len1 := numel x; stride1 := 1;
     requires_grad1 := requires_grad x |}.

(** [torch.logsumexp(v, dim=0)]: a new 0-D tensor. *)
Definition logsumexp (v : Tensor1) : M Tensor0 :=
  let* d := load (storage1 v) in
  let* l := alloc (FloatStorage [s_logsumexp (elements (len1 v) (stride1 v) d)]) in
  ret {| storage0 := l; requires_grad0 := requires_grad1 v |}.

(** [z.expand(n)]: the same storage read [n] times (stride 0). *)
Definition expand (z : Tensor0) (n : nat) : Tensor1 :=
  {| storage1 := storage0 z; len1 := n; stride1 := 0;
     requires_grad1 := requires_grad0 z |}.

Definition zip_sub (a b : list T) : list T :=
  map (fun p => s_sub (fst p) (snd p)) (combine a b).

(** [a - b] for vectors of equal length: a new contiguous vector. *)
Definition tsub (a b : Tensor1) : M Tensor1 :=
  if len1 a =? len1 b then
    let* da := load (storage1 a) in
    let* db := load (storage1 b) in
    let* l := alloc (FloatStorage (zip_sub (elements (len1 a) (stride1 a) da)
                                           (elements (len1 b) (stride1 b) db))) in
    ret {| storage1 := l; len1 := len1 a; stride1 := 1;
           requires_grad1 := requires_grad1 a || requires_grad1 b |}
  else raise ShapeMismatch.

(** [v.view(b, c, h, w)]: the same storage; the sizes must multiply to the
    number of elements and the vector must be contiguous. *)
Definition view4 (v : Tensor1) (b c h w : nat) : M Tensor4 :=
  if (b * c * h * w =? len1 v) && (stride1 v =? 1) then
    ret {| storage := storage1 v; size0 := b; size1 := c; size2 := h;
           size3 := w; requires_grad := requires_grad1 v |}
  else raise ShapeMismatch.

(** [m.clone()]: a new contiguous vector with the elements of [m]. *)
Definition clone (m : Tensor1) : M Tensor1 :=
  let* d := load (storage1 m) in
  let* l := alloc (FloatStorage (elements (len1 m) (stride1 m) d)) in
  ret {| storage1 := l; len1 := len1 m; stride1 := 1;
         requires_grad1 := requires_grad1 m |}.

End Ops.

(** ** The network *)

(** The attributes of a [Network] object: the seventeen convolution layers
    and the buffer [mean]. *)
Record Network := mkNetwork {
  conv1 : Conv2d;
  conv2 : Conv2d;
  conv3 : Conv2d;
  conv4 : Conv2d;
  res1_conv1 : Conv2d;
  res1_conv2 : Conv2d;
  res1_conv3 : Conv2d;
  res2_conv1 : Conv2d;
  res2_conv2 : Conv2d;
  res2_conv3 : Conv2d;
  res2_skip : Conv2d;
  res3_conv1 : Conv2d;
  res3_conv2 : Conv2d;
  res3_conv3 : Conv2d;
  fc1 : Conv2d;
  fc2 : Conv2d;
  fc3 : Conv2d;
  fc1_1 : Conv2d;
  fc2_1 : Conv2d;
  fc3_1 : Conv2d;
  mean : Tensor1
}.

Definition OUTPUT_SUBSAMPLE : nat := 8.

Section Net.
Context {T : Type} `{!Scalar T}.

Local Abbreviation M := (Op T).

(** [nn.Conv2d(cin, cout, k, s, p)]: allocates the weight and the bias.
    Their initial values are drawn by the library; [init] gives the value
    drawn for each element of each named parameter. *)
Definition Conv2d_new (init : string -> nat -> T) (name : string)
    (cin cout k s p : nat) : M Conv2d :=
  let* w := alloc (FloatStorage
                     (map (init (String.append name ".weight"))
                          (seq 0 (cout * cin * k * k)))) in
  let* b := alloc (FloatStorage
                     (map (init (String.append name ".bias")) (seq 0 cout))) in
  ret {| in_channels := cin; out_channels := cout; kernel_size := k;
         stride := s; padding := p; weight := w; bias := b;
         params_require_grad := true |}.

(** [Network.__init__(self, mean)]. *)
Definition __init__ (init : string -> nat -> T) (mean : Tensor1) : M Network :=
  let* conv1 := Conv2d_new init "conv1" 3 32 3 1 1 in
  let* conv2 := Conv2d_new init "conv2" 32 64 3 2 1 in
  let* conv3 := Conv2d_new init "conv3" 64 128 3 2 1 in
  let* conv4 := Conv2d_new init "conv4" 128 256 3 2 1 in

  let* res1_conv1 := Conv2d_new init "res1_conv1" 256 256 3 1 1 in
  let* res1_conv2 := Conv2d_new init "res1_conv2" 256 256 1 1 0 in
  let* res1_conv3 := Conv2d_new init "res1_conv3" 256 256 3 1 1 in

  let* res2_conv1 := Conv2d_new init "res2_conv1" 256 512 3 1 1 in
  let* res2_conv2 := Conv2d_new init "res2_conv2" 512 512 1 1 0 in
  let* res2_conv3 := Conv2d_new init "res2_conv3" 512 512 3 1 1 in

  let* res2_skip := Conv2d_new init "res2_skip" 256 512 1 1 0 in

  let* res3_conv1 := Conv2d_new init "res3_conv1" 512 512 3 1 1 in
  let* res3_conv2 := Conv2d_new init "res3_conv2" 512 512 1 1 0 in
  let* res3_conv3 := Conv2d_new init "res3_conv3" 512 512 3 1 1 in

  (* output head 1, scene coordinates *)
  let* fc1 := Conv2d_new init "fc1" 512 512 1 1 0 in
  let* fc2 := Conv2d_new init "fc2" 512 512 1 1 0 in
  let* fc3 := Conv2d_new init "fc3" 512 3 1 1 0 in

  (* output head 2, neural guidance *)
  let* fc1_1 := Conv2d_new init "fc1_1" 512 512 1 1 0 in
  let* fc2_1 := Conv2d_new init "fc2_1" 512 512 1 1 0 in
  let* fc3_1 := Conv2d_new init "fc3_1" 512 1 1 1 0 in

  (* self.register_buffer('mean', torch.tensor(mean.size()).cuda()) *)
  let* _ := alloc (LongStorage [len1 mean]) in
  (* self.mean = mean.clone() *)
  let* m := clone mean in
  ret {| conv1 := conv1; conv2 := conv2; conv3 := conv3; conv4 := conv4;
         res1_conv1 := res1_conv1; res1_conv2 := res1_conv2;
         res1_conv3 := res1_conv3;
         res2_conv1 := res2_conv1; res2_conv2 := res2_conv2;
         res2_conv3 := res2_conv3; res2_skip := res2_skip;
         res3_conv1 := res3_conv1; res3_conv2 := res3_conv2;
         res3_conv3 := res3_conv3;
         fc1 := fc1; fc2 := fc2; fc3 := fc3;
         fc1_1 := fc1_1; fc2_1 := fc2_1; fc3_1 := fc3_1;
         mean := m |}.

(** [F.relu(layer(x))]. *)
Definition relu_conv (L : Conv2d) (x : Tensor4) : M Tensor4 :=
  let* y := conv2d L x in relu y.

(** Lines 64-68 of [forward]: the four strided convolutions. *)
Definition stem (net : Network) (inputs : Tensor4) : M Tensor4 :=
  let x := inputs in
  let* x := relu_conv (conv1 net) x in
  let* x := relu_conv (conv2 net) x in
  let* x := relu_conv (conv3 net) x in
  let* res := relu_conv (conv4 net) x in
  ret res.

(** Lines 70-74. *)
Definition res1 (net : Network) (res : Tensor4) : M Tensor4 :=
  let* x := relu_conv (res1_conv1 net) res in
  let* x := relu_conv (res1_conv2 net) x in
  let* x := relu_conv (res1_conv3 net) x in
  let* res := tadd res x in
  ret res.

(** Lines 76-80. *)
Definition res2 (net : Network) (res : Tensor4) : M Tensor4 :=
  let* x := relu_conv (res2_conv1 net) res in
  let* x := relu_conv (res2_conv2 net) x in
  let* x := relu_conv (res2_conv3 net) x in
  let* skip := conv2d (res2_skip net) res in
  let* res := tadd skip x in
  ret res.

(** Lines 82-86. *)
Definition res3 (net : Network) (res : Tensor4) : M Tensor4 :=
  let* x := relu_conv (res3_conv1 net) res in
  let* x := relu_conv (res3_conv2 net) x in
  let* x := relu_conv (res3_conv3 net) x in
  let* res := tadd res x in
  ret res.

(** Lines 88-95: output head 1, scene coordinates. *)
Definition head_sc (net : Network) (res : Tensor4) : M Tensor4 :=
  let* sc := relu_conv (fc1 net) res in
  let* sc := relu_conv (fc2 net) sc in
  let* sc := conv2d (fc3 net) sc in
  let* m0 := item (mean net) 0 in
  let* _ := iadd_channel sc 0 m0 in
  let* m1 := item (mean net) 1 in
  let* _ := iadd_channel sc 1 m1 in
  let* m2 := item (mean net) 2 in
  let* _ := iadd_channel sc 2 m2 in
  ret sc.

(** Lines 97-110: output head 2, neural guidance, normalised in log space. *)
Definition head_ng (net : Network) (res : Tensor4) (batch_size : nat)
    (sc : Tensor4) : M Tensor4 :=
  let* log_ng := relu_conv (fc1_1 net) (detach res) in
  let* log_ng := relu_conv (fc2_1 net) log_ng in
  let* log_ng := conv2d (fc3_1 net) log_ng in
  let* log_ng := logsigmoid log_ng in
  let log_ng := view_flat log_ng in
  let* normalizer := logsumexp log_ng in
  let normalizer := expand normalizer (len1 log_ng) in
  let* log_ng := tsub log_ng normalizer in
  view4 log_ng batch_size 1 (size2 sc) (size3 sc).

(** [Network.forward(self, inputs)]. *)
Definition forward (net : Network) (inputs : Tensor4) : M (Tensor4 * Tensor4) :=
  let batch_size := size0 inputs in
  let* res := stem net inputs in
  let* res := res1 net res in
  let* res := res2 net res in
  let* res := res3 net res in
  let* sc := head_sc net res in
  let* log_ng := head_ng net res batch_size sc in
  ret (sc, log_ng).

End Net.

(** * Values of tensors and the meaning of the operations *)

Section Values.
Context {T : Type} `{!Scalar T}.

Local Abbreviation M := (Op T).
Implicit Types (h : heap T) (x y t : Tensor4) (L : Conv2d) (d : list T).

(** The value of a 4-D tensor: its elements in row-major order and its
    sizes. *)
Record Val4 := mkVal4 {
  vdata : list T;
  vB : nat;
  vC : nat;
  vH : nat;
  vW : nat
}.

(** The floating storage at a location (empty when there is none). *)
Definition floats h (l : loc) : list T :=
  match h !! l with
  | Some (FloatStorage d) => d
  | _ => []
  end.

Definition is_float h (l : loc) : bool :=
  match h !! l with
  | Some (FloatStorage _) => true
  | _ => false
  end.

(** The value a handle denotes in a store. *)
Definition value_of h t : option Val4 :=
  match h !! storage t with
  | Some (FloatStorage d) =>
      Some {| vdata := d; vB := size0 t; vC := size1 t; vH := size2 t;
              vW := size3 t |}
  | _ => None
  end.

Definition hyper L : nat * nat * nat * nat * nat :=
  (in_channels L, out_channels L, kernel_size L, stride L, padding L).

(** A layer with the given hyper-parameters whose parameters are stored. *)
Definition wf_conv h L (hp : nat * nat * nat * nat * nat) : bool :=
  bool_decide (hyper L = hp) && is_float h (weight L) && is_float h (bias L).

(** The value of a convolution layer applied to a value, with the layer's
    parameters read from the store [h]. *)
Definition conv_val h L (v : Val4) : Val4 :=
  {| vdata := conv2d_data L (floats h (weight L)) (floats h (bias L))
                (vdata v) (vB v) (vH v) (vW v);
     vB := vB v;
     vC := out_channels L;
     vH := conv_out (vH v) (kernel_size L) (stride L) (padding L);
     vW := conv_out (vW v) (kernel_size L) (stride L) (padding L) |}.

Definition map_val (f : T -> T) (v : Val4) : Val4 :=
  {| vdata := map f (vdata v); vB := vB v; vC := vC v; vH := vH v;
     vW := vW v |}.

Definition relu_val : Val4 -> Val4 := map_val s_relu.

Definition add_val (a b : Val4) : Val4 :=
  {| vdata := zip_add (vdata a) (vdata b); vB := vB a; vC := vC a;
     vH := vH a; vW := vW a |}.

Definition well_sized (v : Val4) : Prop :=
  length (vdata v) = vB v * vC v * vH v * vW v.

(** ** Basic facts about the store *)

Lemma floats_prefix h h' l :
  is_float h l = true -> h `prefix_of` h' -> floats h' l = floats h l.
Proof.
  unfold is_float, floats. intros Hf Hp.
  destruct (h !! l) as [c|] eqn:E; [|discriminate].
  by rewrite (prefix_lookup_Some _ _ _ _ E Hp).
Qed.

Lemma is_float_prefix h h' l :
  is_float h l = true -> h `prefix_of` h' -> is_float h' l = true.
Proof.
  unfold is_float. intros Hf Hp.
  destruct (h !! l) as [c|] eqn:E; [|discriminate].
  by rewrite (prefix_lookup_Some _ _ _ _ E Hp).
Qed.

Lemma is_float_lookup h l :
  is_float h l = true -> h !! l = Some (FloatStorage (floats h l)).
Proof.
  unfold is_float, floats.
  destruct (h !! l) as [[d|d]|]; intros; done.
Qed.

Lemma is_float_lt h l : is_float h l = true -> l < length h.
Proof.
  intros Hf. apply is_float_lookup in Hf. by apply lookup_lt_Some in Hf.
Qed.

Lemma value_of_prefix h h' t v :
  h `prefix_of` h' -> value_of h t = Some v -> value_of h' t = Some v.
Proof.
  unfold value_of. intros Hp Hv.
  destruct (h !! storage t) as [c|] eqn:E; [|discriminate].
  by rewrite (prefix_lookup_Some _ _ _ _ E Hp).
Qed.

Lemma value_of_lookup h t v :
  value_of h t = Some v ->
  h !! storage t = Some (FloatStorage (vdata v))
  /\ vB v = size0 t /\ vC v = size1 t /\ vH v = size2 t /\ vW v = size3 t.
Proof.
  unfold value_of.
  destruct (h !! storage t) as [[d|d]|]; intros [= <-]; done.
Qed.

Lemma value_of_lt h t v : value_of h t = Some v -> storage t < length h.
Proof.
  intros Hv. apply value_of_lookup in Hv as [Hv _].
  by apply lookup_lt_Some in Hv.
Qed.

Lemma value_of_new h t d :
  storage t = length h ->
  value_of (h ++ [FloatStorage d]) t
  = Some {| vdata := d; vB := size0 t; vC := size1 t; vH := size2 t;
            vW := size3 t |}.
Proof.
  intros E. unfold value_of. rewrite E.
  by rewrite lookup_app_r, Nat.sub_diag by lia.
Qed.

Lemma value_of_detach h t : value_of h (detach t) = value_of h t.
Proof. reflexivity. Qed.

Lemma wf_conv_inv h L cin cout k s p :
  wf_conv h L (cin, cout, k, s, p) = true ->
  in_channels L = cin /\ out_channels L = cout /\ kernel_size L = k
  /\ stride L = s /\ padding L = p
  /\ is_float h (weight L) = true /\ is_float h (bias L) = true.
Proof.
  unfold wf_conv, hyper. rewrite !andb_true_iff, bool_decide_eq_true.
  intros [[[= -> -> -> -> ->] ?] ?]. done.
Qed.

Lemma wf_conv_prefix h h' L hp :
  wf_conv h L hp = true -> h `prefix_of` h' -> wf_conv h' L hp = true.
Proof.
  unfold wf_conv. rewrite !andb_true_iff. intros [[? ?] ?] Hp.
  eauto using is_float_prefix.
Qed.

Lemma conv_val_prefix h h' L hp v :
  wf_conv h L hp = true -> h `prefix_of` h' -> conv_val h' L v = conv_val h L v.
Proof.
  unfold wf_conv. rewrite !andb_true_iff. intros [[? ?] ?] Hp.
  unfold conv_val. by rewrite !(floats_prefix h h') by done.
Qed.

(** ** Sizes *)

Lemma conv_out_pos n k s p : 1 <= conv_out n k s p.
Proof. unfold conv_out. lia. Qed.

Lemma conv_out_same3 n : 1 <= n -> conv_out n 3 1 1 = n.
Proof.
  intros. unfold conv_out. rewrite Nat.div_1_r. lia.
Qed.

Lemma conv_out_same1 n : 1 <= n -> conv_out n 1 1 0 = n.
Proof.
  intros. unfold conv_out. rewrite Nat.div_1_r. lia.
Qed.

(** A stride-2 convolution with kernel 3 and padding 1 halves, rounding up. *)
Lemma conv_out_half n : 1 <= n -> conv_out n 3 2 1 = (n + 1) / 2.
Proof.
  intros. unfold conv_out.
  replace (n + 2 * 1 - 3) with (n - 1) by lia.
  pose proof (Nat.div_mod_eq (n - 1) 2). pose proof (Nat.div_mod_eq (n + 1) 2).
  pose proof (Nat.mod_upper_bound (n - 1) 2). pose proof (Nat.mod_upper_bound (n + 1) 2).
  lia.
Qed.

Lemma conv_out_half_even m : 1 <= m -> conv_out (2 * m) 3 2 1 = m.
Proof.
  intros. rewrite conv_out_half by lia.
  pose proof (Nat.div_mod_eq (2 * m + 1) 2).
  pose proof (Nat.mod_upper_bound (2 * m + 1) 2). lia.
Qed.

Lemma length_flat_map_const {A B} (f : A -> list B) (l : list A) (n : nat) :
  (forall a, length (f a) = n) -> length (flat_map f l) = length l * n.
Proof.
  intros Hf. induction l as [|a l IH]; simpl; [done|].
  by rewrite length_app, Hf, IH.
Qed.

Lemma length_conv2d_data L w bs d B H W :
  length (conv2d_data L w bs d B H W)
  = B * out_channels L * conv_out H (kernel_size L) (stride L) (padding L)
    * conv_out W (kernel_size L) (stride L) (padding L).
Proof.
  unfold conv2d_data.
  rewrite (length_flat_map_const _ _
             (out_channels L * conv_out H (kernel_size L) (stride L) (padding L)
              * conv_out W (kernel_size L) (stride L) (padding L))).
  - rewrite length_seq. lia.
  - intros b.
    rewrite (length_flat_map_const _ _
               (conv_out H (kernel_size L) (stride L) (padding L)
                * conv_out W (kernel_size L) (stride L) (padding L))).
    + rewrite length_seq. lia.
    + intros o.
      rewrite (length_flat_map_const _ _
                 (conv_out W (kernel_size L) (stride L) (padding L))).
      * by rewrite length_seq.
      * intros i. by rewrite length_map, length_seq.
Qed.

Lemma well_sized_conv h L v : well_sized (conv_val h L v).
Proof. unfold well_sized. simpl. apply length_conv2d_data. Qed.

Lemma well_sized_map f v : well_sized v -> well_sized (map_val f v).
Proof. unfold well_sized. simpl. by rewrite length_map. Qed.

Lemma elements_contiguous n d : length d = n -> elements n 1 d = d.
Proof.
  intros <-. unfold elements.
  apply nth_ext with (d := s_zero) (d' := s_zero).
  - by rewrite length_map, length_seq.
  - intros i. rewrite length_map, length_seq. intros Hi.
    rewrite (nth_indep _ _ (nth (0 * 1) d s_zero)) by (by rewrite length_map, length_seq).
    rewrite (map_nth (fun i => nth (i * 1) d s_zero)).
    rewrite seq_nth by done. f_equal. lia.
Qed.

Lemma elements_expand n a : elements n 0 [a] = repeat a n.
Proof.
  unfold elements.
  assert (forall s, map (fun i => nth (i * 0) [a] s_zero) (seq s n) = repeat a n) as H.
  { induction n as [|n IH]; intros s; simpl; [done|].
    rewrite IH. by rewrite Nat.mul_0_r. }
  apply H.
Qed.

Lemma zip_sub_repeat d a : zip_sub d (repeat a (length d)) = map (fun e => s_sub e a) d.
Proof.
  unfold zip_sub. induction d as [|e d IH]; simpl; [done|]. by rewrite IH.
Qed.

End Values.

(** * Running the operations *)

Section Runs.
Context {T : Type} `{!Scalar T}.

Local Abbreviation M := (Op T).
Implicit Types (h : heap T) (x y t : Tensor4) (L : Conv2d) (d : list T)
  (v : Val4 (T := T)).

(** [computes m h Q]: from the store [h] the computation [m] returns a result
    and a store that extends [h], and these satisfy [Q]. *)
Definition computes {A} (m : M A) h (Q : A -> heap T -> Prop) : Prop :=
  exists a h', m h = Ok (a, h') /\ h `prefix_of` h' /\ Q a h'.

Lemma computes_ret {A} (a : A) h (Q : A -> heap T -> Prop) :
  Q a h -> computes (ret a) h Q.
Proof. intros HQ. by exists a, h. Qed.

Lemma computes_bind {A B} (m : M A) (k : A -> M B) h (Q : B -> heap T -> Prop) :
  computes m h (fun a h1 => computes (k a) h1 Q) -> computes (bind m k) h Q.
Proof.
  intros (a & h1 & Hm & Hp1 & b & h2 & Hk & Hp2 & HQ).
  exists b, h2. unfold bind. rewrite Hm. split; [done|]. split; [|done].
  by etrans.
Qed.

Lemma computes_weaken {A} (m : M A) h (Q Q' : A -> heap T -> Prop) :
  computes m h Q -> (forall a h', h `prefix_of` h' -> Q a h' -> Q' a h') ->
  computes m h Q'.
Proof. intros (a & h' & ? & ? & ?) HQ. exists a, h'. eauto. Qed.

Lemma load_run h l : is_float h l = true -> load l h = Ok (floats h l, h).
Proof. intros Hf. unfold load. by rewrite (is_float_lookup _ _ Hf). Qed.

Lemma load_value h t v : value_of h t = Some v -> load (storage t) h = Ok (vdata v, h).
Proof.
  intros Hv. apply value_of_lookup in Hv as [Hv _]. unfold load. by rewrite Hv.
Qed.

Lemma conv2d_run h0 h L cin cout k s p x v :
  h0 `prefix_of` h -> wf_conv h0 L (cin, cout, k, s, p) = true ->
  value_of h x = Some v ->
  vC v = cin -> k <= vH v + 2 * p -> k <= vW v + 2 * p ->
  conv2d L x h
  = Ok ({| storage := length h; size0 := vB v; size1 := cout;
           size2 := conv_out (vH v) k s p; size3 := conv_out (vW v) k s p;
           requires_grad := requires_grad x || params_require_grad L |},
        h ++ [FloatStorage (vdata (conv_val h0 L v))]).
Proof.
  intros Hp Hwf Hv HC HH HW.
  destruct (wf_conv_inv _ _ _ _ _ _ _ Hwf) as (Ei & Eo & Ek & Es & Epad & Hw & Hb).
  pose proof (load_value _ _ _ Hv) as Hl.
  apply value_of_lookup in Hv as (_ & EB & EC & EH & EW).
  unfold conv2d. rewrite Ei, Eo, Ek, Es, Epad, <- EB, <- EC, <- EH, <- EW.
  rewrite (proj2 (Nat.eqb_eq _ _) HC).
  rewrite (proj2 (Nat.ltb_ge _ _) HH), (proj2 (Nat.ltb_ge _ _) HW).
  unfold bind. cbn [negb orb].
  rewrite (load_run h (weight L)) by eauto using is_float_prefix.
  rewrite (load_run h (bias L)) by eauto using is_float_prefix.
  rewrite Hl. unfold alloc, ret.
  rewrite !(floats_prefix h0 h) by done.
  done.
Qed.

Lemma relu_run h x v :
  value_of h x = Some v ->
  relu x h = Ok (with_storage x (length h), h ++ [FloatStorage (map s_relu (vdata v))]).
Proof.
  intros Hv. unfold relu, bind. by rewrite (load_value _ _ _ Hv).
Qed.

Lemma logsigmoid_run h x v :
  value_of h x = Some v ->
  logsigmoid x h
  = Ok (with_storage x (length h), h ++ [FloatStorage (map s_logsigmoid (vdata v))]).
Proof.
  intros Hv. unfold logsigmoid, bind. by rewrite (load_value _ _ _ Hv).
Qed.

Lemma tadd_run h x y vx vy :
  value_of h x = Some vx -> value_of h y = Some vy ->
  vB vx = vB vy -> vC vx = vC vy -> vH vx = vH vy -> vW vx = vW vy ->
  tadd x y h
  = Ok ({| storage := length h; size0 := size0 x; size1 := size1 x;
           size2 := size2 x; size3 := size3 x;
           requires_grad := requires_grad x || requires_grad y |},
        h ++ [FloatStorage (zip_add (vdata vx) (vdata vy))]).
Proof.
  intros Hx Hy EB EC EH EW.
  pose proof (load_value _ _ _ Hx) as Hlx. pose proof (load_value _ _ _ Hy) as Hly.
  apply value_of_lookup in Hx as (_ & ? & ? & ? & ?).
  apply value_of_lookup in Hy as (_ & ? & ? & ? & ?).
  unfold tadd, same_sizes.
  rewrite !(proj2 (Nat.eqb_eq _ _)) by congruence.
  unfold bind. cbn [andb]. by rewrite Hlx, Hly.
Qed.

(** The weakest-precondition forms used to step through a block. *)

Lemma computes_conv h0 h L cin cout k s p x v (Q : Tensor4 -> heap T -> Prop) :
  h0 `prefix_of` h -> wf_conv h0 L (cin, cout, k, s, p) = true ->
  value_of h x = Some v ->
  vC v = cin -> k <= vH v + 2 * p -> k <= vW v + 2 * p ->
  (forall t h' v', h `prefix_of` h' -> length h <= storage t ->
     value_of h' t = Some v' -> v' = conv_val h0 L v ->
     vB v' = vB v -> vC v' = cout ->
     vH v' = conv_out (vH v) k s p -> vW v' = conv_out (vW v) k s p ->
     Q t h') ->
  computes (conv2d L x) h Q.
Proof.
  intros Hp Hwf Hv HC HH HW HQ.
  destruct (wf_conv_inv _ _ _ _ _ _ _ Hwf) as (Ei & Eo & Ek & Es & Epad & Hw & Hb).
  eexists _, _. split; [by eapply conv2d_run|]. split; [by apply prefix_app_r|].
  apply (HQ _ _ (conv_val h0 L v)); [by apply prefix_app_r|simpl; lia| |done|..];
    [|simpl; congruence..].
  rewrite value_of_new by done. unfold conv_val. simpl. congruence.
Qed.

Lemma computes_relu h x v (Q : Tensor4 -> heap T -> Prop) :
  value_of h x = Some v ->
  (forall t h', h `prefix_of` h' -> length h <= storage t ->
     value_of h' t = Some (relu_val v) -> Q t h') ->
  computes (relu x) h Q.
Proof.
  intros Hv HQ.
  eexists _, _. split; [by eapply relu_run|]. split; [by apply prefix_app_r|].
  eapply HQ; [by apply prefix_app_r|simpl; lia|].
  rewrite value_of_new by done.
  apply value_of_lookup in Hv as (_ & ? & ? & ? & ?).
  unfold relu_val, map_val. simpl. congruence.
Qed.

Lemma computes_relu_conv h0 h L cin cout k s p x v (Q : Tensor4 -> heap T -> Prop) :
  h0 `prefix_of` h -> wf_conv h0 L (cin, cout, k, s, p) = true ->
  value_of h x = Some v ->
  vC v = cin -> k <= vH v + 2 * p -> k <= vW v + 2 * p ->
  (forall t h' v', h `prefix_of` h' -> length h <= storage t ->
     value_of h' t = Some v' -> v' = relu_val (conv_val h0 L v) ->
     vB v' = vB v -> vC v' = cout ->
     vH v' = conv_out (vH v) k s p -> vW v' = conv_out (vW v) k s p ->
     Q t h') ->
  computes (relu_conv L x) h Q.
Proof.
  intros Hp Hwf Hv HC HH HW HQ. unfold relu_conv.
  apply computes_bind. eapply computes_conv; [done..|].
  intros t1 h1 v1 Hp1 Hf1 Hv1 -> EB EC EH EW.
  eapply computes_relu; [done|].
  intros t2 h2 Hp2 Hf2 Hv2.
  apply (HQ _ _ (relu_val (conv_val h0 L v))); try done.
  - by etrans.
  - apply prefix_length in Hp1. lia.
Qed.

Lemma computes_tadd h x y vx vy (Q : Tensor4 -> heap T -> Prop) :
  value_of h x = Some vx -> value_of h y = Some vy ->
  vB vx = vB vy -> vC vx = vC vy -> vH vx = vH vy -> vW vx = vW vy ->
  (forall t h', h `prefix_of` h' -> length h <= storage t ->
     value_of h' t = Some (add_val vx vy) -> Q t h') ->
  computes (tadd x y) h Q.
Proof.
  intros Hx Hy EB EC EH EW HQ.
  eexists _, _. split; [by eapply tadd_run|]. split; [by apply prefix_app_r|].
  eapply HQ; [by apply prefix_app_r|simpl; lia|].
  rewrite value_of_new by done.
  apply value_of_lookup in Hx as (_ & ? & ? & ? & ?).
  unfold add_val. simpl. congruence.
Qed.

(** ** Well-formed networks *)

(** The layers of a network with the hyper-parameters the constructor gives
    them. *)
Definition layers (net : Network) : list (Conv2d * (nat * nat * nat * nat * nat)) :=
  [ (conv1 net, (3, 32, 3, 1, 1));
    (conv2 net, (32, 64, 3, 2, 1));
    (conv3 net, (64, 128, 3, 2, 1));
    (conv4 net, (128, 256, 3, 2, 1));
    (res1_conv1 net, (256, 256, 3, 1, 1));
    (res1_conv2 net, (256, 256, 1, 1, 0));
    (res1_conv3 net, (256, 256, 3, 1, 1));
    (res2_conv1 net, (256, 512, 3, 1, 1));
    (res2_conv2 net, (512, 512, 1, 1, 0));
    (res2_conv3 net, (512, 512, 3, 1, 1));
    (res2_skip net, (256, 512, 1, 1, 0));
    (res3_conv1 net, (512, 512, 3, 1, 1));
    (res3_conv2 net, (512, 512, 1, 1, 0));
    (res3_conv3 net, (512, 512, 3, 1, 1));
    (fc1 net, (512, 512, 1, 1, 0));
    (fc2 net, (512, 512, 1, 1, 0));
    (fc3 net, (512, 3, 1, 1, 0));
    (fc1_1 net, (512, 512, 1, 1, 0));
    (fc2_1 net, (512, 512, 1, 1, 0));
    (fc3_1 net, (512, 1, 1, 1, 0)) ].

(** A network is well formed in a store when its layers have the
    hyper-parameters of the architecture and all its parameters and its mean
    buffer are stored. *)
Definition wf_net h (net : Network) : bool :=
  forallb (fun lp => wf_conv h (fst lp) (snd lp)) (layers net)
  && is_float h (storage1 (mean net)).

Lemma wf_net_layer h net L hp :
  wf_net h net = true -> In (L, hp) (layers net) -> wf_conv h L hp = true.
Proof.
  unfold wf_net. rewrite andb_true_iff, forallb_forall. intros [Hl _] Hin.
  apply (Hl _ Hin).
Qed.

Lemma wf_net_mean h net : wf_net h net = true -> is_float h (storage1 (mean net)) = true.
Proof. unfold wf_net. rewrite andb_true_iff. tauto. Qed.

Lemma wf_net_prefix h h' net :
  wf_net h net = true -> h `prefix_of` h' -> wf_net h' net = true.
Proof.
  unfold wf_net. rewrite !andb_true_iff, !forallb_forall. intros [Hl Hm] Hp.
  split; [|by eapply is_float_prefix].
  intros lp Hin. eapply wf_conv_prefix; [by apply Hl|done].
Qed.

(** ** The values of the blocks *)

Definition stem_val h net v : Val4 :=
  relu_val (conv_val h (conv4 net)
    (relu_val (conv_val h (conv3 net)
      (relu_val (conv_val h (conv2 net)
        (relu_val (conv_val h (conv1 net) v))))))).

(** Three convolutions, each followed by the rectifier. *)
Definition subnet_val h (L1 L2 L3 : Conv2d) v : Val4 :=
  relu_val (conv_val h L3 (relu_val (conv_val h L2 (relu_val (conv_val h L1 v))))).

Definition res1_val h net v : Val4 :=
  add_val v (subnet_val h (res1_conv1 net) (res1_conv2 net) (res1_conv3 net) v).

Definition res2_val h net v : Val4 :=
  add_val (conv_val h (res2_skip net) v)
          (subnet_val h (res2_conv1 net) (res2_conv2 net) (res2_conv3 net) v).

Definition res3_val h net v : Val4 :=
  add_val v (subnet_val h (res3_conv1 net) (res3_conv2 net) (res3_conv3 net) v).

Definition trunk_val h net v : Val4 :=
  res3_val h net (res2_val h net (res1_val h net (stem_val h net v))).

(** Element [i] of the mean buffer. *)
Definition mean_at h net (i : nat) : T :=
  nth (i * stride1 (mean net)) (floats h (storage1 (mean net))) s_zero.

(** The value after [v[:, 0] += m0; v[:, 1] += m1; v[:, 2] += m2]. *)
Definition add_mean_val (m0 m1 m2 : T) v : Val4 :=
  {| vdata := add_to_channel (vC v) (vH v * vW v) 2 m2
                (add_to_channel (vC v) (vH v * vW v) 1 m1
                   (add_to_channel (vC v) (vH v * vW v) 0 m0 (vdata v)));
     vB := vB v; vC := vC v; vH := vH v; vW := vW v |}.

(** Two 1x1 convolutions with rectifier and a last one without. *)
Definition head_raw_val h (L1 L2 L3 : Conv2d) v : Val4 :=
  conv_val h L3 (relu_val (conv_val h L2 (relu_val (conv_val h L1 v)))).

Definition head_sc_val h net v : Val4 :=
  add_mean_val (mean_at h net 0) (mean_at h net 1) (mean_at h net 2)
    (head_raw_val h (fc1 net) (fc2 net) (fc3 net) v).

(** Normalisation in log space: one normaliser for the whole sequence. *)
Definition normalize (l : list T) : list T :=
  map (fun e => s_sub e (s_logsumexp l)) l.

Definition head_ng_val h net v : Val4 :=
  {| vdata := normalize (map s_logsigmoid
                (vdata (head_raw_val h (fc1_1 net) (fc2_1 net) (fc3_1 net) v)));
     vB := vB v; vC := 1; vH := vH v; vW := vW v |}.

(** The values of the two outputs of [forward]. *)
Definition coords_val h net v : Val4 := head_sc_val h net (trunk_val h net v).

Definition guidance_val h net v : Val4 := head_ng_val h net (trunk_val h net v).

(** Spatial size after the stem. *)
Definition stem_out (n : nat) : nat :=
  conv_out (conv_out (conv_out (conv_out n 3 1 1) 3 2 1) 3 2 1) 3 2 1.

(** The postcondition of a block: the returned tensor is new, has the given
    value, and the value has the given sizes. *)
Definition yields h (val : Val4) (B C H W : nat) : Tensor4 -> heap T -> Prop :=
  fun t h' =>
    value_of h' t = Some val /\ length h <= storage t
    /\ vB val = B /\ vC val = C /\ vH val = H /\ vW val = W.

End Runs.

Ltac in_layers :=
  cbn [layers In]; repeat first [left; reflexivity | right].

Ltac layer := eapply wf_net_layer; [eassumption | in_layers].

(** Moves the facts about the store [h] to its extension [h']. *)
Ltac advance Hp :=
  match type of Hp with
  | ?h `prefix_of` ?h' =>
      pose proof (prefix_length _ _ Hp);
      repeat match goal with
      | H : value_of h _ = Some _ |- _ => apply (value_of_prefix h h' _ _ Hp) in H
      | H : _ `prefix_of` h |- _ => apply (fun H0 => transitivity H0 Hp) in H
      end
  end.

Ltac sizes :=
  repeat match goal with
  | H : context [conv_out ?n 3 1 1] |- _ => rewrite (conv_out_same3 n) in H by lia
  | H : context [conv_out ?n 1 1 0] |- _ => rewrite (conv_out_same1 n) in H by lia
  | |- context [conv_out ?n 3 1 1] => rewrite (conv_out_same3 n) by lia
  | |- context [conv_out ?n 1 1 0] => rewrite (conv_out_same1 n) by lia
  end;
  repeat match goal with
  | H : context [conv_out ?n ?k ?s ?p] |- _ =>
      lazymatch goal with
      | _ : 1 <= conv_out n k s p |- _ => fail
      | _ => pose proof (conv_out_pos n k s p)
      end
  end;
  first [lia | congruence].

Ltac step_relu_conv h0 :=
  apply computes_bind; eapply (computes_relu_conv h0);
  [ eassumption | layer | eassumption | sizes | sizes | sizes | ];
  let t := fresh "t" in let h := fresh "h" in let v := fresh "v" in
  let Hp := fresh "Hp" in let Hf := fresh "Hf" in let Hv := fresh "Hv" in
  let Ev := fresh "Ev" in
  intros t h v Hp Hf Hv Ev ? ? ? ?; advance Hp.

Ltac step_tadd :=
  apply computes_bind; eapply computes_tadd;
  [ eassumption | eassumption | sizes | sizes | sizes | sizes | ];
  let t := fresh "t" in let h := fresh "h" in
  let Hp := fresh "Hp" in let Hf := fresh "Hf" in let Hv := fresh "Hv" in
  intros t h Hp Hf Hv; advance Hp.

(** Closes a block: the value found is the value of the block, with its
    sizes. *)
Ltac finish :=
  apply computes_ret; unfold yields;
  match goal with
  | Hv : value_of ?h ?t = Some ?val |- value_of ?h ?t = Some ?val' /\ _ =>
      assert (val' = val) as -> by (subst; reflexivity)
  end;
  split; [assumption|]; split; [lia|];
  cbn [add_val vB vC vH vW]; unfold stem_out; repeat split; sizes.

Ltac step_conv h0 :=
  apply computes_bind; eapply (computes_conv h0);
  [ eassumption | layer | eassumption | sizes | sizes | sizes | ];
  let t := fresh "t" in let h := fresh "h" in let v := fresh "v" in
  let Hp := fresh "Hp" in let Hf := fresh "Hf" in let Hv := fresh "Hv" in
  let Ev := fresh "Ev" in
  intros t h v Hp Hf Hv Ev ? ? ? ?; advance Hp.

Section Blocks.
Context {T : Type} `{!Scalar T}.

Implicit Types (h : heap T) (x y t : Tensor4) (L : Conv2d) (d : list T)
  (v : Val4 (T := T)) (net : Network).

Lemma stem_spec h0 h net x v :
  h0 `prefix_of` h -> wf_net h0 net = true -> value_of h x = Some v ->
  vC v = 3 -> 1 <= vH v -> 1 <= vW v ->
  computes (stem net x) h
    (yields h (stem_val h0 net v) (vB v) 256 (stem_out (vH v)) (stem_out (vW v))).
Proof.
  intros Hp0 Hwf Hx HC HH HW. unfold stem.
  do 4 step_relu_conv h0.
  finish.
Qed.

Lemma res1_spec h0 h net x v :
  h0 `prefix_of` h -> wf_net h0 net = true -> value_of h x = Some v ->
  vC v = 256 -> 1 <= vH v -> 1 <= vW v ->
  computes (res1 net x) h (yields h (res1_val h0 net v) (vB v) 256 (vH v) (vW v)).
Proof.
  intros Hp0 Hwf Hx HC HH HW. unfold res1.
  do 3 step_relu_conv h0. step_tadd.
  finish.
Qed.

Lemma res2_spec h0 h net x v :
  h0 `prefix_of` h -> wf_net h0 net = true -> value_of h x = Some v ->
  vC v = 256 -> 1 <= vH v -> 1 <= vW v ->
  computes (res2 net x) h (yields h (res2_val h0 net v) (vB v) 512 (vH v) (vW v)).
Proof.
  intros Hp0 Hwf Hx HC HH HW. unfold res2.
  do 3 step_relu_conv h0. step_conv h0. step_tadd.
  finish.
Qed.

Lemma res3_spec h0 h net x v :
  h0 `prefix_of` h -> wf_net h0 net = true -> value_of h x = Some v ->
  vC v = 512 -> 1 <= vH v -> 1 <= vW v ->
  computes (res3 net x) h (yields h (res3_val h0 net v) (vB v) 512 (vH v) (vW v)).
Proof.
  intros Hp0 Hwf Hx HC HH HW. unfold res3.
  do 3 step_relu_conv h0. step_tadd.
  finish.
Qed.

(** *** Output head 1 *)

Lemma lookup_snoc_last {A} (l : list A) (a : A) : (l ++ [a]) !! length l = Some a.
Proof. by rewrite lookup_app_r, Nat.sub_diag by lia. Qed.

Lemma insert_snoc_last {A} (l : list A) (a b : A) :
  <[length l := b]> (l ++ [a]) = l ++ [b].
Proof.
  replace (length l) with (length l + 0) by lia. by rewrite insert_app_r.
Qed.

Lemma item_run h (m : Tensor1) i :
  is_float h (storage1 m) = true -> i < len1 m ->
  item m i h = Ok (nth (i * stride1 m) (floats h (storage1 m)) s_zero, h).
Proof.
  intros Hf Hi. unfold item. rewrite (proj2 (Nat.ltb_lt _ _) Hi).
  unfold bind. by rewrite load_run.
Qed.

Lemma item_out_of_range h (m : Tensor1) i :
  len1 m <= i -> item m i h = Err IndexError.
Proof.
  intros Hi. unfold item. by rewrite (proj2 (Nat.ltb_ge _ _) Hi).
Qed.

Lemma iadd_channel_run h x c a d :
  storage x = length h -> c < size1 x ->
  iadd_channel x c a (h ++ [FloatStorage d])
  = Ok (tt, h ++ [FloatStorage
                    (add_to_channel (size1 x) (size2 x * size3 x) c a d)]).
Proof.
  intros Es Hc. unfold iadd_channel. rewrite (proj2 (Nat.ltb_lt _ _) Hc).
  unfold bind, load, store. rewrite Es, !lookup_snoc_last.
  by rewrite insert_snoc_last.
Qed.

(** The three in-place additions of lines 93-95, run on the new tensor. *)
Definition add_mean (net : Network) (sc : Tensor4) : Op T Tensor4 :=
  let* m0 := item (mean net) 0 in
  let* _ := iadd_channel sc 0 m0 in
  let* m1 := item (mean net) 1 in
  let* _ := iadd_channel sc 1 m1 in
  let* m2 := item (mean net) 2 in
  let* _ := iadd_channel sc 2 m2 in
  ret sc.

Lemma add_mean_run h0 h net sc d :
  h0 `prefix_of` h -> wf_net h0 net = true -> 3 <= len1 (mean net) ->
  storage sc = length h -> size1 sc = 3 ->
  add_mean net sc (h ++ [FloatStorage d])
  = Ok (sc, h ++ [FloatStorage
                    (add_to_channel 3 (size2 sc * size3 sc) 2 (mean_at h0 net 2)
                       (add_to_channel 3 (size2 sc * size3 sc) 1 (mean_at h0 net 1)
                          (add_to_channel 3 (size2 sc * size3 sc) 0 (mean_at h0 net 0)
                             d)))]).
Proof.
  intros Hp Hwf Hlen Es EC.
  pose proof (wf_net_mean _ _ Hwf) as Hm.
  assert (forall c, h0 `prefix_of` h ++ [c]) as Hp' by (intros; by apply prefix_app_r).
  unfold add_mean, bind.
  rewrite item_run by (eauto using is_float_prefix || lia).
  rewrite iadd_channel_run by (done || lia).
  rewrite item_run by (eauto using is_float_prefix || lia).
  rewrite iadd_channel_run by (done || lia).
  rewrite item_run by (eauto using is_float_prefix || lia).
  rewrite iadd_channel_run by (done || lia).
  unfold ret, mean_at. rewrite EC.
  by rewrite !(floats_prefix h0 (h ++ _)) by done.
Qed.

Lemma add_mean_short h0 h net sc d :
  h0 `prefix_of` h -> wf_net h0 net = true -> len1 (mean net) < 3 ->
  storage sc = length h -> size1 sc = 3 ->
  add_mean net sc (h ++ [FloatStorage d]) = Err IndexError.
Proof.
  intros Hp Hwf Hlen Es EC.
  pose proof (wf_net_mean _ _ Hwf) as Hm.
  assert (forall c, h0 `prefix_of` h ++ [c]) as Hp' by (intros; by apply prefix_app_r).
  unfold add_mean, bind.
  destruct (decide (len1 (mean net) = 0)) as [E0|N0].
  { by rewrite item_out_of_range by lia. }
  rewrite item_run by (eauto using is_float_prefix || lia).
  rewrite iadd_channel_run by (done || lia).
  destruct (decide (len1 (mean net) = 1)) as [E1|N1].
  { by rewrite item_out_of_range by lia. }
  rewrite item_run by (eauto using is_float_prefix || lia).
  rewrite iadd_channel_run by (done || lia).
  by rewrite item_out_of_range by lia.
Qed.

Lemma head_sc_unfold net res :
  head_sc net res
  = (let* sc := relu_conv (fc1 net) res in
     let* sc := relu_conv (fc2 net) sc in
     let* sc := conv2d (fc3 net) sc in
     add_mean net sc).
Proof. reflexivity. Qed.

Lemma head_sc_spec h0 h net x v :
  h0 `prefix_of` h -> wf_net h0 net = true -> value_of h x = Some v ->
  vC v = 512 -> 1 <= vH v -> 1 <= vW v -> 3 <= len1 (mean net) ->
  computes (head_sc net x) h (yields h (head_sc_val h0 net v) (vB v) 3 (vH v) (vW v)).
Proof.
  intros Hp0 Hwf Hx HC HH HW Hlen. rewrite head_sc_unfold.
  do 2 step_relu_conv h0.
  assert (wf_conv h0 (fc3 net) (512, 3, 1, 1, 0) = true) as Hfc3 by layer.
  eexists _, _. split.
  { unfold bind at 1. erewrite (conv2d_run h0) by (done || sizes).
    eapply (add_mean_run h0); done. }
  split; [by apply prefix_app_r|].
  destruct (wf_conv_inv _ _ _ _ _ _ _ Hfc3) as (_ & Eo & Ek & Es & Epad & _).
  unfold yields. split; [|split; [simpl; lia|]].
  - rewrite value_of_new by done. subst.
    unfold head_sc_val, add_mean_val, head_raw_val.
    cbn [size0 size1 size2 size3 vB vC vH vW conv_val vdata].
    by rewrite Eo, Ek, Es, Epad.
  - unfold head_sc_val, add_mean_val, head_raw_val.
    cbn [vB vC vH vW conv_val]. rewrite Eo, Ek, Es, Epad.
    match goal with
    | |- context [relu_val (conv_val h0 (fc2 net) ?a)] =>
        replace (relu_val (conv_val h0 (fc2 net) a)) with v1 by (subst; reflexivity)
    end.
    repeat split; sizes.
Qed.

(** *** Output head 2 *)

(** Lines 103-110, run on the output of the last convolution. *)
Definition normalize_tail (x : Tensor4) (batch_size : nat) (sc : Tensor4)
  : Op T Tensor4 :=
  let* log_ng := logsigmoid x in
  let log_ng := view_flat log_ng in
  let* normalizer := logsumexp log_ng in
  let normalizer := expand normalizer (len1 log_ng) in
  let* log_ng := tsub log_ng normalizer in
  view4 log_ng batch_size 1 (size2 sc) (size3 sc).

Lemma normalize_tail_run h x v bs sc :
  value_of h x = Some v -> well_sized v ->
  bs * 1 * size2 sc * size3 sc = vB v * vC v * vH v * vW v ->
  normalize_tail x bs sc h
  = Ok ({| storage := length h + 2; size0 := bs; size1 := 1;
           size2 := size2 sc; size3 := size3 sc;
           requires_grad := requires_grad x || requires_grad x |},
        h ++ [FloatStorage (map s_logsigmoid (vdata v));
              FloatStorage [s_logsumexp (map s_logsigmoid (vdata v))];
              FloatStorage (normalize (map s_logsigmoid (vdata v)))]).
Proof.
  intros Hv Hws Hsz.
  pose proof (value_of_lookup _ _ _ Hv) as (_ & EB & EC & EH & EW).
  set (d1 := map s_logsigmoid (vdata v)).
  assert (length d1 = numel x) as Hlen.
  { unfold d1, numel. rewrite length_map, Hws. congruence. }
  unfold normalize_tail. unfold bind at 1. rewrite (logsigmoid_run _ _ _ Hv). fold d1.
  unfold bind at 1. unfold logsumexp at 1, bind at 1, load at 1.
  cbn [view_flat with_storage storage storage1 len1 stride1 size0 size1 size2 size3
       requires_grad requires_grad1 numel].
  rewrite lookup_snoc_last. unfold bind at 1, alloc at 1, ret at 1.
  change (len1 (view_flat (with_storage x (length h)))) with (numel x).
  change (stride1 (view_flat (with_storage x (length h)))) with 1.
  change (requires_grad1 (view_flat (with_storage x (length h))))
    with (requires_grad x).
  rewrite (elements_contiguous _ _ Hlen).
  unfold bind at 1, tsub at 1.
  cbn [expand view_flat with_storage storage storage0 storage1 len1 stride1
       requires_grad requires_grad0 requires_grad1].
  change (numel (with_storage x (length h))) with (numel x).
  rewrite Nat.eqb_refl.
  unfold bind, load, alloc, ret.
  rewrite (lookup_app_l_Some _ _ _ _ (lookup_snoc_last h _)).
  rewrite lookup_snoc_last.
  rewrite (elements_contiguous _ _ Hlen), elements_expand, <- Hlen, zip_sub_repeat.
  unfold view4. cbn [len1 stride1 storage1 requires_grad1].
  rewrite Hlen. unfold numel. rewrite <- EB, <- EC, <- EH, <- EW, <- Hsz.
  rewrite !Nat.eqb_refl. cbn [andb].
  unfold ret. rewrite !length_app. cbn [length].
  rewrite <- !app_assoc. cbn [app].
  replace (length h + 1 + 1) with (length h + 2) by lia. done.
Qed.

Lemma head_ng_unfold net res bs sc :
  head_ng net res bs sc
  = (let* log_ng := relu_conv (fc1_1 net) (detach res) in
     let* log_ng := relu_conv (fc2_1 net) log_ng in
     let* log_ng := conv2d (fc3_1 net) log_ng in
     normalize_tail log_ng bs sc).
Proof. reflexivity. Qed.

Lemma head_ng_spec h0 h net x v bs sc :
  h0 `prefix_of` h -> wf_net h0 net = true -> value_of h x = Some v ->
  vC v = 512 -> 1 <= vH v -> 1 <= vW v ->
  bs = vB v -> size2 sc = vH v -> size3 sc = vW v ->
  computes (head_ng net x bs sc) h
    (yields h (head_ng_val h0 net v) (vB v) 1 (vH v) (vW v)).
Proof.
  intros Hp0 Hwf Hx HC HH HW Ebs E2 E3. rewrite head_ng_unfold.
  rewrite <- value_of_detach in Hx.
  do 2 step_relu_conv h0. step_conv h0.
  eexists _, _. split.
  { eapply normalize_tail_run; [eassumption | subst; apply well_sized_conv | sizes ]. }
  split; [apply prefix_app_r; done|].
  unfold yields, head_ng_val. cbn [vB vC vH vW].
  split; [|split; [simpl; lia|done]].
  unfold value_of. cbn [storage].
  rewrite lookup_app_r by lia.
  replace (length h3 + 2 - length h3) with 2 by lia. cbn [lookup list_lookup].
  subst. cbn [size0 size1 size2 size3]. unfold head_raw_val.
  by rewrite E2, E3.
Qed.

(** *** The forward pass *)

Ltac step_block lem h0 :=
  apply computes_bind; eapply computes_weaken;
  [ eapply (lem h0); [eassumption | eassumption | eassumption | try lia ..] | ];
  let t := fresh "t" in let h := fresh "h" in
  let Hp := fresh "Hp" in let Hv := fresh "Hv" in let Hf := fresh "Hf" in
  intros t h Hp (Hv & Hf & ? & ? & ? & ?); advance Hp.

Lemma stem_out_pos n : 1 <= stem_out n.
Proof. apply conv_out_pos. Qed.

Lemma computes_run {A} (m : Op T A) h (Q : A -> heap T -> Prop) :
  computes m h Q -> exists a h', m h = Ok (a, h') /\ h `prefix_of` h' /\ Q a h'.
Proof. done. Qed.

(** ** Lengths of the values *)

Lemma length_add_to_channel C HW c (a : T) d :
  length (add_to_channel C HW c a d) = length d.
Proof. unfold add_to_channel. apply length_imap. Qed.

Lemma nth_add_to_channel C HW c (a : T) d n :
  n < length d ->
  nth n (add_to_channel C HW c a d) s_zero
  = if (n / HW) mod C =? c then s_add (nth n d s_zero) a else nth n d s_zero.
Proof.
  intros Hn. unfold add_to_channel.
  rewrite !nth_lookup, list_lookup_imap.
  destruct (lookup_lt_is_Some_2 d n Hn) as [e ->]. done.
Qed.

Lemma well_sized_head_raw h L1 L2 L3 v : well_sized (head_raw_val h L1 L2 L3 v).
Proof. apply well_sized_conv. Qed.

Lemma well_sized_add_mean (m0 m1 m2 : T) v :
  well_sized v -> well_sized (add_mean_val m0 m1 m2 v).
Proof.
  unfold well_sized, add_mean_val. cbn [vdata vB vC vH vW].
  by rewrite !length_add_to_channel.
Qed.

Lemma well_sized_coords h net v : well_sized (coords_val h net v).
Proof. apply well_sized_add_mean, well_sized_head_raw. Qed.

Lemma length_normalize (l : list T) : length (normalize l) = length l.
Proof. unfold normalize. by rewrite length_map. Qed.

Lemma well_sized_guidance h0 net v :
  wf_net h0 net = true -> vC v = 512 -> 1 <= vH v -> 1 <= vW v ->
  well_sized (head_ng_val h0 net v).
Proof.
  intros Hwf HC HH HW.
  assert (wf_conv h0 (fc1_1 net) (512, 512, 1, 1, 0) = true) as H1 by layer.
  assert (wf_conv h0 (fc2_1 net) (512, 512, 1, 1, 0) = true) as H2 by layer.
  assert (wf_conv h0 (fc3_1 net) (512, 1, 1, 1, 0) = true) as H3 by layer.
  apply wf_conv_inv in H1 as (_ & _ & K1 & S1 & P1 & _).
  apply wf_conv_inv in H2 as (_ & _ & K2 & S2 & P2 & _).
  apply wf_conv_inv in H3 as (_ & O3 & K3 & S3 & P3 & _).
  unfold well_sized, head_ng_val. cbn [vdata vB vC vH vW].
  rewrite length_normalize, length_map. unfold head_raw_val.
  cbn [conv_val vdata]. rewrite length_conv2d_data.
  unfold relu_val, map_val. cbn [conv_val vB vC vH vW].
  rewrite O3, K1, S1, P1, K2, S2, P2, K3, S3, P3.
  by rewrite !(conv_out_same1 (vH v)), !(conv_out_same1 (vW v)) by lia.
Qed.

(** A valid input to a well-formed network: every segment of [forward]
    returns, with the value of its block; the store is only extended, and the
    two outputs are new tensors. *)
Lemma forward_steps h net x v :
  wf_net h net = true -> value_of h x = Some v ->
  vC v = 3 -> 1 <= vH v -> 1 <= vW v -> 3 <= len1 (mean net) ->
  exists r0 h0 r1 h1 r2 h2 res h3 sc h4 ng h5,
    stem net x h = Ok (r0, h0) /\ res1 net r0 h0 = Ok (r1, h1)
    /\ res2 net r1 h1 = Ok (r2, h2) /\ res3 net r2 h2 = Ok (res, h3)
    /\ head_sc net res h3 = Ok (sc, h4)
    /\ head_ng net res (size0 x) sc h4 = Ok (ng, h5)
    /\ forward net x h = Ok ((sc, ng), h5)
    /\ h `prefix_of` h0 /\ h0 `prefix_of` h1 /\ h1 `prefix_of` h2
    /\ h2 `prefix_of` h3 /\ h3 `prefix_of` h4 /\ h4 `prefix_of` h5
    /\ value_of h0 r0 = Some (stem_val h net v)
    /\ value_of h1 r1 = Some (res1_val h net (stem_val h net v))
    /\ value_of h2 r2 = Some (res2_val h net (res1_val h net (stem_val h net v)))
    /\ value_of h3 res = Some (trunk_val h net v)
    /\ value_of h4 sc = Some (coords_val h net v)
    /\ value_of h5 ng = Some (guidance_val h net v)
    /\ length h <= storage sc /\ storage sc < storage ng
    /\ (vB (stem_val h net v), vC (stem_val h net v),
        vH (stem_val h net v), vW (stem_val h net v))
       = (vB v, 256, stem_out (vH v), stem_out (vW v))
    /\ (vB (trunk_val h net v), vC (trunk_val h net v),
        vH (trunk_val h net v), vW (trunk_val h net v))
       = (vB v, 512, stem_out (vH v), stem_out (vW v))
    /\ (size0 sc, size1 sc, size2 sc, size3 sc)
       = (vB v, 3, stem_out (vH v), stem_out (vW v))
    /\ (size0 ng, size1 ng, size2 ng, size3 ng)
       = (vB v, 1, stem_out (vH v), stem_out (vW v))
    /\ well_sized (coords_val h net v) /\ well_sized (guidance_val h net v).
Proof.
  intros Hwf Hx HC HH HW Hlen.
  assert (h `prefix_of` h) as Hp0 by done.
  pose proof (stem_out_pos (vH v)) as PH. pose proof (stem_out_pos (vW v)) as PW.
  pose proof (value_of_lookup _ _ _ Hx) as (_ & EB & _).
  destruct (computes_run _ _ _ (stem_spec h h net x v Hp0 Hwf Hx HC HH HW))
    as (r0 & h0 & Hrun0 & Hq0 & Hv0 & Hf0 & B0 & C0 & H0 & W0).
  assert (h `prefix_of` h0) as Hp1 by done.
  destruct (computes_run _ _ _ (res1_spec h h0 net r0 _ Hp1 Hwf Hv0
              ltac:(lia) ltac:(lia) ltac:(lia)))
    as (r1 & h1 & Hrun1 & Hq1 & Hv1 & Hf1 & B1 & C1 & H1 & W1).
  assert (h `prefix_of` h1) as Hp2 by (by etrans).
  destruct (computes_run _ _ _ (res2_spec h h1 net r1 _ Hp2 Hwf Hv1
              ltac:(lia) ltac:(lia) ltac:(lia)))
    as (r2 & h2 & Hrun2 & Hq2 & Hv2 & Hf2 & B2 & C2 & H2 & W2).
  assert (h `prefix_of` h2) as Hp3 by (by etrans).
  destruct (computes_run _ _ _ (res3_spec h h2 net r2 _ Hp3 Hwf Hv2
              ltac:(lia) ltac:(lia) ltac:(lia)))
    as (res & h3 & Hrun3 & Hq3 & Hv3 & Hf3 & B3 & C3 & H3 & W3).
  assert (h `prefix_of` h3) as Hp4 by (by etrans).
  fold (trunk_val h net v) in Hv3, B3, C3, H3, W3.
  destruct (computes_run _ _ _ (head_sc_spec h h3 net res _ Hp4 Hwf Hv3
              ltac:(lia) ltac:(lia) ltac:(lia) Hlen))
    as (sc & h4 & Hrun4 & Hq4 & Hv4 & Hf4 & B4 & C4 & H4 & W4).
  assert (h `prefix_of` h4) as Hp5 by (by etrans).
  fold (coords_val h net v) in Hv4, B4, C4, H4, W4.
  pose proof (value_of_lookup _ _ _ Hv4) as (_ & S0 & S1 & S2 & S3).
  pose proof (value_of_prefix _ _ _ _ Hq4 Hv3) as Hv3'.
  destruct (computes_run _ _ _ (head_ng_spec h h4 net res _ (size0 x) sc Hp5 Hwf Hv3'
              ltac:(lia) ltac:(lia) ltac:(lia) ltac:(lia) ltac:(lia) ltac:(lia)))
    as (ng & h5 & Hrun5 & Hq5 & Hv5 & Hf5 & B5 & C5 & H5 & W5).
  fold (guidance_val h net v) in Hv5, B5, C5, H5, W5.
  pose proof (value_of_lookup _ _ _ Hv5) as (_ & G0 & G1 & G2 & G3).
  pose proof (value_of_lt _ _ _ Hv4).
  pose proof (prefix_length _ _ Hp4).
  exists r0, h0, r1, h1, r2, h2, res, h3, sc, h4, ng, h5.
  repeat match goal with |- _ /\ _ => split end; try done; try lia.
  - unfold forward, bind. by rewrite Hrun0, Hrun1, Hrun2, Hrun3, Hrun4, Hrun5.
  - repeat f_equal; lia.
  - repeat f_equal; lia.
  - repeat f_equal; lia.
  - repeat f_equal; lia.
  - apply well_sized_coords.
  - apply well_sized_guidance; [done|lia..].
Qed.

(** A valid input to a well-formed network: [forward] returns two new
    tensors, whose values are [coords_val] and [guidance_val]; the store is
    extended. *)
Lemma forward_spec h net x v :
  wf_net h net = true -> value_of h x = Some v ->
  vC v = 3 -> 1 <= vH v -> 1 <= vW v -> 3 <= len1 (mean net) ->
  exists sc ng h',
    forward net x h = Ok ((sc, ng), h') /\ h `prefix_of` h'
    /\ value_of h' sc = Some (coords_val h net v)
    /\ value_of h' ng = Some (guidance_val h net v)
    /\ length h <= storage sc /\ storage sc < storage ng
    /\ (size0 sc, size1 sc, size2 sc, size3 sc)
       = (vB v, 3, stem_out (vH v), stem_out (vW v))
    /\ (size0 ng, size1 ng, size2 ng, size3 ng)
       = (vB v, 1, stem_out (vH v), stem_out (vW v))
    /\ well_sized (coords_val h net v) /\ well_sized (guidance_val h net v).
Proof.
  intros Hwf Hx HC HH HW Hlen.
  destruct (forward_steps h net x v Hwf Hx HC HH HW Hlen)
    as (r0 & h0 & r1 & h1 & r2 & h2 & res & h3 & sc & h4 & ng & h5 & _ & _ & _ & _
        & _ & _ & Hrun & P0 & P1 & P2 & P3 & P4 & P5 & _ & _ & _ & _ & Hsc & Hng
        & Hf & Hlt & _ & _ & Dsc & Dng & Wsc & Wng).
  exists sc, ng, h5. split; [done|].
  split; [by repeat (etrans; [eassumption|])|].
  split; [by eapply value_of_prefix|]. done.
Qed.

(** ** What the outputs depend on *)

(** The storages a network reads its parameters from, and with the mean
    buffer all it reads. *)
Definition param_locs net : list loc :=
  flat_map (fun lp => [weight (fst lp); bias (fst lp)]) (layers net).

Definition footprint net : list loc := param_locs net ++ [storage1 (mean net)].

(** Two stores with the same contents at the given locations. *)
Definition agree (ls : list loc) h h' : Prop :=
  forall l, In l ls -> h !! l = h' !! l.

Lemma param_locs_layer net L hp :
  In (L, hp) (layers net) ->
  In (weight L) (param_locs net) /\ In (bias L) (param_locs net).
Proof.
  intros Hin. unfold param_locs. rewrite !in_flat_map.
  split; exists (L, hp); (split; [done|]); simpl; tauto.
Qed.

Lemma footprint_mean net : In (storage1 (mean net)) (footprint net).
Proof. unfold footprint. rewrite in_app_iff. right. by left. Qed.

Lemma agree_params h h' net :
  agree (footprint net) h h' -> agree (param_locs net) h h'.
Proof.
  intros Ha l Hin. apply Ha. unfold footprint. rewrite in_app_iff. by left.
Qed.

Lemma floats_agree h h' l : h !! l = h' !! l -> floats h l = floats h' l.
Proof. unfold floats. by intros ->. Qed.

Lemma is_float_agree h h' l : h !! l = h' !! l -> is_float h l = is_float h' l.
Proof. unfold is_float. by intros ->. Qed.

Lemma conv_val_agree h h' net L hp v :
  agree (param_locs net) h h' -> In (L, hp) (layers net) ->
  conv_val h L v = conv_val h' L v.
Proof.
  intros Ha Hin. destruct (param_locs_layer _ _ _ Hin) as [Hw Hb].
  unfold conv_val. by rewrite (floats_agree h h' _ (Ha _ Hw)), (floats_agree h h' _ (Ha _ Hb)).
Qed.

Lemma forallb_ext_In {A} (f g : A -> bool) (l : list A) :
  (forall a, In a l -> f a = g a) -> forallb f l = forallb g l.
Proof.
  induction l as [|a l IH]; intros Hfg; simpl; [done|].
  rewrite Hfg by (by left). rewrite IH; [done|].
  intros b Hb. apply Hfg. by right.
Qed.

Lemma wf_layers_agree h h' net :
  agree (param_locs net) h h' ->
  forallb (fun lp => wf_conv h (fst lp) (snd lp)) (layers net)
  = forallb (fun lp => wf_conv h' (fst lp) (snd lp)) (layers net).
Proof.
  intros Ha. apply forallb_ext_In. intros [L hp] Hin. cbn [fst snd].
  destruct (param_locs_layer _ _ _ Hin) as [Hw Hb].
  unfold wf_conv. by rewrite (is_float_agree h h' _ (Ha _ Hw)), (is_float_agree h h' _ (Ha _ Hb)).
Qed.

Lemma wf_net_agree h h' net :
  agree (footprint net) h h' -> wf_net h net = wf_net h' net.
Proof.
  intros Ha. unfold wf_net. f_equal.
  - by apply wf_layers_agree, agree_params.
  - apply is_float_agree, Ha, footprint_mean.
Qed.

Ltac agree_layers Ha :=
  repeat match goal with
  | |- context [conv_val ?h ?L ?v] =>
      lazymatch type of Ha with
      | agree _ h ?h' =>
          rewrite (conv_val_agree h h' _ L _ v Ha ltac:(in_layers))
      end
  end.

Lemma trunk_val_agree h h' net v :
  agree (param_locs net) h h' -> trunk_val h net v = trunk_val h' net v.
Proof.
  intros Ha.
  unfold trunk_val, res3_val, res2_val, res1_val, stem_val, subnet_val.
  agree_layers Ha. reflexivity.
Qed.

Lemma head_raw_val_agree h h' net L1 L2 L3 hp1 hp2 hp3 v :
  agree (param_locs net) h h' ->
  In (L1, hp1) (layers net) -> In (L2, hp2) (layers net) ->
  In (L3, hp3) (layers net) ->
  head_raw_val h L1 L2 L3 v = head_raw_val h' L1 L2 L3 v.
Proof.
  intros Ha I1 I2 I3. unfold head_raw_val.
  by rewrite (conv_val_agree h h' net L1 hp1), (conv_val_agree h h' net L2 hp2),
    (conv_val_agree h h' net L3 hp3).
Qed.

Lemma mean_at_agree h h' net i :
  h !! storage1 (mean net) = h' !! storage1 (mean net) ->
  mean_at h net i = mean_at h' net i.
Proof. intros Ha. unfold mean_at. by rewrite (floats_agree h h' _ Ha). Qed.

Lemma guidance_val_agree h h' net v :
  agree (param_locs net) h h' -> guidance_val h net v = guidance_val h' net v.
Proof.
  intros Ha. unfold guidance_val, head_ng_val.
  rewrite (trunk_val_agree h h') by done.
  by rewrite (head_raw_val_agree h h' net _ _ _ (512, 512, 1, 1, 0)
                (512, 512, 1, 1, 0) (512, 1, 1, 1, 0)) by (done || in_layers).
Qed.

Lemma coords_val_agree h h' net v :
  agree (footprint net) h h' -> coords_val h net v = coords_val h' net v.
Proof.
  intros Ha. pose proof (agree_params _ _ _ Ha) as Hp.
  unfold coords_val, head_sc_val.
  rewrite (trunk_val_agree h h') by done.
  rewrite !(mean_at_agree h h') by apply Ha, footprint_mean.
  by rewrite (head_raw_val_agree h h' net _ _ _ (512, 512, 1, 1, 0)
                (512, 512, 1, 1, 0) (512, 3, 1, 1, 0)) by (done || in_layers).
Qed.

Lemma footprint_is_float h net l :
  wf_net h net = true -> In l (footprint net) -> is_float h l = true.
Proof.
  intros Hwf. unfold footprint, param_locs. rewrite in_app_iff, in_flat_map.
  intros [([L hp] & Hin & Hl)|[<-|[]]].
  - pose proof (wf_net_layer _ _ _ _ Hwf Hin) as Hc.
    unfold wf_conv in Hc. rewrite !andb_true_iff in Hc.
    cbn in Hl. destruct Hl as [<-|[<-|[]]]; tauto.
  - by apply wf_net_mean.
Qed.

Lemma agree_prefix h h' net :
  wf_net h net = true -> h `prefix_of` h' -> agree (footprint net) h h'.
Proof.
  intros Hwf Hp l Hin.
  pose proof (is_float_lookup _ _ (footprint_is_float _ _ _ Hwf Hin)) as E.
  by rewrite (prefix_lookup_Some _ _ _ _ E Hp).
Qed.

Lemma agree_insert h net l (c : cell T) :
  ~ In l (footprint net) -> agree (footprint net) h (<[l := c]> h).
Proof.
  intros Hn l' Hin. rewrite list_lookup_insert_ne; [done|].
  intros ->. done.
Qed.

(** ** Failures *)

Lemma conv2d_wrong_channels L x h :
  size1 x <> in_channels L -> conv2d L x h = Err ShapeMismatch.
Proof.
  intros Hne. unfold conv2d. by rewrite (proj2 (Nat.eqb_neq _ _) Hne).
Qed.

Lemma conv2d_too_small L x h :
  size2 x + 2 * padding L < kernel_size L \/ size3 x + 2 * padding L < kernel_size L ->
  conv2d L x h = Err ShapeMismatch.
Proof.
  intros Hlt. unfold conv2d.
  destruct (negb (size1 x =? in_channels L)); [done|].
  destruct Hlt as [Hlt|Hlt]; rewrite (proj2 (Nat.ltb_lt _ _) Hlt);
    [done|by rewrite orb_true_r].
Qed.

(** [forward] starts with the first convolution: when that fails, nothing
    else has been computed. *)
Lemma forward_first_conv net x h e :
  conv2d (conv1 net) x h = Err e -> forward net x h = Err e.
Proof.
  intros E. unfold forward, stem, relu_conv, bind. by rewrite E.
Qed.

Lemma bind_computes_err {A B} (m : Op T A) (k : A -> Op T B) h
    (Q : A -> heap T -> Prop) e :
  computes m h Q -> (forall a h', h `prefix_of` h' -> Q a h' -> k a h' = Err e) ->
  bind m k h = Err e.
Proof.
  intros (a & h' & Hm & Hp & HQ) Hk. unfold bind. rewrite Hm. by apply Hk.
Qed.

Lemma head_sc_short_mean h0 h net x v :
  h0 `prefix_of` h -> wf_net h0 net = true -> value_of h x = Some v ->
  vC v = 512 -> 1 <= vH v -> 1 <= vW v -> len1 (mean net) < 3 ->
  head_sc net x h = Err IndexError.
Proof.
  intros Hp0 Hwf Hx HC HH HW Hlen. rewrite head_sc_unfold.
  pose (Q := fun (t : Tensor4) (h' : heap T) =>
               exists v', value_of h' t = Some v' /\ vC v' = 512
                          /\ 1 <= vH v' /\ 1 <= vW v').
  apply (bind_computes_err _ _ _ Q).
  { eapply (computes_relu_conv h0); [eassumption | layer | eassumption | sizes..|].
    intros t1 h1 v1 Hp1 Hf1 Hv1 Ev1 B1 C1 H1 W1.
    exists v1. repeat split; sizes. }
  intros t1 h1 Hp1 (v1 & Hv1 & C1 & H1 & W1). advance Hp1.
  apply (bind_computes_err _ _ _ Q).
  { eapply (computes_relu_conv h0); [eassumption | layer | eassumption | sizes..|].
    intros t2 h2 v2 Hp2 Hf2 Hv2 Ev2 B2 C2 H2 W2.
    exists v2. repeat split; sizes. }
  intros t2 h2 Hp2 (v2 & Hv2 & C2 & H2 & W2). advance Hp2.
  assert (wf_conv h0 (fc3 net) (512, 3, 1, 1, 0) = true) as Hfc3 by layer.
  unfold bind at 1. erewrite (conv2d_run h0) by (done || sizes).
  eapply (add_mean_short h0); done.
Qed.

Ltac fail_block lem h0 :=
  eapply bind_computes_err;
  [ eapply (lem h0); [eassumption | eassumption | eassumption | try lia ..] | ];
  let t := fresh "t" in let h := fresh "h" in
  let Hp := fresh "Hp" in let Hv := fresh "Hv" in let Hf := fresh "Hf" in
  intros t h Hp (Hv & Hf & ? & ? & ? & ?); advance Hp.

(** A mean buffer with fewer than three elements is only noticed when the
    mean is added. *)
Lemma forward_short_mean h net x v :
  wf_net h net = true -> value_of h x = Some v ->
  vC v = 3 -> 1 <= vH v -> 1 <= vW v -> len1 (mean net) < 3 ->
  forward net x h = Err IndexError.
Proof.
  intros Hwf Hx HC HH HW Hlen.
  assert (h `prefix_of` h) as Hp0 by done.
  pose proof (stem_out_pos (vH v)). pose proof (stem_out_pos (vW v)).
  unfold forward.
  fail_block @stem_spec h.
  fail_block @res1_spec h.
  fail_block @res2_spec h.
  fail_block @res3_spec h.
  unfold bind. erewrite (head_sc_short_mean h); [done|eassumption..|lia|lia|done].
Qed.

End Blocks.

(** * Exact real arithmetic *)

Section RealScalar.
Local Open Scope R_scope.

(** The rectifier. *)
Definition relu_R (x : R) : R := Rmax 0 x.

(** The library's stable log-sigmoid: [min(0, x) - log1p(exp(-|x|))]. *)
Definition logsigmoid_R (x : R) : R := Rmin 0 x - ln (1 + exp (- Rabs x)).

Definition sum_R (l : list R) : R := fold_right Rplus 0 l.

(** The library's stable log-sum-exp: the maximum is subtracted before
    exponentiating.  (Of the empty sequence the library returns minus
    infinity, which the reals lack; the model returns 0 there.) *)
Definition logsumexp_R (l : list R) : R :=
  match l with
  | [] => 0
  | x :: l' =>
      let m := fold_right Rmax x l' in
      m + ln (sum_R (map (fun y => exp (y - m)) l))
  end.

#[global] Instance Scalar_R : Scalar R := {|
  s_zero := 0;
  s_add := Rplus;
  s_sub := Rminus;
  s_mul := Rmult;
  s_relu := relu_R;
  s_logsigmoid := logsigmoid_R;
  s_logsumexp := logsumexp_R
|}.

Lemma logsigmoid_R_eq x : logsigmoid_R x = - ln (1 + exp (- x)).
Proof.
  unfold logsigmoid_R.
  destruct (Rle_lt_dec 0 x) as [Hx|Hx].
  - rewrite Rmin_left by done. rewrite Rabs_right by lra. lra.
  - rewrite Rmin_right by lra. rewrite Rabs_left by done.
    rewrite Ropp_involutive.
    assert (1 + exp (- x) = exp (- x) * (1 + exp x)) as ->.
    { rewrite Rmult_plus_distr_l, Rmult_1_r, <- exp_plus.
      replace (- x + x) with 0 by lra. rewrite exp_0. lra. }
    pose proof (exp_pos x). pose proof (exp_pos (- x)).
    rewrite ln_mult by lra. rewrite ln_exp. lra.
Qed.

Lemma logsigmoid_R_neg x : logsigmoid_R x < 0.
Proof.
  rewrite logsigmoid_R_eq. pose proof (exp_pos (- x)).
  assert (0 < ln (1 + exp (- x))); [|lra].
  rewrite <- ln_1. apply ln_increasing; lra.
Qed.

Lemma sum_R_map_scale (c : R) (f : R -> R) (l : list R) :
  sum_R (map (fun y => c * f y) l) = c * sum_R (map f l).
Proof.
  induction l as [|y l IH]; simpl; [lra|]. rewrite IH. lra.
Qed.

Lemma sum_R_exp_pos (l : list R) : l <> [] -> 0 < sum_R (map exp l).
Proof.
  assert (forall k, 0 <= sum_R (map exp k)) as Hnn.
  { induction k as [|y k IH]; simpl; [lra|]. pose proof (exp_pos y). lra. }
  destruct l as [|y l]; [done|]. intros _. simpl.
  pose proof (exp_pos y). pose proof (Hnn l). lra.
Qed.

Lemma sum_R_exp_ge (l : list R) (e : R) : In e l -> exp e <= sum_R (map exp l).
Proof.
  assert (forall k, 0 <= sum_R (map exp k)) as Hnn.
  { induction k as [|y k IH]; simpl; [lra|]. pose proof (exp_pos y). lra. }
  induction l as [|y l IH]; [done|]. intros [->|Hin]; simpl.
  - pose proof (Hnn l). lra.
  - pose proof (exp_pos y). pose proof (IH Hin). lra.
Qed.

Lemma sum_R_map_ext (f g : R -> R) (l : list R) :
  (forall y, f y = g y) -> sum_R (map f l) = sum_R (map g l).
Proof. intros Hfg. induction l as [|y l IH]; simpl; [done|]. by rewrite Hfg, IH. Qed.

(** The stable log-sum-exp is the logarithm of the sum of exponentials. *)
Lemma logsumexp_R_eq (l : list R) : l <> [] -> logsumexp_R l = ln (sum_R (map exp l)).
Proof.
  intros Hne. pose proof (sum_R_exp_pos l Hne) as Hpos.
  destruct l as [|x l']; [done|]. unfold logsumexp_R.
  set (m := fold_right Rmax x l'). set (l := x :: l') in *.
  rewrite (sum_R_map_ext _ (fun y => exp (- m) * exp y)).
  2:{ intros y. rewrite <- exp_plus. f_equal. lra. }
  rewrite sum_R_map_scale. pose proof (exp_pos (- m)).
  rewrite ln_mult by lra. rewrite ln_exp. lra.
Qed.

Lemma logsumexp_R_ge (l : list R) (e : R) : In e l -> e <= logsumexp_R l.
Proof.
  intros Hin. assert (l <> []) as Hne by (intros ->; done).
  rewrite logsumexp_R_eq by done.
  pose proof (sum_R_exp_ge l e Hin) as Hle. pose proof (exp_pos e).
  rewrite <- (ln_exp e).
  destruct Hle as [Hlt| ->]; [|lra].
  left. apply ln_increasing; lra.
Qed.

End RealScalar.

(** * The network the constructor builds *)

Section Constructed.
Context {T : Type} `{!Scalar T}.

Implicit Types (h : heap T) (net : Network).

(** The layer whose parameters are the [i]-th pair of storages from [base]. *)
Definition layer_at (base i : nat) (hp : nat * nat * nat * nat * nat) : Conv2d :=
  let '(cin, cout, k, s, p) := hp in
  {| in_channels := cin; out_channels := cout; kernel_size := k; stride := s;
     padding := p; weight := base + 2 * i; bias := base + (2 * i + 1);
     params_require_grad := true |}.

Definition net_at (base : nat) (m : Tensor1) : Network :=
  {| conv1 := layer_at base 0 (3, 32, 3, 1, 1);
     conv2 := layer_at base 1 (32, 64, 3, 2, 1);
     conv3 := layer_at base 2 (64, 128, 3, 2, 1);
     conv4 := layer_at base 3 (128, 256, 3, 2, 1);
     res1_conv1 := layer_at base 4 (256, 256, 3, 1, 1);
     res1_conv2 := layer_at base 5 (256, 256, 1, 1, 0);
     res1_conv3 := layer_at base 6 (256, 256, 3, 1, 1);
     res2_conv1 := layer_at base 7 (256, 512, 3, 1, 1);
     res2_conv2 := layer_at base 8 (512, 512, 1, 1, 0);
     res2_conv3 := layer_at base 9 (512, 512, 3, 1, 1);
     res2_skip := layer_at base 10 (256, 512, 1, 1, 0);
     res3_conv1 := layer_at base 11 (512, 512, 3, 1, 1);
     res3_conv2 := layer_at base 12 (512, 512, 1, 1, 0);
     res3_conv3 := layer_at base 13 (512, 512, 3, 1, 1);
     fc1 := layer_at base 14 (512, 512, 1, 1, 0);
     fc2 := layer_at base 15 (512, 512, 1, 1, 0);
     fc3 := layer_at base 16 (512, 3, 1, 1, 0);
     fc1_1 := layer_at base 17 (512, 512, 1, 1, 0);
     fc2_1 := layer_at base 18 (512, 512, 1, 1, 0);
     fc3_1 := layer_at base 19 (512, 1, 1, 1, 0);
     mean := m |}.

(** The two parameter storages of a new layer. *)
Definition new_params (init : string -> nat -> T) (name : string)
    (cin cout k : nat) : heap T :=
  [ FloatStorage (map (init (String.append name ".weight"))
                      (seq 0 (cout * cin * k * k)));
    FloatStorage (map (init (String.append name ".bias")) (seq 0 cout)) ].

Definition all_params (init : string -> nat -> T) : heap T :=
  new_params init "conv1" 3 32 3 ++ new_params init "conv2" 32 64 3
  ++ new_params init "conv3" 64 128 3 ++ new_params init "conv4" 128 256 3
  ++ new_params init "res1_conv1" 256 256 3
  ++ new_params init "res1_conv2" 256 256 1
  ++ new_params init "res1_conv3" 256 256 3
  ++ new_params init "res2_conv1" 256 512 3
  ++ new_params init "res2_conv2" 512 512 1
  ++ new_params init "res2_conv3" 512 512 3
  ++ new_params init "res2_skip" 256 512 1
  ++ new_params init "res3_conv1" 512 512 3
  ++ new_params init "res3_conv2" 512 512 1
  ++ new_params init "res3_conv3" 512 512 3
  ++ new_params init "fc1" 512 512 1 ++ new_params init "fc2" 512 512 1
  ++ new_params init "fc3" 512 3 1
  ++ new_params init "fc1_1" 512 512 1 ++ new_params init "fc2_1" 512 512 1
  ++ new_params init "fc3_1" 512 1 1.

Lemma Conv2d_new_run init name cin cout k s p h i base :
  length h = base + 2 * i ->
  Conv2d_new init name cin cout k s p h
  = Ok (layer_at base i (cin, cout, k, s, p), h ++ new_params init name cin cout k).
Proof.
  intros E. unfold Conv2d_new, bind, alloc, ret, layer_at, new_params.
  rewrite length_app, E. cbn [length].
  replace (base + 2 * i + 1) with (base + (2 * i + 1)) by lia.
  rewrite <- app_assoc. done.
Qed.

Ltac new_layer i :=
  unfold bind at 1;
  match goal with
  | Hm : is_float ?h _ = true |- _ =>
      rewrite (Conv2d_new_run _ _ _ _ _ _ _ _ i (length h)) by
        (rewrite ?length_app; unfold new_params; cbn [length]; lia)
  end.

(** What the constructor returns, exactly. *)
Lemma init_run init (m : Tensor1) h :
  is_float h (storage1 m) = true ->
  __init__ init m h
  = Ok (net_at (length h)
          {| storage1 := length h + 41; len1 := len1 m; stride1 := 1;
             requires_grad1 := requires_grad1 m |},
        h ++ all_params init
          ++ [ LongStorage [len1 m];
               FloatStorage (elements (len1 m) (stride1 m) (floats h (storage1 m))) ]).
Proof.
  intros Hm. unfold __init__.
  new_layer 0. new_layer 1. new_layer 2. new_layer 3. new_layer 4.
  new_layer 5. new_layer 6. new_layer 7. new_layer 8. new_layer 9.
  new_layer 10. new_layer 11. new_layer 12. new_layer 13. new_layer 14.
  new_layer 15. new_layer 16. new_layer 17. new_layer 18. new_layer 19.
  unfold bind, alloc, clone, ret. unfold bind.
  rewrite load_run.
  2:{ eapply is_float_prefix; [exact Hm|].
      rewrite <- !app_assoc. by apply prefix_app_r. }
  rewrite (floats_prefix h).
  2: done.
  2:{ rewrite <- !app_assoc. by apply prefix_app_r. }
  f_equal. f_equal.
  - unfold net_at. f_equal. f_equal.
    rewrite !length_app. unfold new_params. cbn [length]. lia.
  - unfold all_params. rewrite <- !app_assoc. done.
Qed.

Lemma is_float_app_r h (k : heap T) i :
  is_float (h ++ k) (length h + i) = is_float k i.
Proof.
  unfold is_float. rewrite lookup_app_r by lia.
  by replace (length h + i - length h) with i by lia.
Qed.

Lemma floats_app_r h (k : heap T) i :
  floats (h ++ k) (length h + i) = floats k i.
Proof.
  unfold floats. rewrite lookup_app_r by lia.
  by replace (length h + i - length h) with i by lia.
Qed.

Lemma wf_net_at h (k : heap T) (m : Tensor1) :
  forallb (fun lp => wf_conv k (fst lp) (snd lp)) (layers (net_at 0 m)) = true ->
  is_float (h ++ k) (storage1 m) = true ->
  wf_net (h ++ k) (net_at (length h) m) = true.
Proof.
  intros Hl Hm. unfold wf_net. apply andb_true_iff. split; [|done].
  cbn [net_at layers forallb fst snd conv1 conv2 conv3 conv4 res1_conv1
       res1_conv2 res1_conv3 res2_conv1 res2_conv2 res2_conv3 res2_skip
       res3_conv1 res3_conv2 res3_conv3 fc1 fc2 fc3 fc1_1 fc2_1 fc3_1] in *.
  unfold wf_conv, layer_at, hyper in *.
  cbn [in_channels out_channels kernel_size stride padding weight bias] in *.
  rewrite !is_float_app_r. exact Hl.
Qed.

Lemma footprint_net_at base (m : Tensor1) :
  footprint (net_at base m)
  = map (fun i => base + i) (seq 0 40) ++ [storage1 m].
Proof. reflexivity. Qed.

(** The constructor succeeds for every stored mean vector, whatever its
    length.  The network it returns is well formed; its parameters and its
    mean buffer are new storages, the buffer apart from the parameters; the
    buffer holds the elements of the argument. *)
Lemma init_spec init (m : Tensor1) h :
  is_float h (storage1 m) = true ->
  exists net h',
    __init__ init m h = Ok (net, h') /\ h `prefix_of` h'
    /\ wf_net h' net = true
    /\ (forall l, In l (footprint net) -> length h <= l)
    /\ NoDup (footprint net)
    /\ len1 (mean net) = len1 m /\ stride1 (mean net) = 1
    /\ floats h' (storage1 (mean net))
       = elements (len1 m) (stride1 m) (floats h (storage1 m)).
Proof.
  intros Hm. eexists _, _. split; [by apply init_run|].
  split; [by apply prefix_app_r|].
  split; [|split; [|split; [|split; [done|split; [done|]]]]].
  - apply wf_net_at; [reflexivity|].
    cbn [storage1]. rewrite is_float_app_r. reflexivity.
  - intros l. rewrite footprint_net_at. cbn [storage1].
    rewrite in_app_iff, in_map_iff. intros [(i & <- & _)|[<-|[]]]; lia.
  - rewrite footprint_net_at. cbn [storage1].
    replace [length h + 41] with (map (fun i => length h + i) [41]) by done.
    rewrite <- map_app. apply NoDup_fmap_2; [intros i j; lia|].
    apply NoDup_app. split; [apply NoDup_seq|]. split; [|apply NoDup_singleton].
    intros i Hi Hi'. apply elem_of_seq in Hi. apply list_elem_of_singleton in Hi'. lia.
  - cbn [mean net_at storage1]. rewrite floats_app_r. reflexivity.
Qed.

End Constructed.

(** * Further facts used by the claims *)

Section Facts.
Context {T : Type} `{!Scalar T}.

Implicit Types (h : heap T) (x y t : Tensor4) (L : Conv2d) (d : list T)
  (v : Val4 (T := T)) (net : Network).

(** ** Sizes after the stem *)

(** The stem divides the spatial sizes by eight, rounding up. *)
Lemma stem_out_ceil n : 1 <= n -> stem_out n = (n + 7) / 8.
Proof.
  intros Hn. unfold stem_out. rewrite conv_out_same3 by done.
  rewrite (conv_out_half n) by done.
  assert (1 <= (n + 1) / 2) as H1.
  { pose proof (Nat.div_mod_eq (n + 1) 2). pose proof (Nat.mod_upper_bound (n + 1) 2). lia. }
  rewrite (conv_out_half ((n + 1) / 2)) by done.
  assert (1 <= ((n + 1) / 2 + 1) / 2) as H2.
  { pose proof (Nat.div_mod_eq ((n + 1) / 2 + 1) 2).
    pose proof (Nat.mod_upper_bound ((n + 1) / 2 + 1) 2). lia. }
  rewrite (conv_out_half (((n + 1) / 2 + 1) / 2)) by done.
  pose proof (Nat.div_mod_eq (n + 1) 2). pose proof (Nat.mod_upper_bound (n + 1) 2).
  pose proof (Nat.div_mod_eq ((n + 1) / 2 + 1) 2).
  pose proof (Nat.mod_upper_bound ((n + 1) / 2 + 1) 2).
  pose proof (Nat.div_mod_eq (((n + 1) / 2 + 1) / 2 + 1) 2).
  pose proof (Nat.mod_upper_bound (((n + 1) / 2 + 1) / 2 + 1) 2).
  pose proof (Nat.div_mod_eq (n + 7) 8). pose proof (Nat.mod_upper_bound (n + 7) 8).
  lia.
Qed.

Lemma stem_out_div8 n : 1 <= n -> n mod 8 = 0 -> stem_out n = n / 8.
Proof.
  intros Hn Hm. rewrite stem_out_ceil by done.
  pose proof (Nat.div_mod_eq n 8). pose proof (Nat.div_mod_eq (n + 7) 8).
  pose proof (Nat.mod_upper_bound (n + 7) 8). lia.
Qed.

(** An input of the shape the specification asks for: three channels, height
    and width positive multiples of the subsampling factor. *)
Definition valid_input x : bool :=
  (size1 x =? 3)
  && (0 <? size2 x) && (size2 x mod OUTPUT_SUBSAMPLE =? 0)
  && (0 <? size3 x) && (size3 x mod OUTPUT_SUBSAMPLE =? 0).

Lemma valid_input_inv x :
  valid_input x = true ->
  size1 x = 3 /\ 1 <= size2 x /\ size2 x mod 8 = 0
  /\ 1 <= size3 x /\ size3 x mod 8 = 0.
Proof.
  unfold valid_input, OUTPUT_SUBSAMPLE.
  rewrite !andb_true_iff, !Nat.eqb_eq, !Nat.ltb_lt. lia.
Qed.

(** Each element of the coordinate output is the element of the last
    projection plus the mean component of its channel. *)
Lemma nth_add_mean_val (m0 m1 m2 : T) v n :
  vC v = 3 -> n < length (vdata v) ->
  nth n (vdata (add_mean_val m0 m1 m2 v)) s_zero
  = s_add (nth n (vdata v) s_zero)
          (nth ((n / (vH v * vW v)) mod 3) [m0; m1; m2] s_zero).
Proof.
  intros HC Hn. unfold add_mean_val. cbn [vdata]. rewrite HC.
  rewrite !nth_add_to_channel by (by rewrite ?length_add_to_channel).
  pose proof (Nat.mod_upper_bound (n / (vH v * vW v)) 3).
  destruct ((n / (vH v * vW v)) mod 3) as [|[|[|k]]]; simpl; try done. lia.
Qed.

(** ** When [forward] succeeds *)

Lemma wf_net_conv1 h net :
  wf_net h net = true -> in_channels (conv1 net) = 3
  /\ kernel_size (conv1 net) = 3 /\ padding (conv1 net) = 1.
Proof.
  intros Hwf.
  assert (wf_conv h (conv1 net) (3, 32, 3, 1, 1) = true) as Hc by layer.
  apply wf_conv_inv in Hc. tauto.
Qed.

Lemma forward_wrong_channels h net x :
  wf_net h net = true -> size1 x <> 3 ->
  conv2d (conv1 net) x h = Err ShapeMismatch /\ forward net x h = Err ShapeMismatch.
Proof.
  intros Hwf Hne. destruct (wf_net_conv1 _ _ Hwf) as (Ei & _).
  assert (conv2d (conv1 net) x h = Err ShapeMismatch) as E
    by (apply conv2d_wrong_channels; congruence).
  split; [done|]. by apply forward_first_conv.
Qed.

Lemma forward_empty_image h net x :
  wf_net h net = true -> size2 x = 0 \/ size3 x = 0 ->
  conv2d (conv1 net) x h = Err ShapeMismatch /\ forward net x h = Err ShapeMismatch.
Proof.
  intros Hwf Hz. destruct (wf_net_conv1 _ _ Hwf) as (_ & Ek & Ep).
  assert (conv2d (conv1 net) x h = Err ShapeMismatch) as E
    by (apply conv2d_too_small; rewrite Ek, Ep; lia).
  split; [done|]. by apply forward_first_conv.
Qed.

Lemma forward_ok_inv h net x v r :
  wf_net h net = true -> value_of h x = Some v -> forward net x h = Ok r ->
  size1 x = 3 /\ 1 <= size2 x /\ 1 <= size3 x /\ 3 <= len1 (mean net).
Proof.
  intros Hwf Hx Hrun.
  pose proof (value_of_lookup _ _ _ Hx) as (_ & EB & EC & EH & EW).
  destruct (decide (size1 x = 3)) as [E1|N1].
  2:{ destruct (forward_wrong_channels h net x Hwf N1) as [_ E]. congruence. }
  destruct (decide (size2 x = 0 \/ size3 x = 0)) as [Hz|Hnz].
  { destruct (forward_empty_image h net x Hwf Hz) as [_ E]. congruence. }
  destruct (decide (len1 (mean net) < 3)) as [Hs|Hl]; [|lia].
  rewrite (forward_short_mean h net x v) in Hrun by (done || lia). done.
Qed.

End Facts.

(** * The gradient blockade *)

Section Detach.
Context {T : Type} `{!Scalar T}.

Implicit Types (h : heap T) (x y t : Tensor4) (L : Conv2d) (net : Network).

(** Output head 2 as the specification words it: the three 1x1 convolutions
    (rectifier after the first two) and the normalisation in log space,
    applied directly to the output of block 3, without [detach]. *)
Definition head_ng_direct (net : Network) (res : Tensor4) (batch_size : nat)
    (sc : Tensor4) : Op T Tensor4 :=
  let* log_ng := relu_conv (fc1_1 net) res in
  let* log_ng := relu_conv (fc2_1 net) log_ng in
  let* log_ng := conv2d (fc3_1 net) log_ng in
  let* log_ng := logsigmoid log_ng in
  let log_ng := view_flat log_ng in
  let* normalizer := logsumexp log_ng in
  let normalizer := expand normalizer (len1 log_ng) in
  let* log_ng := tsub log_ng normalizer in
  view4 log_ng batch_size 1 (size2 sc) (size3 sc).

(** Two handles of the same storage with the same sizes; the gradient flag
    may differ. *)
Definition same_tensor t t' : Prop :=
  storage t = storage t' /\ size0 t = size0 t' /\ size1 t = size1 t'
  /\ size2 t = size2 t' /\ size3 t = size3 t'.

Definition same_tensor1 (a a' : Tensor1) : Prop :=
  storage1 a = storage1 a' /\ len1 a = len1 a' /\ stride1 a = stride1 a'.

Definition same_tensor0 (z z' : Tensor0) : Prop := storage0 z = storage0 z'.

(** Two results that fail alike, or succeed with the same store and with
    related values. *)
Definition rel_result {A} (RA : A -> A -> Prop) (r r' : result (A * heap T)) : Prop :=
  match r, r' with
  | Ok (a, h), Ok (a', h') => RA a a' /\ h = h'
  | Err e, Err e' => e = e'
  | _, _ => False
  end.

(** ... with handles that differ at most in the gradient flag. *)
Definition same_result : result (Tensor4 * heap T) -> result (Tensor4 * heap T) -> Prop :=
  rel_result same_tensor.

Lemma same_tensor_detach t : same_tensor (detach t) t.
Proof. by unfold same_tensor. Qed.

Lemma same_tensor_value h t t' : same_tensor t t' -> value_of h t = value_of h t'.
Proof.
  intros (Es & E0 & E1 & E2 & E3). unfold value_of.
  by rewrite Es, E0, E1, E2, E3.
Qed.

Lemma bind_rel {A B} (RA : A -> A -> Prop) (RB : B -> B -> Prop)
    (m m' : Op T A) (k k' : A -> Op T B) h :
  rel_result RA (m h) (m' h) ->
  (forall a a' h1, RA a a' -> rel_result RB (k a h1) (k' a' h1)) ->
  rel_result RB (bind m k h) (bind m' k' h).
Proof.
  intros Hm Hk. unfold bind.
  destruct (m h) as [[t h1]|e], (m' h) as [[t' h1']|e']; simpl in Hm; try done.
  destruct Hm as [Ht <-]. by apply Hk.
Qed.

Lemma conv2d_same L t t' h :
  same_tensor t t' -> same_result (conv2d L t h) (conv2d L t' h).
Proof.
  intros (Es & E0 & E1 & E2 & E3). unfold conv2d. rewrite Es, E0, E1, E2, E3.
  destruct (negb (size1 t' =? in_channels L)); [done|].
  destruct ((size2 t' + 2 * padding L <? kernel_size L)
            || (size3 t' + 2 * padding L <? kernel_size L)); [done|].
  unfold bind, load, alloc, ret.
  destruct (h !! weight L) as [[w|?]|]; try done.
  destruct (h !! bias L) as [[b|?]|]; try done.
  destruct (h !! storage t') as [[d|?]|]; try done.
Qed.

Lemma relu_same t t' h : same_tensor t t' -> same_result (relu t h) (relu t' h).
Proof.
  intros (Es & E0 & E1 & E2 & E3). unfold relu, bind, load, alloc, ret. rewrite Es.
  destruct (h !! storage t') as [[d|?]|]; try done.
Qed.

Lemma logsigmoid_same t t' h :
  same_tensor t t' -> same_result (logsigmoid t h) (logsigmoid t' h).
Proof.
  intros (Es & E0 & E1 & E2 & E3). unfold logsigmoid, bind, load, alloc, ret. rewrite Es.
  destruct (h !! storage t') as [[d|?]|]; try done.
Qed.

Lemma relu_conv_same L t t' h :
  same_tensor t t' -> same_result (relu_conv L t h) (relu_conv L t' h).
Proof.
  intros Ht. unfold relu_conv. apply (bind_rel same_tensor); [by apply conv2d_same|].
  intros. by apply relu_same.
Qed.

Lemma view_flat_same t t' : same_tensor t t' -> same_tensor1 (view_flat t) (view_flat t').
Proof.
  intros (Es & E0 & E1 & E2 & E3). unfold same_tensor1, view_flat, numel. simpl.
  by rewrite Es, E0, E1, E2, E3.
Qed.

Lemma logsumexp_same (a a' : Tensor1) h :
  same_tensor1 a a' -> rel_result same_tensor0 (logsumexp a h) (logsumexp a' h).
Proof.
  intros (Es & El & Et). unfold logsumexp, bind, load, alloc, ret. rewrite Es, El, Et.
  destruct (h !! storage1 a') as [[d|?]|]; try done.
Qed.

Lemma expand_same (z z' : Tensor0) n n' :
  same_tensor0 z z' -> n = n' -> same_tensor1 (expand z n) (expand z' n').
Proof. intros Ez ->. unfold same_tensor1, expand. simpl. by rewrite Ez. Qed.

Lemma tsub_same (a a' b b' : Tensor1) h :
  same_tensor1 a a' -> same_tensor1 b b' ->
  rel_result same_tensor1 (tsub a b h) (tsub a' b' h).
Proof.
  intros (Es & El & Et) (Es' & El' & Et'). unfold tsub, bind, load, alloc, ret.
  rewrite Es, El, Et, Es', El', Et'.
  destruct (len1 a' =? len1 b'); [|done].
  destruct (h !! storage1 a') as [[d|?]|]; try done.
  destruct (h !! storage1 b') as [[d'|?]|]; try done.
Qed.

Lemma view4_same (a a' : Tensor1) b c hh ww h :
  same_tensor1 a a' -> same_result (view4 a b c hh ww h) (view4 a' b c hh ww h).
Proof.
  intros (Es & El & Et). unfold view4, ret. rewrite Es, El, Et.
  by destruct ((b * c * hh * ww =? len1 a') && (stride1 a' =? 1)).
Qed.

Lemma normalize_tail_same t t' bs sc h :
  same_tensor t t' ->
  same_result (normalize_tail t bs sc h) (normalize_tail t' bs sc h).
Proof.
  intros Ht. unfold normalize_tail.
  apply (bind_rel same_tensor); [by apply logsigmoid_same|].
  intros l l' h1 Hl. pose proof (view_flat_same _ _ Hl) as Hv.
  apply (bind_rel same_tensor0); [by apply logsumexp_same|].
  intros z z' h2 Hz.
  apply (bind_rel same_tensor1).
  - apply tsub_same; [done|]. apply expand_same; [done|]. by destruct Hv as (_ & ? & _).
  - intros a a' h3 Ha. by apply view4_same.
Qed.

Lemma head_ng_direct_unfold net res bs sc :
  head_ng_direct net res bs sc
  = (let* log_ng := relu_conv (fc1_1 net) res in
     let* log_ng := relu_conv (fc2_1 net) log_ng in
     let* log_ng := conv2d (fc3_1 net) log_ng in
     normalize_tail log_ng bs sc).
Proof. reflexivity. Qed.

(** With or without [detach], head 2 computes the same. *)
Lemma head_ng_same net res bs sc h :
  same_result (head_ng net res bs sc h) (head_ng_direct net res bs sc h).
Proof.
  rewrite head_ng_unfold, head_ng_direct_unfold.
  apply (bind_rel same_tensor); [apply relu_conv_same, same_tensor_detach|].
  intros t1 t1' h1 H1. apply (bind_rel same_tensor); [by apply relu_conv_same|].
  intros t2 t2' h2 H2. apply (bind_rel same_tensor); [by apply conv2d_same|].
  intros t3 t3' h3 H3. by apply normalize_tail_same.
Qed.

End Detach.

(** * The claims, for every scalar type *)

Section Claims.
Context {T : Type} `{!Scalar T}.

Implicit Types (h : heap T) (x y t : Tensor4) (L : Conv2d) (d : list T)
  (v : Val4 (T := T)) (net : Network).

(** C5.  For every valid input of shape (batch, 3, H, W), H and W positive
    multiples of 8, [forward] returns a pair of tensors of shapes
    (batch, 3, H/8, W/8) and (batch, 1, H/8, W/8), each with as many elements
    as its shape says.  The factor 8 comes from the stem: its four
    convolutions have strides 1, 2, 2, 2, and the output size is what these
    four convolutions (kernel 3, padding 1) leave of H and W. *)
Theorem forward_output_shapes h net x v :
  wf_net h net = true -> value_of h x = Some v -> valid_input x = true ->
  3 <= len1 (mean net) ->
  exists sc ng h' vsc vng,
    forward net x h = Ok ((sc, ng), h')
    /\ (size0 sc, size1 sc, size2 sc, size3 sc)
       = (size0 x, 3, size2 x / OUTPUT_SUBSAMPLE, size3 x / OUTPUT_SUBSAMPLE)
    /\ (size0 ng, size1 ng, size2 ng, size3 ng)
       = (size0 x, 1, size2 x / OUTPUT_SUBSAMPLE, size3 x / OUTPUT_SUBSAMPLE)
    /\ value_of h' sc = Some vsc
    /\ length (vdata vsc)
       = size0 x * 3 * (size2 x / OUTPUT_SUBSAMPLE) * (size3 x / OUTPUT_SUBSAMPLE)
    /\ value_of h' ng = Some vng
    /\ length (vdata vng)
       = size0 x * 1 * (size2 x / OUTPUT_SUBSAMPLE) * (size3 x / OUTPUT_SUBSAMPLE)
    /\ (stride (conv1 net), stride (conv2 net), stride (conv3 net), stride (conv4 net))
       = (1, 2, 2, 2)
    /\ size2 x / OUTPUT_SUBSAMPLE
       = conv_out (conv_out (conv_out (conv_out (size2 x) 3 1 1) 3 2 1) 3 2 1) 3 2 1
    /\ size3 x / OUTPUT_SUBSAMPLE
       = conv_out (conv_out (conv_out (conv_out (size3 x) 3 1 1) 3 2 1) 3 2 1) 3 2 1.
Proof.
  intros Hwf Hx Hval Hlen.
  destruct (valid_input_inv _ Hval) as (E1 & HH & MH & HW & MW).
  pose proof (value_of_lookup _ _ _ Hx) as (_ & EB & EC & EH & EW).
  destruct (forward_spec h net x v Hwf Hx ltac:(lia) ltac:(lia) ltac:(lia) Hlen)
    as (sc & ng & h' & Hrun & Hp & Hsc & Hng & _ & _ & Dsc & Dng & Wsc & Wng).
  pose proof (value_of_lookup _ _ _ Hsc) as (_ & S0 & S1 & S2 & S3).
  pose proof (value_of_lookup _ _ _ Hng) as (_ & G0 & G1 & G2 & G3).
  injection Dsc as D0 D1 D2 D3. injection Dng as F0 F1 F2 F3.
  rewrite EH in D2, F2. rewrite EW in D3, F3.
  rewrite stem_out_div8 in D2, D3, F2, F3 by done.
  assert (wf_conv h (conv1 net) (3, 32, 3, 1, 1) = true) as K1 by layer.
  assert (wf_conv h (conv2 net) (32, 64, 3, 2, 1) = true) as K2 by layer.
  assert (wf_conv h (conv3 net) (64, 128, 3, 2, 1) = true) as K3 by layer.
  assert (wf_conv h (conv4 net) (128, 256, 3, 2, 1) = true) as K4 by layer.
  apply wf_conv_inv in K1 as (_ & _ & _ & -> & _).
  apply wf_conv_inv in K2 as (_ & _ & _ & -> & _).
  apply wf_conv_inv in K3 as (_ & _ & _ & -> & _).
  apply wf_conv_inv in K4 as (_ & _ & _ & -> & _).
  exists sc, ng, h', (coords_val h net v), (guidance_val h net v).
  unfold OUTPUT_SUBSAMPLE.
  split; [done|]. split; [by rewrite D0, D1, D2, D3, EB|].
  split; [by rewrite F0, F1, F2, F3, EB|].
  split; [done|]. split; [by rewrite Wsc, S0, S1, S2, S3, D0, D1, D2, D3, EB|].
  split; [done|]. split; [by rewrite Wng, G0, G1, G2, G3, F0, F1, F2, F3, EB|].
  split; [done|].
  split; symmetry; by apply stem_out_div8.
Qed.

(** C9.  With fixed parameters and a fixed valid input, [forward] run from
    any two stores that hold the same parameters, mean and input values (a
    second call after the first in particular) returns the same pair of
    values.  A call changes nothing that was stored before it (parameters,
    mean, input): it only adds storages, and its two outputs are new,
    distinct tensors. *)
Theorem forward_deterministic_pure h net x v :
  wf_net h net = true -> value_of h x = Some v -> valid_input x = true ->
  3 <= len1 (mean net) ->
  exists sc ng h1 vsc vng,
    forward net x h = Ok ((sc, ng), h1)
    /\ value_of h1 sc = Some vsc /\ value_of h1 ng = Some vng
    /\ (forall l c, h !! l = Some c -> h1 !! l = Some c)
    /\ length h <= storage sc /\ length h <= storage ng /\ storage sc <> storage ng
    /\ (forall hb xb,
          agree (footprint net) h hb -> value_of hb xb = Some v ->
          exists scb ngb hb',
            forward net xb hb = Ok ((scb, ngb), hb')
            /\ value_of hb' scb = Some vsc /\ value_of hb' ngb = Some vng)
    /\ (exists sc2 ng2 h2,
          forward net x h1 = Ok ((sc2, ng2), h2)
          /\ value_of h2 sc2 = Some vsc /\ value_of h2 ng2 = Some vng
          /\ value_of h2 sc = Some vsc /\ value_of h2 ng = Some vng).
Proof.
  intros Hwf Hx Hval Hlen.
  destruct (valid_input_inv _ Hval) as (E1 & HH & MH & HW & MW).
  pose proof (value_of_lookup _ _ _ Hx) as (_ & EB & EC & EH & EW).
  destruct (forward_spec h net x v Hwf Hx ltac:(lia) ltac:(lia) ltac:(lia) Hlen)
    as (sc & ng & h1 & Hrun & Hp & Hsc & Hng & Hf & Hlt & _).
  assert (forall hb xb,
            agree (footprint net) h hb -> value_of hb xb = Some v ->
            exists scb ngb hb',
              forward net xb hb = Ok ((scb, ngb), hb') /\ hb `prefix_of` hb'
              /\ value_of hb' scb = Some (coords_val h net v)
              /\ value_of hb' ngb = Some (guidance_val h net v)) as Hdet.
  { intros hb xb Ha Hxb.
    assert (wf_net hb net = true) as Hwfb by (by rewrite <- (wf_net_agree h hb)).
    destruct (forward_spec hb net xb v Hwfb Hxb ltac:(lia) ltac:(lia) ltac:(lia) Hlen)
      as (scb & ngb & hb' & Hrunb & Hpb & Hscb & Hngb & _).
    exists scb, ngb, hb'.
    rewrite (coords_val_agree h hb) by done.
    rewrite (guidance_val_agree h hb) by (by apply agree_params). done. }
  exists sc, ng, h1, (coords_val h net v), (guidance_val h net v).
  split; [done|]. split; [done|]. split; [done|].
  split; [intros l c Hl; by eapply prefix_lookup_Some|].
  split; [done|]. split; [lia|]. split; [lia|].
  split.
  - intros hb xb Ha Hxb.
    destruct (Hdet hb xb Ha Hxb) as (scb & ngb & hb' & ? & ? & ? & ?).
    by exists scb, ngb, hb'.
  - destruct (Hdet h1 x (agree_prefix _ _ _ Hwf Hp) (value_of_prefix _ _ _ _ Hp Hx))
      as (sc2 & ng2 & h2 & Hrun2 & Hp2 & Hsc2 & Hng2).
    exists sc2, ng2, h2. eauto 10 using value_of_prefix.
Qed.

(** C2, as the code has it.  An input whose channel count is not 3, or whose
    height or width is 0, is refused with a shape mismatch by the first
    convolution, before anything is computed.  Every input with 3 channels
    and positive height and width is accepted, whether or not its sizes are
    multiples of 8: the output sizes are then H/8 and W/8 rounded up.  The
    only other failure is the index error raised by the addition of the mean
    when the stored mean has fewer than 3 components. *)
Theorem forward_failure_modes h net x v :
  wf_net h net = true -> value_of h x = Some v ->
  (size1 x <> 3 \/ size2 x = 0 \/ size3 x = 0 ->
     conv2d (conv1 net) x h = Err ShapeMismatch
     /\ forward net x h = Err ShapeMismatch)
  /\ (size1 x = 3 -> 1 <= size2 x -> 1 <= size3 x -> len1 (mean net) < 3 ->
        forward net x h = Err IndexError)
  /\ (size1 x = 3 -> 1 <= size2 x -> 1 <= size3 x -> 3 <= len1 (mean net) ->
        exists sc ng h',
          forward net x h = Ok ((sc, ng), h')
          /\ (size0 sc, size1 sc, size2 sc, size3 sc)
             = (size0 x, 3, (size2 x + 7) / 8, (size3 x + 7) / 8)
          /\ (size0 ng, size1 ng, size2 ng, size3 ng)
             = (size0 x, 1, (size2 x + 7) / 8, (size3 x + 7) / 8)).
Proof.
  intros Hwf Hx.
  pose proof (value_of_lookup _ _ _ Hx) as (_ & EB & EC & EH & EW).
  split; [|split].
  - intros [Hc|Hz]; [by apply forward_wrong_channels|by apply forward_empty_image].
  - intros E1 HH HW Hlen. apply (forward_short_mean h net x v); (done || lia).
  - intros E1 HH HW Hlen.
    destruct (forward_spec h net x v Hwf Hx ltac:(lia) ltac:(lia) ltac:(lia) Hlen)
      as (sc & ng & h' & Hrun & _ & _ & _ & _ & _ & Dsc & Dng & _).
    exists sc, ng, h'. rewrite Dsc, Dng, EB, EH, EW.
    by rewrite !stem_out_ceil by lia.
Qed.

(** C3, as the code has it.  The constructor validates nothing: for every
    stored mean vector, whatever its number of components, it succeeds and
    returns a well-formed network whose mean buffer is a contiguous copy of
    the vector with the same number of components. *)
Theorem init_accepts_any_mean init (m : Tensor1) h :
  is_float h (storage1 m) = true ->
  exists net h',
    __init__ init m h = Ok (net, h')
    /\ wf_net h' net = true
    /\ len1 (mean net) = len1 m
    /\ floats h' (storage1 (mean net))
       = elements (len1 m) (stride1 m) (floats h (storage1 m)).
Proof.
  intros Hm.
  destruct (init_spec init m h Hm)
    as (net & h' & Hrun & _ & Hwf & _ & _ & Hlen & _ & Hdata).
  by exists net, h'.
Qed.

(** C4, as the code has it.  Residual block 2 applies the rectifier after
    each of its three convolutions (kernels 3, 1, 3; channels 256, 512, 512,
    512), the third included; its input, projected to 512 channels by a 1x1
    convolution, is added to the rectified output of the third convolution,
    and nothing follows the addition. *)
Theorem res2_block_structure h net x v :
  wf_net h net = true -> value_of h x = Some v ->
  vC v = 256 -> 1 <= vH v -> 1 <= vW v ->
  exists out h',
    res2 net x h = Ok (out, h')
    /\ value_of h' out
       = Some (add_val
                 (conv_val h (res2_skip net) v)
                 (relu_val (conv_val h (res2_conv3 net)
                   (relu_val (conv_val h (res2_conv2 net)
                     (relu_val (conv_val h (res2_conv1 net) v)))))))
    /\ map hyper [res2_conv1 net; res2_conv2 net; res2_conv3 net; res2_skip net]
       = [(256, 512, 3, 1, 1); (512, 512, 1, 1, 0); (512, 512, 3, 1, 1);
          (256, 512, 1, 1, 0)]
    /\ (size0 out, size1 out, size2 out, size3 out)
       = (size0 x, 512, size2 x, size3 x).
Proof.
  intros Hwf Hx HC HH HW.
  pose proof (value_of_lookup _ _ _ Hx) as (_ & EB & EC & EH & EW).
  destruct (computes_run _ _ _ (res2_spec h h net x v ltac:(done) Hwf Hx HC HH HW))
    as (out & h' & Hrun & _ & Hv & _ & B & C & H & W).
  pose proof (value_of_lookup _ _ _ Hv) as (_ & S0 & S1 & S2 & S3).
  assert (wf_conv h (res2_conv1 net) (256, 512, 3, 1, 1) = true) as K1 by layer.
  assert (wf_conv h (res2_conv2 net) (512, 512, 1, 1, 0) = true) as K2 by layer.
  assert (wf_conv h (res2_conv3 net) (512, 512, 3, 1, 1) = true) as K3 by layer.
  assert (wf_conv h (res2_skip net) (256, 512, 1, 1, 0) = true) as K4 by layer.
  unfold wf_conv in K1, K2, K3, K4.
  rewrite !andb_true_iff, bool_decide_eq_true in K1, K2, K3, K4.
  exists out, h'. split; [done|]. split; [done|].
  split; [cbn [map]; by rewrite (proj1 (proj1 K1)), (proj1 (proj1 K2)),
                       (proj1 (proj1 K3)), (proj1 (proj1 K4))|].
  by rewrite <- S0, <- S1, <- S2, <- S3, B, C, H, W, EB, EH, EW.
Qed.

(** The three-convolution sub-network of a residual block, each convolution
    followed by the rectifier. *)
Definition subnet (L1 L2 L3 : Conv2d) (x : Tensor4) : Op T Tensor4 :=
  let* x := relu_conv L1 x in
  let* x := relu_conv L2 x in
  relu_conv L3 x.

Lemma subnet_spec h L1 L2 L3 c x v :
  wf_conv h L1 (c, c, 3, 1, 1) = true -> wf_conv h L2 (c, c, 1, 1, 0) = true ->
  wf_conv h L3 (c, c, 3, 1, 1) = true ->
  value_of h x = Some v -> vC v = c -> 1 <= vH v -> 1 <= vW v ->
  exists sub hs,
    subnet L1 L2 L3 x h = Ok (sub, hs)
    /\ value_of hs sub = Some (subnet_val h L1 L2 L3 v)
    /\ (vB (subnet_val h L1 L2 L3 v), vC (subnet_val h L1 L2 L3 v),
        vH (subnet_val h L1 L2 L3 v), vW (subnet_val h L1 L2 L3 v))
       = (vB v, c, vH v, vW v)
    /\ well_sized (subnet_val h L1 L2 L3 v).
Proof.
  intros K1 K2 K3 Hx HC HH HW.
  assert (h `prefix_of` h) as Hp0 by done.
  enough (computes (subnet L1 L2 L3 x) h
            (yields h (subnet_val h L1 L2 L3 v) (vB v) c (vH v) (vW v)))
    as (sub & hs & Hrun & _ & Hv & _ & B & C & H & W).
  { exists sub, hs. split; [done|]. split; [done|].
    split; [by rewrite B, C, H, W|].
    apply well_sized_map, well_sized_conv. }
  unfold subnet.
  apply computes_bind.
  eapply (computes_relu_conv h); [eassumption | exact K1 | eassumption | sizes..|].
  intros t1 h1 v1 Hp1 Hf1 Hv1 Ev1 B1 C1 H1 W1. advance Hp1.
  apply computes_bind.
  eapply (computes_relu_conv h); [eassumption | exact K2 | eassumption | sizes..|].
  intros t2 h2 v2 Hp2 Hf2 Hv2 Ev2 B2 C2 H2 W2. advance Hp2.
  eapply (computes_relu_conv h); [eassumption | exact K3 | eassumption | sizes..|].
  intros t3 h3 v3 Hp3 Hf3 Hv3 Ev3 B3 C3 H3 W3.
  unfold yields.
  assert (subnet_val h L1 L2 L3 v = v3) as -> by (subst; reflexivity).
  split; [done|]. split; [lia|]. repeat split; sizes.
Qed.

Lemma nth_zip_add (a b : list T) n :
  n < length a -> n < length b ->
  nth n (zip_add a b) s_zero = s_add (nth n a s_zero) (nth n b s_zero).
Proof.
  unfold zip_add. revert b n.
  induction a as [|e a IH]; intros [|e' b] [|n]; simpl; intros; try lia; try done.
  apply IH; lia.
Qed.

Lemma length_zip_add (a b : list T) :
  length a = length b -> length (zip_add a b) = length a.
Proof.
  intros E. unfold zip_add. rewrite length_map, length_combine. lia.
Qed.

(** The value of an identity-shortcut block: input plus sub-network output,
    element by element. *)
Definition identity_block_value (v s out : Val4 (T := T)) : Prop :=
  out = add_val v s
  /\ (vB s, vC s, vH s, vW s) = (vB v, vC v, vH v, vW v)
  /\ (vB out, vC out, vH out, vW out) = (vB v, vC v, vH v, vW v)
  /\ length (vdata out) = length (vdata v)
  /\ forall n, n < length (vdata v) ->
       nth n (vdata out) s_zero
       = s_add (nth n (vdata v) s_zero) (nth n (vdata s) s_zero).

Lemma identity_block_value_intro v s :
  well_sized v -> well_sized s ->
  (vB s, vC s, vH s, vW s) = (vB v, vC v, vH v, vW v) ->
  identity_block_value v s (add_val v s).
Proof.
  intros Wv Ws Hs. unfold identity_block_value.
  assert (length (vdata v) = length (vdata s)) as El.
  { unfold well_sized in *. injection Hs as E0 E1 E2 E3.
    rewrite Wv, Ws, E0, E1, E2, E3. done. }
  split; [done|]. split; [done|]. split; [done|].
  cbn [add_val vdata]. split; [by apply length_zip_add|].
  intros n Hn. apply nth_zip_add; lia.
Qed.

(** C7.  Blocks 1 and 3 return their input plus the output of their
    three-convolution sub-network run on that input: the addition is
    elementwise, the skip path carries the input itself, and nothing follows
    the addition.  This holds for every input of the block's channel count
    (256 for block 1, 512 for block 3), the ones [forward] passes included. *)
Theorem identity_residual_blocks h net x v :
  wf_net h net = true -> value_of h x = Some v ->
  1 <= vH v -> 1 <= vW v -> well_sized v ->
  (vC v = 256 ->
     exists out h' sub hs s vout,
       res1 net x h = Ok (out, h')
       /\ subnet (res1_conv1 net) (res1_conv2 net) (res1_conv3 net) x h = Ok (sub, hs)
       /\ value_of hs sub = Some s /\ value_of h' out = Some vout
       /\ identity_block_value v s vout)
  /\ (vC v = 512 ->
        exists out h' sub hs s vout,
          res3 net x h = Ok (out, h')
          /\ subnet (res3_conv1 net) (res3_conv2 net) (res3_conv3 net) x h = Ok (sub, hs)
          /\ value_of hs sub = Some s /\ value_of h' out = Some vout
          /\ identity_block_value v s vout).
Proof.
  intros Hwf Hx HH HW Wv. split; intros HC.
  - destruct (computes_run _ _ _ (res1_spec h h net x v ltac:(done) Hwf Hx HC HH HW))
      as (out & h' & Hrun & _ & Hv & _).
    destruct (subnet_spec h (res1_conv1 net) (res1_conv2 net) (res1_conv3 net) 256 x v
                ltac:(layer) ltac:(layer) ltac:(layer) Hx HC HH HW)
      as (sub & hs & Hsub & Hs & Ds & Ws).
    eexists out, h', sub, hs, _, _. split; [done|]. split; [done|].
    split; [done|]. split; [exact Hv|].
    apply identity_block_value_intro; [done..|]. by rewrite Ds, HC.
  - destruct (computes_run _ _ _ (res3_spec h h net x v ltac:(done) Hwf Hx HC HH HW))
      as (out & h' & Hrun & _ & Hv & _).
    destruct (subnet_spec h (res3_conv1 net) (res3_conv2 net) (res3_conv3 net) 512 x v
                ltac:(layer) ltac:(layer) ltac:(layer) Hx HC HH HW)
      as (sub & hs & Hsub & Hs & Ds & Ws).
    eexists out, h', sub, hs, _, _. split; [done|]. split; [done|].
    split; [done|]. split; [exact Hv|].
    apply identity_block_value_intro; [done..|]. by rewrite Ds, HC.
Qed.

(** C8.  [detach] does not change the forward value.  For every valid input
    the guidance tensor [forward] returns is the one head 2 computes without
    the [detach], from the output of block 3 itself: both runs end in the
    same store with handles of the same storage and sizes, and the value is
    the three 1x1 convolutions (rectifier after the first two), the
    log-sigmoid and the normalisation applied to the trunk value.  The
    detached handle shares the storage and only has its gradient flag
    cleared. *)
Theorem detach_keeps_forward_value h net x v :
  wf_net h net = true -> value_of h x = Some v -> valid_input x = true ->
  3 <= len1 (mean net) ->
  exists res h4 sc ng ng' h5,
    forward net x h = Ok ((sc, ng), h5)
    /\ value_of h4 res = Some (trunk_val h net v)
    /\ head_ng net res (size0 x) sc h4 = Ok (ng, h5)
    /\ head_ng_direct net res (size0 x) sc h4 = Ok (ng', h5)
    /\ same_tensor ng ng'
    /\ value_of h5 ng = Some (guidance_val h net v)
    /\ value_of h5 ng' = Some (guidance_val h net v)
    /\ guidance_val h net v
       = {| vdata := normalize (map s_logsigmoid
                       (vdata (conv_val h (fc3_1 net)
                          (relu_val (conv_val h (fc2_1 net)
                             (relu_val (conv_val h (fc1_1 net)
                                (trunk_val h net v))))))));
            vB := vB (trunk_val h net v); vC := 1;
            vH := vH (trunk_val h net v); vW := vW (trunk_val h net v) |}
    /\ requires_grad (detach res) = false
    /\ storage (detach res) = storage res
    /\ value_of h4 (detach res) = value_of h4 res.
Proof.
  intros Hwf Hx Hval Hlen.
  destruct (valid_input_inv _ Hval) as (E1 & HH & MH & HW & MW).
  pose proof (value_of_lookup _ _ _ Hx) as (_ & EB & EC & EH & EW).
  destruct (forward_steps h net x v Hwf Hx ltac:(lia) ltac:(lia) ltac:(lia) Hlen)
    as (r0 & h0 & r1 & h1 & r2 & h2 & res & h3 & sc & h4 & ng & h5 & _ & _ & _ & _
        & _ & Hng & Hrun & P0 & P1 & P2 & P3 & P4 & P5 & _ & _ & _ & Hres & Hsc & Hv
        & _).
  pose proof (head_ng_same net res (size0 x) sc h4) as Hsame.
  unfold same_result, rel_result in Hsame. rewrite Hng in Hsame.
  destruct (head_ng_direct net res (size0 x) sc h4) as [[ng' h5']|e] eqn:Hd; [|done].
  destruct Hsame as [Hst <-].
  exists res, h4, sc, ng, ng', h5.
  split; [done|]. split; [by eapply value_of_prefix|].
  split; [done|]. split; [done|]. split; [done|]. split; [done|].
  split; [by rewrite <- (same_tensor_value h5 ng ng')|]. done.
Qed.

(** [out] is [raw] with the components of [mv] added to its three channels,
    the same component over the whole batch and all positions of a
    channel. *)
Definition mean_added (raw : Val4 (T := T)) (mv : list T) (out : Val4 (T := T)) : Prop :=
  (vB out, vC out, vH out, vW out) = (vB raw, 3, vH raw, vW raw)
  /\ length (vdata out) = length (vdata raw)
  /\ forall n, n < length (vdata raw) ->
       nth n (vdata out) s_zero
       = s_add (nth n (vdata raw) s_zero)
               (nth ((n / (vH raw * vW raw)) mod 3) mv s_zero).

Lemma mean_added_intro h net raw mv :
  vC raw = 3 -> (forall i, i < 3 -> mean_at h net i = nth i mv s_zero) ->
  mean_added raw mv
    (add_mean_val (mean_at h net 0) (mean_at h net 1) (mean_at h net 2) raw).
Proof.
  intros HC Hm. unfold mean_added.
  split; [cbn [add_mean_val vB vC vH vW]; by rewrite HC|].
  split; [cbn [add_mean_val vdata]; by rewrite !length_add_to_channel|].
  intros n Hn. rewrite nth_add_mean_val by done. f_equal.
  pose proof (Nat.mod_upper_bound (n / (vH raw * vW raw)) 3 ltac:(lia)) as Hlt.
  destruct ((n / (vH raw * vW raw)) mod 3) as [|[|[|k]]]; cbn [nth];
    [apply Hm; lia..|lia].
Qed.

Lemma value_of_insert_ne h t l (c : cell T) :
  storage t <> l -> value_of (<[l := c]> h) t = value_of h t.
Proof. intros Hne. unfold value_of. by rewrite list_lookup_insert_ne. Qed.

Lemma agree_insert_params h net l (c : cell T) :
  ~ In l (param_locs net) -> agree (param_locs net) h (<[l := c]> h).
Proof.
  intros Hn l' Hin. rewrite list_lookup_insert_ne; [done|]. by intros ->.
Qed.

Lemma wf_net_new_mean h net d' :
  wf_net h net = true -> ~ In (storage1 (mean net)) (param_locs net) ->
  wf_net (<[storage1 (mean net) := FloatStorage d']> h) net = true.
Proof.
  intros Hwf Hn. pose proof (is_float_lt _ _ (wf_net_mean _ _ Hwf)) as Hlt.
  unfold wf_net in *. apply andb_true_iff in Hwf as [Hl _].
  apply andb_true_iff. split.
  - by rewrite <- (wf_layers_agree h) by (by apply agree_insert_params).
  - unfold is_float. by rewrite list_lookup_insert_eq.
Qed.

Lemma mean_at_new_mean h net d' i :
  storage1 (mean net) < length h -> stride1 (mean net) = 1 ->
  mean_at (<[storage1 (mean net) := FloatStorage d']> h) net i = nth i d' s_zero.
Proof.
  intros Hlt Hs. unfold mean_at, floats.
  rewrite list_lookup_insert_eq by done. rewrite Hs. f_equal. lia.
Qed.

(** C6.  The network the constructor returns keeps the mean in a new storage
    that holds a copy of the caller's vector.  In [forward] the three
    components of the stored mean are added to the three channels of the
    output of head 1's last projection, the same component over the batch
    and over all positions of a channel.  Mutating the caller's vector after
    construction leaves both outputs as they were; replacing the stored mean
    leaves the guidance output as it was and changes the coordinate output
    only in the components added to that same projection output: the mean
    enters nowhere else. *)
Theorem mean_added_once_from_copy init (m : Tensor1) h :
  is_float h (storage1 m) = true -> 3 <= len1 m ->
  exists net h1,
    __init__ init m h = Ok (net, h1)
    /\ storage1 (mean net) <> storage1 m
    /\ floats h1 (storage1 (mean net))
       = elements (len1 m) (stride1 m) (floats h (storage1 m))
    /\ forall hs x v,
         h1 `prefix_of` hs -> value_of hs x = Some v -> valid_input x = true ->
         storage x <> storage1 m -> storage x <> storage1 (mean net) ->
         exists sc ng h2 vsc vng,
           forward net x hs = Ok ((sc, ng), h2)
           /\ value_of h2 sc = Some vsc /\ value_of h2 ng = Some vng
           /\ mean_added
                (head_raw_val hs (fc1 net) (fc2 net) (fc3 net) (trunk_val hs net v))
                (elements (len1 m) (stride1 m) (floats h (storage1 m))) vsc
           /\ (forall d',
                 exists sc' ng' h2',
                   forward net x (<[storage1 m := FloatStorage d']> hs)
                   = Ok ((sc', ng'), h2')
                   /\ value_of h2' sc' = Some vsc /\ value_of h2' ng' = Some vng)
           /\ (forall d',
                 exists sc' ng' h2' vsc',
                   forward net x (<[storage1 (mean net) := FloatStorage d']> hs)
                   = Ok ((sc', ng'), h2')
                   /\ value_of h2' sc' = Some vsc' /\ value_of h2' ng' = Some vng
                   /\ mean_added
                        (head_raw_val hs (fc1 net) (fc2 net) (fc3 net)
                           (trunk_val hs net v))
                        d' vsc').
Proof.
  intros Hm Hlen3.
  destruct (init_spec init m h Hm)
    as (net & h1 & Hrun & Hp & Hwf1 & Hfresh & Hnd & Hlen & Hstride & Hdata).
  pose proof (is_float_lt _ _ Hm) as Hmlt.
  pose proof (Hfresh _ (footprint_mean net)) as Hmf.
  assert (~ In (storage1 m) (footprint net)) as Hout
    by (intros Hin; apply Hfresh in Hin; lia).
  assert (~ In (storage1 (mean net)) (param_locs net)) as Hsep.
  { unfold footprint in Hnd. apply NoDup_app in Hnd as (_ & Hd & _).
    intros Hin. apply list_elem_of_In in Hin. apply (Hd _ Hin). by left. }
  exists net, h1. split; [done|]. split; [lia|]. split; [done|].
  intros hs x v Hps Hx Hval Hne1 Hne2.
  destruct (valid_input_inv _ Hval) as (E1 & HH & MH & HW & MW).
  pose proof (value_of_lookup _ _ _ Hx) as (_ & EB & EC & EH & EW).
  pose proof (wf_net_prefix _ _ _ Hwf1 Hps) as Hwf.
  assert (wf_conv hs (fc3 net) (512, 3, 1, 1, 0) = true) as K3 by layer.
  apply wf_conv_inv in K3 as (_ & O3 & _).
  pose proof (is_float_lt _ _ (wf_net_mean _ _ Hwf)) as Hmlts.
  assert (forall i, i < 3 ->
            mean_at hs net i
            = nth i (elements (len1 m) (stride1 m) (floats h (storage1 m))) s_zero)
    as Hmean.
  { intros i Hi. unfold mean_at.
    rewrite (floats_prefix h1 hs) by (done || by apply wf_net_mean).
    rewrite Hdata, Hstride. f_equal. lia. }
  destruct (forward_spec hs net x v Hwf Hx ltac:(lia) ltac:(lia) ltac:(lia) ltac:(lia))
    as (sc & ng & h2 & Hfw & _ & Hsc & Hng & _).
  exists sc, ng, h2, (coords_val hs net v), (guidance_val hs net v).
  split; [done|]. split; [done|]. split; [done|].
  split; [by apply mean_added_intro|]. split.
  - intros d'.
    pose proof (agree_insert hs net (storage1 m) (FloatStorage d') Hout) as Ha.
    assert (wf_net (<[storage1 m := FloatStorage d']> hs) net = true) as Hwf'
      by (by rewrite <- (wf_net_agree hs)).
    destruct (forward_spec _ net x v Hwf'
                (eq_trans (value_of_insert_ne hs x _ _ Hne1) Hx)
                ltac:(lia) ltac:(lia) ltac:(lia) ltac:(lia))
      as (sc' & ng' & h2' & Hfw' & _ & Hsc' & Hng' & _).
    exists sc', ng', h2'. split; [done|].
    rewrite (coords_val_agree hs (<[storage1 m := FloatStorage d']> hs)) by done.
    by rewrite (guidance_val_agree hs (<[storage1 m := FloatStorage d']> hs))
      by (by apply agree_params).
  - intros d'.
    pose proof (agree_insert_params hs net _ (FloatStorage d') Hsep) as Ha.
    pose proof (wf_net_new_mean hs net d' Hwf Hsep) as Hwf'.
    destruct (forward_spec _ net x v Hwf'
                (eq_trans (value_of_insert_ne hs x _ _ Hne2) Hx)
                ltac:(lia) ltac:(lia) ltac:(lia) ltac:(lia))
      as (sc' & ng' & h2' & Hfw' & _ & Hsc' & Hng' & _).
    eexists sc', ng', h2', _. split; [done|]. split; [exact Hsc'|].
    split; [by rewrite (guidance_val_agree hs _ net v Ha)|].
    unfold coords_val, head_sc_val.
    rewrite <- (trunk_val_agree hs _ net v Ha).
    rewrite <- (head_raw_val_agree hs _ net (fc1 net) (fc2 net) (fc3 net)
                  (512, 512, 1, 1, 0) (512, 512, 1, 1, 0) (512, 3, 1, 1, 0)
                  (trunk_val hs net v) Ha) by in_layers.
    apply mean_added_intro; [done|].
    intros i Hi. by apply mean_at_new_mean.
Qed.

End Claims.

(** * The normalisation of the guidance *)

Lemma quad_eq_inv (a b c d a' b' c' d' : nat) :
  (a, b, c, d) = (a', b', c', d') -> a = a' /\ b = b' /\ c = c' /\ d = d'.
Proof. intros E. inversion E. repeat split; assumption. Qed.

Section Guidance.
Context {T : Type} `{!Scalar T}.

Implicit Types (h : heap T) (x : Tensor4) (v : Val4 (T := T)) (net : Network).

(** [k] consecutive chunks of [n] elements. *)
Fixpoint chunks (k n : nat) (l : list T) : list (list T) :=
  match k with
  | O => []
  | Datatypes.S k' => firstn n l :: chunks k' n (skipn n l)
  end.

(** Normalisation of each image of the batch on its own, as the data model
    of the specification words it. *)
Definition normalize_per_image (B n : nat) (l : list T) : list T :=
  flat_map normalize (chunks B n l).

Lemma normalize_per_image_one (l : list T) :
  normalize_per_image 1 (length l) l = normalize l.
Proof.
  unfold normalize_per_image. cbn [chunks flat_map].
  by rewrite firstn_all, app_nil_r.
Qed.

(** What [fc3_1] returns for the whole batch (line 100), in row-major
    order. *)
Definition guidance_logits h net v : list T :=
  vdata (head_raw_val h (fc1_1 net) (fc2_1 net) (fc3_1 net) (trunk_val h net v)).

(** The log-sigmoid outputs of head 2, the whole batch in one sequence. *)
Definition log_sigmoids h net v : list T :=
  map s_logsigmoid (guidance_logits h net v).

Lemma head_ng_val_data h net (tv : Val4 (T := T)) :
  vdata (head_ng_val h net tv)
  = normalize (map s_logsigmoid
                 (vdata (head_raw_val h (fc1_1 net) (fc2_1 net) (fc3_1 net) tv))).
Proof. reflexivity. Qed.

Lemma normalize_unfold (l : list T) :
  normalize l = map (fun e => s_sub e (s_logsumexp l)) l.
Proof. reflexivity. Qed.

Lemma guidance_val_data h net v :
  vdata (guidance_val h net v)
  = map (fun e => s_sub e (s_logsumexp (log_sigmoids h net v))) (log_sigmoids h net v).
Proof.
  unfold guidance_val, log_sigmoids, guidance_logits. rewrite head_ng_val_data.
  apply normalize_unfold.
Qed.

(** An arithmetic is exact under a reading [val] of its elements as real
    numbers when subtraction and log-sum-exp are the real ones. *)
Definition exact_arithmetic (val : T -> R) : Prop :=
  (forall a b, val (s_sub a b) = (val a - val b)%R)
  /\ (forall l, l <> [] ->
        val (s_logsumexp l) = ln (sum_R (map (fun e => exp (val e)) l))).

Lemma normalize_sum_exact (val : T -> R) (l : list T) :
  exact_arithmetic val -> l <> [] ->
  sum_R (map (fun e => exp (val e)) (normalize l)) = 1%R.
Proof.
  intros [Hsub Hlse] Hne. unfold normalize. rewrite map_map.
  assert (map (fun e => val e) l <> []) as Hne' by (by destruct l).
  pose proof (sum_R_exp_pos _ Hne') as Hpos. rewrite map_map in Hpos.
  rewrite (map_ext _ (fun e => (exp (- val (s_logsumexp l)) * exp (val e))%R)).
  2:{ intros e. rewrite Hsub, <- exp_plus. f_equal. lra. }
  rewrite <- (map_map (fun e => exp (val e)) (fun y => (exp (- val (s_logsumexp l)) * y)%R)).
  rewrite (sum_R_map_scale _ (fun y => y)), map_id.
  rewrite (Hlse l Hne), exp_Ropp, exp_ln by exact Hpos.
  field. lra.
Qed.

(** C1, as the code has it.  For every valid input batch, in whatever
    arithmetic, the guidance output is the sequence of all log-sigmoid
    outputs of the batch, each minus one and the same log-sum-exp of the whole
    sequence, viewed as (batch, 1, H/8, W/8); for a batch of one image this is
    the normalisation of that image on its own, and for an empty batch the
    output is empty.  The exponentials of the entries sum to 1 where the
    arithmetic is exact and the batch is not empty; the forward pass itself
    guarantees neither. *)
Theorem joint_normalization h net x v :
  wf_net h net = true -> value_of h x = Some v -> valid_input x = true ->
  3 <= len1 (mean net) ->
  exists sc ng h' d,
    forward net x h = Ok ((sc, ng), h')
    /\ h' !! storage ng = Some (FloatStorage d)
    /\ length (log_sigmoids h net v)
       = size0 x * (size2 x / OUTPUT_SUBSAMPLE) * (size3 x / OUTPUT_SUBSAMPLE)
    /\ d = map (fun e => s_sub e (s_logsumexp (log_sigmoids h net v)))
               (log_sigmoids h net v)
    /\ (size0 ng, size1 ng, size2 ng, size3 ng)
       = (size0 x, 1, size2 x / OUTPUT_SUBSAMPLE, size3 x / OUTPUT_SUBSAMPLE)
    /\ (size0 x = 1 ->
          d = normalize_per_image 1
                ((size2 x / OUTPUT_SUBSAMPLE) * (size3 x / OUTPUT_SUBSAMPLE))
                (log_sigmoids h net v))
    /\ (size0 x = 0 -> d = [])
    /\ (forall val : T -> R,
          exact_arithmetic val -> 1 <= size0 x ->
          sum_R (map (fun e => exp (val e)) d) = 1%R).
Proof.
  intros Hwf Hx Hval Hlen.
  destruct (valid_input_inv _ Hval) as (E1 & HH & MH & HW & MW).
  pose proof (value_of_lookup _ _ _ Hx) as (_ & EB & EC & EH & EW).
  destruct (forward_spec h net x v Hwf Hx ltac:(lia) ltac:(lia) ltac:(lia) Hlen)
    as (sc & ng & h' & Hrun & _ & _ & Hng & _ & _ & _ & Dng & _ & Wng).
  pose proof (value_of_lookup _ _ _ Hng) as (Hl & G0 & G1 & G2 & G3).
  destruct (quad_eq_inv _ _ _ _ _ _ _ _ Dng) as (F0 & F1 & F2 & F3).
  rewrite EH in F2. rewrite EW in F3. rewrite stem_out_div8 in F2, F3 by done.
  unfold OUTPUT_SUBSAMPLE.
  assert (length (log_sigmoids h net v) = size0 x * (size2 x / 8) * (size3 x / 8))
    as Hlen_raw.
  { unfold well_sized in Wng. rewrite guidance_val_data, length_map in Wng.
    rewrite Wng, G0, G1, G2, G3, F0, F1, F2, F3, EB. lia. }
  assert (1 <= size2 x / 8 /\ 1 <= size3 x / 8) as [H8 W8].
  { pose proof (Nat.div_mod_eq (size2 x) 8). pose proof (Nat.div_mod_eq (size3 x) 8).
    lia. }
  exists sc, ng, h', (vdata (guidance_val h net v)).
  split; [exact Hrun|]. split; [exact Hl|]. split; [exact Hlen_raw|].
  split; [apply guidance_val_data|].
  split; [by rewrite F0, F1, F2, F3, EB|].
  rewrite guidance_val_data, <- normalize_unfold.
  generalize dependent (log_sigmoids h net v). intros ls Hlen_raw.
  split; [|split].
  - intros B1.
    replace (size2 x / 8 * (size3 x / 8)) with (length ls)
      by (rewrite Hlen_raw, B1; lia).
    rewrite normalize_per_image_one. reflexivity.
  - intros B0. rewrite B0 in Hlen_raw. cbn [Nat.mul] in Hlen_raw.
    destruct ls; [reflexivity|discriminate].
  - intros val Hex HB.
    assert (ls <> []) as Hne.
    { intros E. rewrite E in Hlen_raw. cbn [length] in Hlen_raw. nia. }
    apply (normalize_sum_exact val _ Hex Hne).
Qed.

End Guidance.

(** * Single precision: range, infinities and NaN *)

(** An element of a single-precision tensor: a finite number, an infinity or
    NaN.  Finite results are not rounded to the nearest representable number
    (and there is no signed zero); a finite result beyond the largest
    single-precision number overflows to the infinity of its sign, and the
    infinities and NaN combine as IEEE 754 has it. *)
Inductive xfloat : Type :=
| XFin (r : R)
| XPInf
| XNInf
| XNaN.

(** The largest finite single-precision number, (2 - 2^-23) * 2^127. *)
Definition float_max : R := 340282346638528859811704183484516925440%R.

Definition x_round (r : R) : xfloat :=
  if Rlt_dec float_max r then XPInf
  else if Rlt_dec r (- float_max) then XNInf
  else XFin r.

Definition x_neg (a : xfloat) : xfloat :=
  match a with
  | XFin r => XFin (- r)
  | XPInf => XNInf
  | XNInf => XPInf
  | XNaN => XNaN
  end.

Definition x_add (a b : xfloat) : xfloat :=
  match a, b with
  | XNaN, _ | _, XNaN => XNaN
  | XFin r, XFin s => x_round (r + s)
  | XPInf, XNInf | XNInf, XPInf => XNaN
  | XPInf, _ | _, XPInf => XPInf
  | XNInf, _ | _, XNInf => XNInf
  end.

Definition x_sub (a b : xfloat) : xfloat := x_add a (x_neg b).

(** An infinity of the given sign times a finite number. *)
Definition x_scale_inf (positive : bool) (r : R) : xfloat :=
  if Req_dec_T r 0 then XNaN
  else if Rlt_dec 0 r then (if positive then XPInf else XNInf)
  else (if positive then XNInf else XPInf).

Definition x_mul (a b : xfloat) : xfloat :=
  match a, b with
  | XNaN, _ | _, XNaN => XNaN
  | XFin r, XFin s => x_round (r * s)
  | XFin r, XPInf | XPInf, XFin r => x_scale_inf true r
  | XFin r, XNInf | XNInf, XFin r => x_scale_inf false r
  | XPInf, XPInf | XNInf, XNInf => XPInf
  | XPInf, XNInf | XNInf, XPInf => XNInf
  end.

(** The rectifier keeps NaN. *)
Definition x_relu (a : xfloat) : xfloat :=
  match a with
  | XFin r => XFin (Rmax 0 r)
  | XPInf => XPInf
  | XNInf => XFin 0
  | XNaN => XNaN
  end.

Definition x_logsigmoid (a : xfloat) : xfloat :=
  match a with
  | XFin r => x_round (logsigmoid_R r)
  | XPInf => XFin 0
  | XNInf => XNInf
  | XNaN => XNaN
  end.

(** The exponential. *)
Definition x_exp (a : xfloat) : xfloat :=
  match a with
  | XFin r => x_round (exp r)
  | XPInf => XPInf
  | XNInf => XFin 0
  | XNaN => XNaN
  end.

Definition is_nan (a : xfloat) : bool :=
  match a with XNaN => true | _ => false end.

Definition is_pinf (a : xfloat) : bool :=
  match a with XPInf => true | _ => false end.

(** The finite elements of a sequence. *)
Definition finites (l : list xfloat) : list R :=
  flat_map (fun a => match a with XFin r => [r] | _ => [] end) l.

(** The log-sum-exp of a sequence: NaN if an element is, plus infinity if
    one is, otherwise that of the finite elements, and minus infinity when
    there is none (the empty sequence included). *)
Definition x_logsumexp (l : list xfloat) : xfloat :=
  if existsb is_nan l then XNaN
  else if existsb is_pinf l then XPInf
  else match finites l with
       | [] => XNInf
       | fs => x_round (logsumexp_R fs)
       end.

#[global] Instance Scalar_X : Scalar xfloat := {|
  s_zero := XFin 0;
  s_add := x_add;
  s_sub := x_sub;
  s_mul := x_mul;
  s_relu := x_relu;
  s_logsigmoid := x_logsigmoid;
  s_logsumexp := x_logsumexp
|}.

(** At most zero: a finite number at most zero, or minus infinity. *)
Definition x_nonpos (a : xfloat) : Prop :=
  match a with
  | XFin r => (r <= 0)%R
  | XNInf => True
  | _ => False
  end.

Section XFloat.

Lemma float_max_pos : (0 < float_max)%R.
Proof. unfold float_max. lra. Qed.

Lemma x_round_cases (r : R) :
  (x_round r = XPInf /\ (float_max < r)%R)
  \/ (x_round r = XNInf /\ (r < - float_max)%R)
  \/ (x_round r = XFin r /\ (- float_max <= r <= float_max)%R).
Proof.
  unfold x_round.
  destruct (Rlt_dec float_max r) as [H1|H1]; [by left|].
  destruct (Rlt_dec r (- float_max)) as [H2|H2]; [right; by left|].
  right; right. split; [done|]. lra.
Qed.

Lemma x_add_nan_l b : x_add XNaN b = XNaN.
Proof. by destruct b. Qed.

Lemma x_add_nan_r a : x_add a XNaN = XNaN.
Proof. by destruct a. Qed.

Lemma x_mul_nan_r a : x_mul a XNaN = XNaN.
Proof. by destruct a. Qed.

Lemma x_sub_nan_l b : x_sub XNaN b = XNaN.
Proof. by destruct b. Qed.

Lemma x_sub_nan_r a : x_sub a XNaN = XNaN.
Proof. by destruct a. Qed.

(** A log-sigmoid output is NaN, minus infinity, or finite, in range and at
    most zero. *)
Definition log_prob (a : xfloat) : Prop :=
  match a with
  | XFin r => (- float_max <= r <= 0)%R
  | XNInf => True
  | XNaN => True
  | XPInf => False
  end.

Lemma x_logsigmoid_log_prob a : log_prob (x_logsigmoid a).
Proof.
  pose proof float_max_pos.
  destruct a as [r| | |]; cbn [x_logsigmoid log_prob]; [|lra|done|done].
  pose proof (logsigmoid_R_neg r).
  destruct (x_round_cases (logsigmoid_R r)) as [[-> ?]|[[-> ?]|[-> ?]]];
    cbn [log_prob]; lra.
Qed.

Lemma existsb_is_nan_false (l : list xfloat) :
  existsb is_nan l = false -> ~ In XNaN l.
Proof.
  intros E Hin. apply not_true_iff_false in E. apply E.
  apply existsb_exists. by exists XNaN.
Qed.

Lemma existsb_is_nan_true (l : list xfloat) :
  existsb is_nan l = true -> In XNaN l.
Proof.
  intros E. apply existsb_exists in E as (a & Hin & Ha). by destruct a.
Qed.

Lemma in_finites (l : list xfloat) (r : R) : In (XFin r) l -> In r (finites l).
Proof.
  intros Hin. unfold finites. apply in_flat_map. exists (XFin r).
  split; [done|]. by left.
Qed.

Lemma finites_in (l : list xfloat) (r : R) : In r (finites l) -> In (XFin r) l.
Proof.
  unfold finites. intros Hin. apply in_flat_map in Hin as (a & Ha & Hr).
  destruct a; cbn in Hr; try done. destruct Hr as [->|[]]. done.
Qed.

(** One entry of a normalised sequence of log-sigmoid outputs. *)
Lemma x_normalised_entry (l : list xfloat) (e : xfloat) :
  Forall log_prob l -> In e l ->
  (x_sub e (x_logsumexp l) = XNaN \/ x_nonpos (x_sub e (x_logsumexp l)))
  /\ (~ In XNaN l -> (exists r, In (XFin r) l) ->
      x_nonpos (x_sub e (x_logsumexp l))).
Proof.
  intros Hl Hin. pose proof float_max_pos as Hmax.
  pose proof (proj1 (List.Forall_forall _ _) Hl e Hin) as He.
  unfold x_logsumexp.
  destruct (existsb is_nan l) eqn:En.
  { split; [left; apply x_sub_nan_r|].
    intros Hn. destruct Hn. by apply existsb_is_nan_true. }
  pose proof (existsb_is_nan_false l En) as Hnn.
  assert (e <> XNaN) as HeN by (intros ->; done).
  destruct (existsb is_pinf l) eqn:Ep.
  { apply existsb_exists in Ep as (a & Ha & Hp). destruct a; try done.
    pose proof (proj1 (List.Forall_forall _ _) Hl _ Ha) as Hf. done. }
  destruct (finites l) as [|f fs] eqn:Ef.
  { assert (forall r, ~ In (XFin r) l) as Hnf.
    { intros r Hr. apply in_finites in Hr. by rewrite Ef in Hr. }
    destruct e as [r| | |]; try done.
    - by destruct (Hnf r).
    - split; [by left|]. intros _ [r Hr]. by destruct (Hnf r). }
  rewrite <- Ef.
  assert (finites l <> []) as Hne by (by rewrite Ef).
  assert (exists r0, In r0 (finites l) /\ (- float_max <= r0)%R) as (r0 & Hr0 & Hlo).
  { exists f. split; [rewrite Ef; by left|].
    assert (In (XFin f) l) as Hf by (apply finites_in; rewrite Ef; by left).
    pose proof (proj1 (List.Forall_forall _ _) Hl _ Hf) as Hb. cbn in Hb. lra. }
  pose proof (logsumexp_R_ge _ _ Hr0) as Hge0.
  enough (x_nonpos (x_sub e (x_round (logsumexp_R (finites l))))) by (split; auto).
  destruct (x_round_cases (logsumexp_R (finites l))) as [[-> ?]|[[-> ?]|[-> ?]]];
    [ | lra | ].
  - destruct e; done.
  - destruct e as [r| | |]; try done.
    cbn [x_sub x_neg x_add].
    pose proof (logsumexp_R_ge _ _ (in_finites _ _ Hin)) as Hge.
    cbn [log_prob] in He.
    destruct (x_round_cases (r + - logsumexp_R (finites l)))
      as [[-> ?]|[[-> ?]|[-> ?]]]; cbn [x_nonpos]; [lra|done|lra].
Qed.

End XFloat.

(** ** The sign of the guidance entries *)

Section GuidanceSign.

Implicit Types (h : heap xfloat) (x : Tensor4) (v : Val4 (T := xfloat)) (net : Network).

(** C10, as the code has it.  In single precision, whenever [forward]
    succeeds every entry of the guidance output is at most zero or NaN: a
    log-sigmoid output is at most zero, minus infinity or NaN, and the
    normaliser subtracted from it is at least every finite one.  No entry is
    NaN when no log-sigmoid output is NaN and at least one is finite; the
    forward pass does not exclude the other case. *)
Theorem guidance_entries_nonpositive_or_nan h net x v sc ng h' :
  wf_net h net = true -> value_of h x = Some v ->
  forward net x h = Ok ((sc, ng), h') ->
  exists d,
    h' !! storage ng = Some (FloatStorage d)
    /\ d = map (fun e => s_sub e (s_logsumexp (log_sigmoids h net v)))
               (log_sigmoids h net v)
    /\ Forall (fun e => e = XNaN \/ x_nonpos e) d
    /\ (~ In XNaN (log_sigmoids h net v) ->
        (exists r, In (XFin r) (log_sigmoids h net v)) ->
        Forall x_nonpos d).
Proof.
  intros Hwf Hx Hok.
  destruct (forward_ok_inv h net x v _ Hwf Hx Hok) as (E1 & HH & HW & Hlen).
  pose proof (value_of_lookup _ _ _ Hx) as (_ & EB & EC & EH & EW).
  destruct (forward_spec h net x v Hwf Hx ltac:(lia) ltac:(lia) ltac:(lia) Hlen)
    as (sc' & ng' & h'' & Hrun & _ & _ & Hng & _).
  rewrite Hok in Hrun. injection Hrun as <- <- <-.
  pose proof (value_of_lookup _ _ _ Hng) as (Hl & _).
  assert (Forall log_prob (log_sigmoids h net v)) as Hlp.
  { unfold log_sigmoids. apply List.Forall_forall. intros e He.
    apply in_map_iff in He as (a & <- & _). apply x_logsigmoid_log_prob. }
  exists (vdata (guidance_val h net v)).
  split; [exact Hl|]. split; [apply (guidance_val_data h net v)|].
  rewrite (guidance_val_data h net v).
  generalize dependent (log_sigmoids h net v). intros ls Hlp.
  cbn [s_sub s_logsumexp Scalar_X].
  split.
  - apply List.Forall_forall. intros e He. apply in_map_iff in He as (a & <- & Ha).
    apply (x_normalised_entry _ _ Hlp Ha).
  - intros Hnn Hfin. apply List.Forall_forall. intros e He.
    apply in_map_iff in He as (a & <- & Ha).
    by apply (x_normalised_entry _ _ Hlp Ha).
Qed.

End GuidanceSign.

(** * Block 2 with and without its last rectifier, in exact real arithmetic *)

Section RealClaims.

Implicit Types (h : heap R) (x : Tensor4) (v : Val4 (T := R)) (net : Network).

(** ** Block 2 as the specification words it *)

(** The value block 2 would have without the rectifier after its third
    convolution. *)
Definition res2_val_as_specified h net v : Val4 :=
  add_val (conv_val h (res2_skip net) v)
          (conv_val h (res2_conv3 net)
             (relu_val (conv_val h (res2_conv2 net)
                (relu_val (conv_val h (res2_conv1 net) v))))).

Lemma hd_error_flat_map {B} (f : nat -> list B) (n : nat) (a : B) :
  0 < n -> hd_error (f 0) = Some a -> hd_error (flat_map f (seq 0 n)) = Some a.
Proof.
  intros Hn Ha. destruct n as [|n]; [lia|]. cbn [seq flat_map].
  destruct (f 0) as [|b l]; [done|]. done.
Qed.

Lemma hd_error_conv2d_data L (w bs d : list R) B H W :
  0 < B -> 0 < out_channels L ->
  hd_error (conv2d_data L w bs d B H W) = Some (conv2d_at L w bs d H W 0 0 0 0).
Proof.
  intros HB Ho. unfold conv2d_data.
  apply hd_error_flat_map; [done|]. apply hd_error_flat_map; [done|].
  apply hd_error_flat_map; [apply conv_out_pos|].
  pose proof (conv_out_pos W (kernel_size L) (stride L) (padding L)) as HW.
  destruct (conv_out W (kernel_size L) (stride L) (padding L)); [lia|]. done.
Qed.

Lemma sum_list_zero (l : list R) : (forall e, In e l -> e = 0%R) -> sum_list l = 0%R.
Proof.
  induction l as [|e l IH]; intros Hz; [done|]. cbn [sum_list fold_right].
  change (fold_right s_add s_zero l) with (sum_list l).
  rewrite IH by (intros; apply Hz; by right). rewrite (Hz e) by (by left).
  cbn. lra.
Qed.

(** With an all-zero weight a convolution returns its bias. *)
Lemma conv2d_at_zero_weight L (w bs d : list R) H W b o i j :
  (forall n, nth n w 0%R = 0%R) ->
  conv2d_at L w bs d H W b o i j = (nth o bs 0 + 0)%R.
Proof.
  intros Hw. unfold conv2d_at. cbn [s_add s_zero Scalar_R]. f_equal.
  apply sum_list_zero. intros e Hin.
  apply in_flat_map in Hin as (c & _ & Hin).
  apply in_flat_map in Hin as (di & _ & Hin).
  apply in_map_iff in Hin as (dj & <- & _).
  unfold get4 at 1. cbn [s_mul s_zero Scalar_R]. rewrite Hw. lra.
Qed.

Lemma hd_error_conv_val h L v :
  (forall n, nth n (floats h (weight L)) 0%R = 0%R) ->
  0 < vB v -> 0 < out_channels L ->
  hd_error (vdata (conv_val h L v)) = Some (nth 0 (floats h (bias L)) 0 + 0)%R.
Proof.
  intros Hw HB Ho. cbn [conv_val vdata].
  rewrite hd_error_conv2d_data by done. by rewrite conv2d_at_zero_weight.
Qed.

Lemma hd_error_add_val (a b : Val4 (T := R)) (p q : R) :
  hd_error (vdata a) = Some p -> hd_error (vdata b) = Some q ->
  hd_error (vdata (add_val a b)) = Some (p + q)%R.
Proof.
  cbn [add_val vdata]. unfold zip_add.
  destruct (vdata a) as [|p' la], (vdata b) as [|q' lb]; try done.
  by intros [= ->] [= ->].
Qed.

Lemma hd_error_relu_val (a : Val4 (T := R)) (p : R) :
  hd_error (vdata a) = Some p -> hd_error (vdata (relu_val a)) = Some (Rmax 0 p).
Proof.
  unfold relu_val, map_val. cbn [vdata].
  destruct (vdata a) as [|p' la]; [done|]. by intros [= ->].
Qed.

(** Where the third convolution of block 2 returns a negative element, the
    rectifier after it shows in the output of the block. *)
Lemma res2_heads h net v (bskip b3 : R) :
  (forall n, nth n (floats h (weight (res2_skip net))) 0%R = 0%R) ->
  (forall n, nth n (floats h (weight (res2_conv3 net))) 0%R = 0%R) ->
  nth 0 (floats h (bias (res2_skip net))) 0%R = bskip ->
  nth 0 (floats h (bias (res2_conv3 net))) 0%R = b3 ->
  0 < vB v -> 0 < out_channels (res2_skip net) -> 0 < out_channels (res2_conv3 net) ->
  hd_error (vdata (res2_val h net v)) = Some ((bskip + 0) + Rmax 0 (b3 + 0))%R
  /\ hd_error (vdata (res2_val_as_specified h net v)) = Some ((bskip + 0) + (b3 + 0))%R.
Proof.
  intros Ws W3 <- <- HB Hs H3. split.
  - unfold res2_val, subnet_val. apply hd_error_add_val; [by apply hd_error_conv_val|].
    apply hd_error_relu_val. by apply hd_error_conv_val.
  - unfold res2_val_as_specified.
    apply hd_error_add_val; by apply hd_error_conv_val.
Qed.

Lemma nth_map_zero (f : nat -> R) (l : list nat) n :
  (forall i, f i = 0%R) -> nth n (map f l) 0%R = 0%R.
Proof.
  intros Hf. revert n. induction l as [|a l IH]; intros [|n]; simpl; auto.
Qed.

End RealClaims.

(** * The elements of a convolution *)

Section ConvElements.
Context {T : Type} `{!Scalar T}.

Implicit Types (L : Conv2d) (w bs d : list T).

(** The products summed into output element (b, o, i, j). *)
Definition conv_terms L w d (H W b o i j : nat) : list T :=
  flat_map (fun c =>
    flat_map (fun di =>
      map (fun dj =>
             s_mul (get4 w (in_channels L) (kernel_size L) (kernel_size L) o c di dj)
                   (get4_padded d (in_channels L) H W (padding L) b c
                      (i * stride L + di) (j * stride L + dj)))
          (seq 0 (kernel_size L)))
      (seq 0 (kernel_size L)))
    (seq 0 (in_channels L)).

Lemma conv2d_at_terms L w bs d H W b o i j :
  conv2d_at L w bs d H W b o i j
  = s_add (nth o bs s_zero) (sum_list (conv_terms L w d H W b o i j)).
Proof. reflexivity. Qed.

Lemma in_conv2d_data L w bs d B H W (e : T) :
  In e (conv2d_data L w bs d B H W) ->
  exists b o i j,
    b < B /\ o < out_channels L
    /\ i < conv_out H (kernel_size L) (stride L) (padding L)
    /\ j < conv_out W (kernel_size L) (stride L) (padding L)
    /\ e = conv2d_at L w bs d H W b o i j.
Proof.
  unfold conv2d_data. intros Hin.
  apply in_flat_map in Hin as (b & Hb & Hin).
  apply in_flat_map in Hin as (o & Ho & Hin).
  apply in_flat_map in Hin as (i & Hi & Hin).
  apply in_map_iff in Hin as (j & <- & Hj).
  apply in_seq in Hb, Ho, Hi, Hj.
  exists b, o, i, j. repeat split; lia.
Qed.

Lemma flat_index_lt (A N a n : nat) : a < A -> n < N -> a * N + n < A * N.
Proof. intros Ha Hn. nia. Qed.

Lemma get4_in d (B C H W b c i j : nat) :
  length d = B * C * H * W -> b < B -> c < C -> i < H -> j < W ->
  In (get4 d C H W b c i j) d.
Proof.
  intros Hlen Hb Hc Hi Hj. unfold get4. apply nth_In. rewrite Hlen.
  apply flat_index_lt; [|done]. apply flat_index_lt; [|done].
  by apply flat_index_lt.
Qed.

(** Every product has a weight of the output channel as its first factor
    and an element of the input, or the zero of the padding, as its
    second. *)
Lemma in_conv_terms L w d (B H W b o i j : nat) (t : T) :
  length d = B * in_channels L * H * W -> b < B ->
  In t (conv_terms L w d H W b o i j) ->
  exists c di dj xv,
    c < in_channels L /\ di < kernel_size L /\ dj < kernel_size L
    /\ t = s_mul (get4 w (in_channels L) (kernel_size L) (kernel_size L) o c di dj) xv
    /\ (In xv d \/ xv = s_zero).
Proof.
  intros Hlen Hb Hin. unfold conv_terms in Hin.
  apply in_flat_map in Hin as (c & Hc & Hin).
  apply in_flat_map in Hin as (di & Hdi & Hin).
  apply in_map_iff in Hin as (dj & <- & Hdj).
  apply in_seq in Hc, Hdi, Hdj.
  eexists c, di, dj, _. split; [lia|]. split; [lia|]. split; [lia|].
  split; [reflexivity|]. unfold get4_padded.
  destruct ((padding L <=? i * stride L + di)
            && (i * stride L + di <? padding L + H)
            && (padding L <=? j * stride L + dj)
            && (j * stride L + dj <? padding L + W)) eqn:E; [|by right].
  rewrite !andb_true_iff, !Nat.leb_le, !Nat.ltb_lt in E.
  left. apply (get4_in d B); [done|done|lia|lia|lia].
Qed.

Lemma conv_out_index (n k s p i : nat) :
  1 <= n -> 1 <= s -> 2 * p < k -> i < conv_out n k s p -> i * s < n.
Proof.
  unfold conv_out. intros Hn Hs Hp Hi.
  pose proof (Nat.Div0.mul_div_le (n + 2 * p - k) s). nia.
Qed.

(** Where the padding is less than half the kernel, the window of every
    output element has a tap inside the input: the one at the kernel offset
    of the padding, on input channel 0. *)
Lemma center_tap L w d (B H W b o i j : nat) :
  length d = B * in_channels L * H * W -> b < B ->
  1 <= in_channels L -> 2 * padding L < kernel_size L -> 1 <= stride L ->
  1 <= H -> 1 <= W ->
  i < conv_out H (kernel_size L) (stride L) (padding L) ->
  j < conv_out W (kernel_size L) (stride L) (padding L) ->
  exists xv,
    In xv d
    /\ In (s_mul (get4 w (in_channels L) (kernel_size L) (kernel_size L) o 0
                    (padding L) (padding L)) xv)
          (conv_terms L w d H W b o i j).
Proof.
  intros Hlen Hb HC Hp Hs HH HW Hi Hj.
  pose proof (conv_out_index _ _ _ _ _ HH Hs Hp Hi) as Hi'.
  pose proof (conv_out_index _ _ _ _ _ HW Hs Hp Hj) as Hj'.
  exists (get4 d (in_channels L) H W b 0 (i * stride L) (j * stride L)).
  split; [apply (get4_in d B); (done || lia)|].
  unfold conv_terms. apply in_flat_map. exists 0. split; [apply in_seq; lia|].
  apply in_flat_map. exists (padding L). split; [apply in_seq; lia|].
  apply in_map_iff. exists (padding L). split; [|apply in_seq; lia].
  unfold get4_padded.
  replace ((padding L <=? i * stride L + padding L)
           && (i * stride L + padding L <? padding L + H)
           && (padding L <=? j * stride L + padding L)
           && (j * stride L + padding L <? padding L + W)) with true.
  2:{ symmetry. rewrite !andb_true_iff, !Nat.leb_le, !Nat.ltb_lt. lia. }
  by rewrite !Nat.add_sub.
Qed.

Lemma nth_map_seq (f : nat -> T) (n i : nat) (a : T) :
  i < n -> nth i (map f (seq 0 n)) a = f i.
Proof.
  intros Hi. rewrite (nth_indep _ a (f 0)) by (by rewrite length_map, length_seq).
  rewrite map_nth. by rewrite seq_nth.
Qed.

Lemma nth_map_default (f : nat -> T) (l : list nat) (n : nat) (a : T) :
  (forall i, f i = a) -> nth n (map f l) a = a.
Proof.
  intros Hf. revert n. induction l as [|b l IH]; intros [|n]; simpl; auto.
Qed.

End ConvElements.

(** * Overflow and NaN through the layers *)

Section Propagation.

Implicit Types (h : heap xfloat) (L : Conv2d) (v : Val4 (T := xfloat))
  (net : Network).

(** A finite zero. *)
Definition x_zero (a : xfloat) : Prop :=
  match a with XFin r => r = 0%R | _ => False end.

Lemma sum_list_nan (l : list xfloat) : In XNaN l -> sum_list l = XNaN.
Proof.
  induction l as [|a l IH]; [done|]. intros [->|Hin]; cbn [sum_list fold_right].
  - apply x_add_nan_l.
  - change (fold_right s_add s_zero l) with (sum_list l). rewrite (IH Hin).
    apply x_add_nan_r.
Qed.

Lemma sum_list_pinf (l : list xfloat) :
  (forall t, In t l -> t = XPInf \/ x_zero t) ->
  (sum_list l = XPInf \/ x_zero (sum_list l))
  /\ (In XPInf l -> sum_list l = XPInf).
Proof.
  pose proof float_max_pos as Hmax.
  induction l as [|a l IH]; intros Hl.
  { split; [right; reflexivity|done]. }
  destruct IH as [IH1 IH2]; [intros t Ht; apply Hl; by right|].
  cbn [sum_list fold_right].
  change (fold_right s_add s_zero l) with (sum_list l).
  cbn [s_add Scalar_X].
  destruct (Hl a ltac:(by left)) as [->|Ha].
  - assert (x_add XPInf (sum_list l) = XPInf) as E.
    { destruct IH1 as [->|Hz]; [done|]. by destruct (sum_list l). }
    split; [by left|done].
  - destruct a as [r| | |]; try done. cbn in Ha. subst r.
    destruct IH1 as [E|Hz].
    + rewrite E. split; [by left|done].
    + split.
      * right. destruct (sum_list l) as [r| | |]; try done. cbn in Hz. subst r.
        cbn [x_add]. destruct (x_round_cases (0 + 0)) as [[-> ?]|[[-> ?]|[-> ?]]];
          cbn; lra.
      * intros [Hd|Hin]; [done|]. rewrite (IH2 Hin) in Hz. done.
Qed.

(** A value of the given sizes all of whose elements are [a]. *)
Definition all_val (a : xfloat) (B C H W : nat) v : Prop :=
  vB v = B /\ vC v = C /\ vH v = H /\ vW v = W
  /\ length (vdata v) = B * C * H * W
  /\ Forall (fun e => e = a) (vdata v).

Lemma all_val_relu a B C H W v :
  x_relu a = a -> all_val a B C H W v -> all_val a B C H W (relu_val v).
Proof.
  intros Ha (EB & EC & EH & EW & Hlen & Hall).
  unfold all_val, relu_val, map_val. cbn [vB vC vH vW vdata].
  rewrite length_map. repeat (split; [done|]).
  apply Forall_map. eapply Forall_impl; [exact Hall|].
  intros e ->. exact Ha.
Qed.

Lemma all_val_add B C H W a b :
  all_val XNaN B C H W a -> all_val XNaN B C H W b ->
  all_val XNaN B C H W (add_val a b).
Proof.
  intros (EB & EC & EH & EW & Hlen & Hall) (_ & _ & _ & _ & Hlen' & _).
  unfold all_val, add_val. cbn [vB vC vH vW vdata].
  rewrite length_zip_add by lia. repeat (split; [done|]).
  unfold zip_add. apply List.Forall_forall. intros e He.
  apply in_map_iff in He as ([p q] & <- & Hpq). apply in_combine_l in Hpq.
  cbn [fst snd]. rewrite (proj1 (List.Forall_forall _ _) Hall p Hpq).
  apply x_add_nan_l.
Qed.

(** A convolution of a value that is NaN everywhere is NaN everywhere,
    whatever its parameters. *)
Lemma all_val_conv_nan h L B C H W v :
  all_val XNaN B C H W v ->
  in_channels L = C -> 1 <= C -> 2 * padding L < kernel_size L ->
  1 <= stride L -> 1 <= H -> 1 <= W ->
  all_val XNaN B (out_channels L)
    (conv_out H (kernel_size L) (stride L) (padding L))
    (conv_out W (kernel_size L) (stride L) (padding L)) (conv_val h L v).
Proof.
  intros (EB & EC & EH & EW & Hlen & Hall) HC HC1 Hp Hs HH HW.
  unfold all_val, conv_val. cbn [vB vC vH vW vdata].
  rewrite length_conv2d_data, EB, EH, EW. repeat (split; [done|]).
  apply List.Forall_forall. intros e He.
  apply in_conv2d_data in He as (b & o & i & j & Hb & Ho & Hi & Hj & ->).
  rewrite conv2d_at_terms.
  destruct (center_tap L (floats h (weight L)) (vdata v) B H W b o i j
              ltac:(by rewrite Hlen, HC) Hb ltac:(lia) Hp Hs HH HW Hi Hj)
    as (xv & Hxv & Hin).
  rewrite (proj1 (List.Forall_forall _ _) Hall xv Hxv) in Hin.
  cbn [s_mul Scalar_X] in Hin. rewrite x_mul_nan_r in Hin.
  rewrite (sum_list_nan _ Hin). apply x_add_nan_r.
Qed.

(** With an all-zero weight a convolution of a value that is plus infinity
    everywhere is NaN everywhere: zero times infinity. *)
Lemma all_val_conv_zero_inf h L B C H W v :
  all_val XPInf B C H W v ->
  (forall n, nth n (floats h (weight L)) (XFin 0) = XFin 0) ->
  in_channels L = C -> 1 <= C -> 2 * padding L < kernel_size L ->
  1 <= stride L -> 1 <= H -> 1 <= W ->
  all_val XNaN B (out_channels L)
    (conv_out H (kernel_size L) (stride L) (padding L))
    (conv_out W (kernel_size L) (stride L) (padding L)) (conv_val h L v).
Proof.
  intros (EB & EC & EH & EW & Hlen & Hall) Hw HC HC1 Hp Hs HH HW.
  unfold all_val, conv_val. cbn [vB vC vH vW vdata].
  rewrite length_conv2d_data, EB, EH, EW. repeat (split; [done|]).
  apply List.Forall_forall. intros e He.
  apply in_conv2d_data in He as (b & o & i & j & Hb & Ho & Hi & Hj & ->).
  rewrite conv2d_at_terms.
  destruct (center_tap L (floats h (weight L)) (vdata v) B H W b o i j
              ltac:(by rewrite Hlen, HC) Hb ltac:(lia) Hp Hs HH HW Hi Hj)
    as (xv & Hxv & Hin).
  rewrite (proj1 (List.Forall_forall _ _) Hall xv Hxv) in Hin.
  unfold get4 in Hin. cbn [s_zero Scalar_X] in Hin. rewrite Hw in Hin.
  cbn [s_mul Scalar_X x_mul] in Hin. unfold x_scale_inf in Hin.
  destruct (Req_dec_T 0 0) as [_|N]; [|done].
  rewrite (sum_list_nan _ Hin). apply x_add_nan_r.
Qed.

(** Where every weight times every input element overflows to plus
    infinity, and the bias is zero, a convolution is plus infinity
    everywhere. *)
Lemma all_val_conv_overflow h L B C H W v (wv xv : R) :
  all_val (XFin xv) B C H W v ->
  (forall n, n < out_channels L * in_channels L * kernel_size L * kernel_size L ->
     nth n (floats h (weight L)) (XFin 0) = XFin wv) ->
  (forall n, nth n (floats h (bias L)) (XFin 0) = XFin 0) ->
  (float_max < wv * xv)%R ->
  in_channels L = C -> 1 <= C -> 2 * padding L < kernel_size L ->
  1 <= stride L -> 1 <= H -> 1 <= W ->
  all_val XPInf B (out_channels L)
    (conv_out H (kernel_size L) (stride L) (padding L))
    (conv_out W (kernel_size L) (stride L) (padding L)) (conv_val h L v).
Proof.
  intros (EB & EC & EH & EW & Hlen & Hall) Hw Hb Hov HC HC1 Hp Hs HH HW.
  pose proof float_max_pos as Hmax.
  assert (x_mul (XFin wv) (XFin xv) = XPInf) as Eov.
  { cbn [x_mul]. destruct (x_round_cases (wv * xv)) as [[-> ?]|[[-> ?]|[-> ?]]];
      [done|lra|lra]. }
  assert (x_zero (x_mul (XFin wv) (XFin 0))) as Ez.
  { cbn [x_mul]. destruct (x_round_cases (wv * 0)) as [[-> ?]|[[-> ?]|[-> ?]]];
      cbn; lra. }
  unfold all_val, conv_val. cbn [vB vC vH vW vdata].
  rewrite length_conv2d_data, EB, EH, EW. repeat (split; [done|]).
  apply List.Forall_forall. intros e He.
  apply in_conv2d_data in He as (b & o & i & j & Hbb & Ho & Hi & Hj & ->).
  rewrite conv2d_at_terms.
  assert (forall c di dj, c < in_channels L -> di < kernel_size L ->
            dj < kernel_size L ->
            get4 (floats h (weight L)) (in_channels L) (kernel_size L)
              (kernel_size L) o c di dj = XFin wv) as Hget.
  { intros c di dj Hc Hdi Hdj. unfold get4. cbn [s_zero Scalar_X]. apply Hw.
    apply flat_index_lt; [|done]. apply flat_index_lt; [|done].
    by apply flat_index_lt. }
  destruct (sum_list_pinf (conv_terms L (floats h (weight L)) (vdata v) H W b o i j))
    as [_ Hsum].
  { intros t Ht.
    apply (in_conv_terms L _ _ B) in Ht as (c & di & dj & y & Hc & Hdi & Hdj & -> & Hy);
      [|by rewrite Hlen, HC|done].
    rewrite (Hget c di dj) by done. cbn [s_mul Scalar_X].
    destruct Hy as [Hy| ->].
    - rewrite (proj1 (List.Forall_forall _ _) Hall y Hy). by left.
    - right. exact Ez. }
  destruct (center_tap L (floats h (weight L)) (vdata v) B H W b o i j
              ltac:(by rewrite Hlen, HC) Hbb ltac:(lia) Hp Hs HH HW Hi Hj)
    as (y & Hy & Hin).
  rewrite (proj1 (List.Forall_forall _ _) Hall y Hy) in Hin.
  rewrite (Hget 0 (padding L) (padding L)) in Hin by lia.
  cbn [s_mul Scalar_X] in Hin. rewrite Eov in Hin.
  rewrite (Hsum Hin). cbn [s_zero s_add Scalar_X]. rewrite Hb. reflexivity.
Qed.

End Propagation.

Section Chain.

Implicit Types (h : heap xfloat) (L : Conv2d) (v : Val4 (T := xfloat))
  (net : Network).

Lemma nan_conv h L B cin cout k s p H W v :
  wf_conv h L (cin, cout, k, s, p) = true ->
  1 <= cin -> 2 * p < k -> 1 <= s -> 1 <= H -> 1 <= W ->
  all_val XNaN B cin H W v ->
  all_val XNaN B cout (conv_out H k s p) (conv_out W k s p) (conv_val h L v).
Proof.
  intros Hwf Hc Hp Hs HH HW Hv.
  apply wf_conv_inv in Hwf as (Ei & Eo & Ek & Es & Ep & _).
  rewrite <- Eo, <- Ek, <- Es, <- Ep.
  apply (all_val_conv_nan h L B cin H W v Hv Ei Hc); (done || lia).
Qed.

Lemma nan_relu_conv h L B cin cout k s p H W v :
  wf_conv h L (cin, cout, k, s, p) = true ->
  1 <= cin -> 2 * p < k -> 1 <= s -> 1 <= H -> 1 <= W ->
  all_val XNaN B cin H W v ->
  all_val XNaN B cout (conv_out H k s p) (conv_out W k s p)
    (relu_val (conv_val h L v)).
Proof.
  intros Hwf Hc Hp Hs HH HW Hv. apply all_val_relu; [reflexivity|].
  apply (nan_conv h L B cin cout k s p H W v Hwf Hc Hp Hs HH HW Hv).
Qed.

Lemma nan_subnet h L1 L2 L3 B cin c H W v :
  wf_conv h L1 (cin, c, 3, 1, 1) = true -> wf_conv h L2 (c, c, 1, 1, 0) = true ->
  wf_conv h L3 (c, c, 3, 1, 1) = true ->
  1 <= cin -> 1 <= c -> 1 <= H -> 1 <= W ->
  all_val XNaN B cin H W v ->
  all_val XNaN B c H W (subnet_val h L1 L2 L3 v).
Proof.
  intros K1 K2 K3 Hcin Hc HH HW Hv. unfold subnet_val.
  pose proof (nan_relu_conv h L1 B cin c 3 1 1 H W v K1
                ltac:(lia) ltac:(lia) ltac:(lia) HH HW Hv) as H1.
  rewrite !conv_out_same3 in H1 by lia.
  pose proof (nan_relu_conv h L2 B c c 1 1 0 H W _ K2
                ltac:(lia) ltac:(lia) ltac:(lia) HH HW H1) as H2.
  rewrite !conv_out_same1 in H2 by lia.
  pose proof (nan_relu_conv h L3 B c c 3 1 1 H W _ K3
                ltac:(lia) ltac:(lia) ltac:(lia) HH HW H2) as H3.
  rewrite !conv_out_same3 in H3 by lia. exact H3.
Qed.

(** Once the output of the stem is NaN everywhere, so is the output of
    block 3. *)
Lemma nan_blocks h net B H W v :
  wf_net h net = true -> 1 <= H -> 1 <= W ->
  all_val XNaN B 256 H W v ->
  all_val XNaN B 512 H W (res3_val h net (res2_val h net (res1_val h net v))).
Proof.
  intros Hwf HH HW Hv.
  assert (all_val XNaN B 256 H W (res1_val h net v)) as H1.
  { unfold res1_val. apply all_val_add; [done|].
    apply (nan_subnet h _ _ _ B 256); (layer || lia || done). }
  assert (all_val XNaN B 512 H W (res2_val h net (res1_val h net v))) as H2.
  { unfold res2_val. apply all_val_add.
    - pose proof (nan_conv h (res2_skip net) B 256 512 1 1 0 H W _
                    ltac:(layer) ltac:(lia) ltac:(lia) ltac:(lia) HH HW H1) as Hs.
      rewrite !conv_out_same1 in Hs by lia. exact Hs.
    - apply (nan_subnet h _ _ _ B 256); (layer || lia || done). }
  unfold res3_val. apply all_val_add; [done|].
  apply (nan_subnet h _ _ _ B 512); (layer || lia || done).
Qed.

Lemma nan_head_raw h L1 L2 L3 B c H W v :
  wf_conv h L1 (512, 512, 1, 1, 0) = true ->
  wf_conv h L2 (512, 512, 1, 1, 0) = true ->
  wf_conv h L3 (512, c, 1, 1, 0) = true ->
  1 <= H -> 1 <= W ->
  all_val XNaN B 512 H W v ->
  all_val XNaN B c H W (head_raw_val h L1 L2 L3 v).
Proof.
  intros K1 K2 K3 HH HW Hv. unfold head_raw_val.
  pose proof (nan_relu_conv h L1 B 512 512 1 1 0 H W v K1
                ltac:(lia) ltac:(lia) ltac:(lia) HH HW Hv) as H1.
  rewrite !conv_out_same1 in H1 by lia.
  pose proof (nan_relu_conv h L2 B 512 512 1 1 0 H W _ K2
                ltac:(lia) ltac:(lia) ltac:(lia) HH HW H1) as H2.
  rewrite !conv_out_same1 in H2 by lia.
  pose proof (nan_conv h L3 B 512 c 1 1 0 H W _ K3
                ltac:(lia) ltac:(lia) ltac:(lia) HH HW H2) as H3.
  rewrite !conv_out_same1 in H3 by lia. exact H3.
Qed.

Lemma overflow_conv h L B cin cout k s p H W v (wv xv : R) :
  wf_conv h L (cin, cout, k, s, p) = true ->
  1 <= cin -> 2 * p < k -> 1 <= s -> 1 <= H -> 1 <= W ->
  all_val (XFin xv) B cin H W v ->
  (forall n, n < cout * cin * k * k ->
     nth n (floats h (weight L)) (XFin 0) = XFin wv) ->
  (forall n, nth n (floats h (bias L)) (XFin 0) = XFin 0) ->
  (float_max < wv * xv)%R ->
  all_val XPInf B cout (conv_out H k s p) (conv_out W k s p) (conv_val h L v).
Proof.
  intros Hwf Hc Hp Hs HH HW Hv Hw Hb Hov.
  apply wf_conv_inv in Hwf as (Ei & Eo & Ek & Es & Ep & _).
  rewrite <- Eo, <- Ek, <- Es, <- Ep.
  apply (all_val_conv_overflow h L B cin H W v wv xv Hv);
    [ intros n Hn; apply Hw; by rewrite Eo, Ei, Ek in Hn
    | exact Hb | exact Hov | exact Ei | lia | lia | lia | lia | lia ].
Qed.

Lemma zero_inf_conv h L B cin cout k s p H W v :
  wf_conv h L (cin, cout, k, s, p) = true ->
  1 <= cin -> 2 * p < k -> 1 <= s -> 1 <= H -> 1 <= W ->
  all_val XPInf B cin H W v ->
  (forall n, nth n (floats h (weight L)) (XFin 0) = XFin 0) ->
  all_val XNaN B cout (conv_out H k s p) (conv_out W k s p) (conv_val h L v).
Proof.
  intros Hwf Hc Hp Hs HH HW Hv Hw.
  apply wf_conv_inv in Hwf as (Ei & Eo & Ek & Es & Ep & _).
  rewrite <- Eo, <- Ek, <- Es, <- Ep.
  apply (all_val_conv_zero_inf h L B cin H W v Hv Hw Ei); lia.
Qed.

(** The first convolution overflows, the second multiplies the infinities
    by its zero weights: the stem is NaN everywhere. *)
Lemma overflow_stem h net B H W v (wv xv : R) :
  wf_net h net = true -> 1 <= H -> 1 <= W ->
  all_val (XFin xv) B 3 H W v ->
  (forall n, n < 32 * 3 * 3 * 3 ->
     nth n (floats h (weight (conv1 net))) (XFin 0) = XFin wv) ->
  (forall n, nth n (floats h (bias (conv1 net))) (XFin 0) = XFin 0) ->
  (float_max < wv * xv)%R ->
  (forall n, nth n (floats h (weight (conv2 net))) (XFin 0) = XFin 0) ->
  all_val XNaN B 256 (stem_out H) (stem_out W) (stem_val h net v).
Proof.
  intros Hwf HH HW Hv Hw1 Hb1 Hov Hw2. unfold stem_val, stem_out.
  pose proof (conv_out_pos H 3 1 1). pose proof (conv_out_pos W 3 1 1).
  pose proof (conv_out_pos (conv_out H 3 1 1) 3 2 1).
  pose proof (conv_out_pos (conv_out W 3 1 1) 3 2 1).
  pose proof (conv_out_pos (conv_out (conv_out H 3 1 1) 3 2 1) 3 2 1).
  pose proof (conv_out_pos (conv_out (conv_out W 3 1 1) 3 2 1) 3 2 1).
  pose proof (overflow_conv h (conv1 net) B 3 32 3 1 1 H W v wv xv ltac:(layer)
                ltac:(lia) ltac:(lia) ltac:(lia) HH HW Hv Hw1 Hb1 Hov) as A1.
  apply (all_val_relu XPInf) in A1; [|reflexivity].
  pose proof (zero_inf_conv h (conv2 net) B 32 64 3 2 1
                (conv_out H 3 1 1) (conv_out W 3 1 1) _ ltac:(layer)
                ltac:(lia) ltac:(lia) ltac:(lia) ltac:(lia) ltac:(lia) A1 Hw2) as A2.
  apply (all_val_relu XNaN) in A2; [|reflexivity].
  pose proof (nan_relu_conv h (conv3 net) B 64 128 3 2 1
                (conv_out (conv_out H 3 1 1) 3 2 1)
                (conv_out (conv_out W 3 1 1) 3 2 1) _ ltac:(layer)
                ltac:(lia) ltac:(lia) ltac:(lia) ltac:(lia) ltac:(lia) A2) as A3.
  apply (nan_relu_conv h (conv4 net) B 128 256 3 2 1
           (conv_out (conv_out (conv_out H 3 1 1) 3 2 1) 3 2 1)
           (conv_out (conv_out (conv_out W 3 1 1) 3 2 1) 3 2 1) _ ltac:(layer)
           ltac:(lia) ltac:(lia) ltac:(lia) ltac:(lia) ltac:(lia) A3).
Qed.

Lemma normalize_all_nan (l : list xfloat) :
  Forall (fun e => e = XNaN) l ->
  normalize (map s_logsigmoid l) = repeat XNaN (length l).
Proof.
  unfold normalize. generalize (s_logsumexp (map s_logsigmoid l)). intros c Hall.
  induction Hall as [|e l -> Hall IH]; [reflexivity|].
  cbn [map length repeat s_logsigmoid s_sub Scalar_X x_logsigmoid].
  rewrite x_sub_nan_l. f_equal. exact IH.
Qed.

(** Then every entry of the guidance output is NaN. *)
Lemma overflow_guidance h net B H W v (wv xv : R) :
  wf_net h net = true -> 1 <= H -> 1 <= W ->
  all_val (XFin xv) B 3 H W v ->
  (forall n, n < 32 * 3 * 3 * 3 ->
     nth n (floats h (weight (conv1 net))) (XFin 0) = XFin wv) ->
  (forall n, nth n (floats h (bias (conv1 net))) (XFin 0) = XFin 0) ->
  (float_max < wv * xv)%R ->
  (forall n, nth n (floats h (weight (conv2 net))) (XFin 0) = XFin 0) ->
  vdata (guidance_val h net v) = repeat XNaN (B * 1 * stem_out H * stem_out W).
Proof.
  intros Hwf HH HW Hv Hw1 Hb1 Hov Hw2.
  pose proof (overflow_stem h net B H W v wv xv Hwf HH HW Hv Hw1 Hb1 Hov Hw2) as Hs.
  pose proof (stem_out_pos H). pose proof (stem_out_pos W).
  pose proof (nan_blocks h net B (stem_out H) (stem_out W) _ Hwf
                ltac:(lia) ltac:(lia) Hs) as Ht.
  pose proof (nan_head_raw h (fc1_1 net) (fc2_1 net) (fc3_1 net) B 1
                (stem_out H) (stem_out W) _
                ltac:(layer) ltac:(layer) ltac:(layer) ltac:(lia) ltac:(lia) Ht)
    as (_ & _ & _ & _ & Hlen & Hall).
  unfold guidance_val, trunk_val. rewrite head_ng_val_data, <- Hlen.
  apply (normalize_all_nan _ Hall).
Qed.

End Chain.

(** * A constructed network, inputs, and the claims at these inputs *)

Module Examples.

(** All parameters initialised to zero. *)
Definition zero_init : string -> nat -> R := fun _ _ => 0%R.

(** The caller's tensors: a mean vector (1, 2, 3), an image batch of shape
    (2, 3, 64, 64), an image of shape (1, 3, 7, 7), a feature map of shape
    (1, 256, 1, 1), and a mean vector with two components only. *)
Definition store0 : heap R :=
  [ FloatStorage [1%R; 2%R; 3%R];
    FloatStorage (repeat 0%R (2 * 3 * 64 * 64));
    FloatStorage (repeat 0%R (1 * 3 * 7 * 7));
    FloatStorage (repeat 0%R (1 * 256 * 1 * 1));
    FloatStorage [1%R; 2%R] ].

Definition mean3 : Tensor1 :=
  {| storage1 := 0; len1 := 3; stride1 := 1; requires_grad1 := false |}.

Definition mean2 : Tensor1 :=
  {| storage1 := 4; len1 := 2; stride1 := 1; requires_grad1 := false |}.

Definition batch : Tensor4 :=
  {| storage := 1; size0 := 2; size1 := 3; size2 := 64; size3 := 64;
     requires_grad := false |}.

Definition batch_value : Val4 :=
  {| vdata := repeat 0%R (2 * 3 * 64 * 64); vB := 2; vC := 3; vH := 64; vW := 64 |}.

Definition odd_image : Tensor4 :=
  {| storage := 2; size0 := 1; size1 := 3; size2 := 7; size3 := 7;
     requires_grad := false |}.

Definition odd_image_value : Val4 :=
  {| vdata := repeat 0%R (1 * 3 * 7 * 7); vB := 1; vC := 3; vH := 7; vW := 7 |}.

Definition features : Tensor4 :=
  {| storage := 3; size0 := 1; size1 := 256; size2 := 1; size3 := 1;
     requires_grad := false |}.

Definition features_value : Val4 :=
  {| vdata := repeat 0%R (1 * 256 * 1 * 1); vB := 1; vC := 256; vH := 1; vW := 1 |}.

(** What [Network(mean)] returns in [store0]. *)
Definition built (init : string -> nat -> R) (m : Tensor1) : Network * heap R :=
  (net_at 5 {| storage1 := 46; len1 := len1 m; stride1 := 1;
               requires_grad1 := requires_grad1 m |},
   store0 ++ all_params init
     ++ [ LongStorage [len1 m];
          FloatStorage (elements (len1 m) (stride1 m) (floats store0 (storage1 m))) ]).

Lemma built_is_constructed init (m : Tensor1) :
  is_float store0 (storage1 m) = true ->
  __init__ init m store0 = Ok (built init m).
Proof. intros Hm. by rewrite (init_run init m store0 Hm). Qed.

Definition net3 : Network := fst (built zero_init mean3).
Definition store3 : heap R := snd (built zero_init mean3).

Definition net2 : Network := fst (built zero_init mean2).
Definition store2 : heap R := snd (built zero_init mean2).

Lemma wf_net3 : wf_net store3 net3 = true.
Proof. reflexivity. Qed.

Lemma wf_net2 : wf_net store2 net2 = true.
Proof. reflexivity. Qed.

Lemma batch_stored : value_of store3 batch = Some batch_value.
Proof. reflexivity. Qed.

Lemma odd_image_stored : value_of store3 odd_image = Some odd_image_value.
Proof. reflexivity. Qed.

Lemma features_stored : value_of store3 features = Some features_value.
Proof. reflexivity. Qed.

(** ** The claims at the example inputs *)

(** The batch of shape (2, 3, 64, 64) gives outputs of shapes (2, 3, 8, 8)
    and (2, 1, 8, 8). *)
Lemma forward_output_shapes_witness :
  exists sc ng h',
    forward net3 batch store3 = Ok ((sc, ng), h')
    /\ (size0 sc, size1 sc, size2 sc, size3 sc) = (2, 3, 8, 8)
    /\ (size0 ng, size1 ng, size2 ng, size3 ng) = (2, 1, 8, 8).
Proof.
  destruct (forward_output_shapes store3 net3 batch batch_value)
    as (sc & ng & h' & vsc & vng & Hrun & Dsc & Dng & _);
    [reflexivity | reflexivity | reflexivity | simpl; lia |].
  exists sc, ng, h'. split; [exact Hrun|]. split; [exact Dsc|exact Dng].
Defined.

Lemma exact_arithmetic_R : exact_arithmetic (fun r : R => r).
Proof.
  split; [reflexivity|]. intros l Hne. cbn [s_logsumexp Scalar_R].
  rewrite (logsumexp_R_eq l Hne). reflexivity.
Qed.

(** For the batch of shape (2, 3, 64, 64) the guidance output has 128
    entries; read in exact arithmetic their exponentials sum to 1. *)
Lemma joint_normalization_witness :
  exists sc ng h' d,
    forward net3 batch store3 = Ok ((sc, ng), h')
    /\ h' !! storage ng = Some (FloatStorage d)
    /\ length d = 128
    /\ sum_R (map exp d) = 1%R.
Proof.
  destruct (joint_normalization store3 net3 batch batch_value)
    as (sc & ng & h' & d & Hrun & Hd & Hlen & Ed & _ & _ & _ & Hsum);
    [reflexivity | reflexivity | reflexivity | simpl; lia |].
  exists sc, ng, h', d. split; [exact Hrun|]. split; [exact Hd|].
  split; [rewrite Ed, length_map; exact Hlen|].
  apply (Hsum (fun r => r) exact_arithmetic_R). simpl. lia.
Defined.

Lemma forward_deterministic_pure_witness :
  exists sc ng h1 vsc vng sc2 ng2 h2,
    forward net3 batch store3 = Ok ((sc, ng), h1)
    /\ value_of h1 sc = Some vsc /\ value_of h1 ng = Some vng
    /\ forward net3 batch h1 = Ok ((sc2, ng2), h2)
    /\ value_of h2 sc2 = Some vsc /\ value_of h2 ng2 = Some vng
    /\ (forall l c, store3 !! l = Some c -> h1 !! l = Some c).
Proof.
  destruct (forward_deterministic_pure store3 net3 batch batch_value)
    as (sc & ng & h1 & vsc & vng & Hrun & Hsc & Hng & Hkeep & _ & _ & _ & _
        & sc2 & ng2 & h2 & Hrun2 & Hsc2 & Hng2 & _);
    [reflexivity | reflexivity | reflexivity | simpl; lia |].
  exists sc, ng, h1, vsc, vng, sc2, ng2, h2.
  split; [exact Hrun|]. split; [exact Hsc|]. split; [exact Hng|].
  split; [exact Hrun2|]. split; [exact Hsc2|]. split; [exact Hng2|exact Hkeep].
Defined.

Lemma forward_failure_modes_witness :
  exists sc ng h',
    forward net3 odd_image store3 = Ok ((sc, ng), h')
    /\ (size0 sc, size1 sc, size2 sc, size3 sc) = (1, 3, 1, 1).
Proof.
  destruct (forward_failure_modes store3 net3 odd_image odd_image_value)
    as (_ & _ & Hok); [reflexivity | reflexivity |].
  destruct Hok as (sc & ng & h' & Hrun & Dsc & _);
    [reflexivity | simpl; lia | simpl; lia | simpl; lia |].
  exists sc, ng, h'. split; [exact Hrun|exact Dsc].
Defined.

Lemma init_accepts_any_mean_witness :
  exists net h',
    __init__ zero_init mean3 store0 = Ok (net, h') /\ len1 (mean net) = 3.
Proof.
  destruct (init_accepts_any_mean zero_init mean3 store0)
    as (net & h' & Hrun & _ & Hlen & _); [reflexivity|].
  exists net, h'. split; [exact Hrun|exact Hlen].
Defined.

Lemma res2_block_structure_witness :
  exists out h',
    res2 net3 features store3 = Ok (out, h')
    /\ (size0 out, size1 out, size2 out, size3 out) = (1, 512, 1, 1).
Proof.
  destruct (res2_block_structure store3 net3 features features_value)
    as (out & h' & Hrun & _ & _ & Dout);
    [reflexivity | reflexivity | reflexivity | simpl; lia | simpl; lia |].
  exists out, h'. split; [exact Hrun|exact Dout].
Defined.

Lemma identity_residual_blocks_witness :
  exists out h' vin vout,
    res1 net3 features store3 = Ok (out, h')
    /\ value_of store3 features = Some vin /\ value_of h' out = Some vout
    /\ length (vdata vout) = length (vdata vin).
Proof.
  destruct (identity_residual_blocks store3 net3 features features_value)
    as (H256 & _);
    [reflexivity | reflexivity | simpl; lia | simpl; lia | reflexivity |].
  destruct H256 as (out & h' & sub & hs & s & vout & Hrun & _ & _ & Hout & Hid);
    [reflexivity|].
  destruct Hid as (_ & _ & _ & Hlen & _).
  exists out, h', features_value, vout.
  split; [exact Hrun|]. split; [reflexivity|]. split; [exact Hout|exact Hlen].
Defined.

Lemma detach_keeps_forward_value_witness :
  exists res h4 sc ng ng' h5,
    forward net3 batch store3 = Ok ((sc, ng), h5)
    /\ head_ng net3 res 2 sc h4 = Ok (ng, h5)
    /\ head_ng_direct net3 res 2 sc h4 = Ok (ng', h5)
    /\ value_of h5 ng = value_of h5 ng'.
Proof.
  destruct (detach_keeps_forward_value store3 net3 batch batch_value)
    as (res & h4 & sc & ng & ng' & h5 & Hrun & _ & Hng & Hd & _ & Hv & Hv' & _);
    [reflexivity | reflexivity | reflexivity | simpl; lia |].
  exists res, h4, sc, ng, ng', h5.
  split; [exact Hrun|]. split; [exact Hng|]. split; [exact Hd|].
  exact (eq_trans Hv (eq_sym Hv')).
Defined.

Lemma mean_added_once_from_copy_witness :
  exists net h1,
    __init__ zero_init mean3 store0 = Ok (net, h1)
    /\ storage1 (mean net) <> storage1 mean3
    /\ floats h1 (storage1 (mean net)) = [1%R; 2%R; 3%R].
Proof.
  destruct (mean_added_once_from_copy zero_init mean3 store0)
    as (net & h1 & Hrun & Hne & Hdata & _); [reflexivity | simpl; lia |].
  exists net, h1. split; [exact Hrun|]. split; [exact Hne|exact Hdata].
Defined.

(** ** Where the claims fail *)

(** C2 fails: the image of shape (1, 3, 7, 7), whose height and width are no
    multiples of 8, is accepted; and with a stored mean of two components
    the valid batch fails with an index error, not a shape mismatch. *)
Lemma forward_accepts_odd_sizes :
  valid_input odd_image = false
  /\ (exists sc ng h', forward net3 odd_image store3 = Ok ((sc, ng), h'))
  /\ forward net3 odd_image store3 <> Err ShapeMismatch
  /\ valid_input batch = true
  /\ forward net2 batch store2 = Err IndexError.
Proof.
  split; [reflexivity|].
  destruct (forward_spec store3 net3 odd_image odd_image_value)
    as (sc & ng & h' & Hrun & _);
    [reflexivity | reflexivity | reflexivity | simpl; lia | simpl; lia | simpl; lia |].
  split; [by exists sc, ng, h'|]. split; [by rewrite Hrun|].
  split; [reflexivity|].
  apply (forward_short_mean store2 net2 batch batch_value);
    [reflexivity | reflexivity | reflexivity | simpl; lia | simpl; lia | simpl; lia].
Qed.

(** C3 fails: a mean vector of two components is accepted. *)
Lemma init_accepts_short_mean :
  len1 mean2 = 2
  /\ __init__ zero_init mean2 store0 = Ok (net2, store2)
  /\ __init__ zero_init mean2 store0 <> Err InvalidArgument.
Proof.
  split; [reflexivity|].
  assert (__init__ zero_init mean2 store0 = Ok (net2, store2)) as E
    by (by apply built_is_constructed).
  split; [exact E|]. by rewrite E.
Qed.

(** All parameters zero except the bias of the third convolution of block 2,
    which is -1. *)
Definition neg_init : string -> nat -> R :=
  fun name _ => if String.eqb name "res2_conv3.bias" then (-1)%R else 0%R.

Definition store_neg : heap R := snd (built neg_init mean3).

(** C4 fails: on the all-zero feature map the first element of the output of
    block 2 is 0, the rectified -1 added to the skip path's 0; without the
    rectifier after the third convolution it would be -1. *)
Lemma res2_rectifies_third_convolution :
  exists out h' vout,
    res2 net3 features store_neg = Ok (out, h')
    /\ value_of h' out = Some vout
    /\ hd_error (vdata vout) = Some 0%R
    /\ hd_error (vdata (res2_val_as_specified store_neg net3 features_value))
       = Some (-1)%R
    /\ vout <> res2_val_as_specified store_neg net3 features_value.
Proof.
  assert (wf_net store_neg net3 = true) as Hwf by reflexivity.
  assert (value_of store_neg features = Some features_value) as Hx by reflexivity.
  destruct (computes_run _ _ _
              (res2_spec store_neg store_neg net3 features features_value
                 ltac:(done) Hwf Hx ltac:(reflexivity) ltac:(simpl; lia)
                 ltac:(simpl; lia)))
    as (out & h' & Hrun & _ & Hv & _).
  destruct (res2_heads store_neg net3 features_value 0%R (-1)%R) as [Hcode Hspec];
    [ intros n; apply (nth_map_zero (neg_init "res2_skip.weight")); reflexivity
    | intros n; apply (nth_map_zero (neg_init "res2_conv3.weight")); reflexivity
    | reflexivity | reflexivity | simpl; lia | simpl; lia | simpl; lia |].
  assert (hd_error (vdata (res2_val store_neg net3 features_value)) = Some 0%R) as H0.
  { rewrite Hcode. f_equal. rewrite Rmax_left by lra. lra. }
  assert (hd_error (vdata (res2_val_as_specified store_neg net3 features_value))
          = Some (-1)%R) as H1.
  { rewrite Hspec. f_equal. lra. }
  exists out, h', (res2_val store_neg net3 features_value).
  split; [done|]. split; [done|]. split; [done|]. split; [done|].
  intros E. rewrite E, H1 in H0. injection H0 as H0. lra.
Qed.

(** An empty batch of images of 8 x 8 pixels, after the stored network. *)
Definition store3e : heap R := store3 ++ [FloatStorage []].

Definition empty_batch : Tensor4 :=
  {| storage := 47; size0 := 0; size1 := 3; size2 := 8; size3 := 8;
     requires_grad := false |}.

Definition empty_batch_value : Val4 (T := R) :=
  {| vdata := []; vB := 0; vC := 3; vH := 8; vW := 8 |}.

End Examples.

(** * Finite inputs that overflow *)

Module Overflow.

(** A finite single-precision number whose double is beyond the range. *)
Definition big : R := 300000000000000000000000000000000000000%R.

(** Every weight of the first convolution is 2; every other parameter is
    0. *)
Definition init_x : string -> nat -> xfloat :=
  fun name _ => if String.eqb name "conv1.weight" then XFin 2 else XFin 0.

(** The caller's store: a mean vector and an image of shape (1, 3, 8, 8)
    all of whose elements are [big]. *)
Definition store0 : heap xfloat :=
  [ FloatStorage [XFin 0; XFin 0; XFin 0];
    FloatStorage (repeat (XFin big) (1 * 3 * 8 * 8)) ].

Definition mean0 : Tensor1 :=
  {| storage1 := 0; len1 := 3; stride1 := 1; requires_grad1 := false |}.

Definition image : Tensor4 :=
  {| storage := 1; size0 := 1; size1 := 3; size2 := 8; size3 := 8;
     requires_grad := false |}.

Definition image_value : Val4 :=
  {| vdata := repeat (XFin big) (1 * 3 * 8 * 8); vB := 1; vC := 3; vH := 8;
     vW := 8 |}.

(** What [Network(mean0)] returns in [store0]. *)
Definition net : Network :=
  net_at 2 {| storage1 := 43; len1 := 3; stride1 := 1; requires_grad1 := false |}.

Definition store : heap xfloat :=
  store0 ++ all_params init_x
    ++ [ LongStorage [3];
         FloatStorage (elements 3 1 (floats store0 0)) ].

Lemma constructed : __init__ init_x mean0 store0 = Ok (net, store).
Proof. by rewrite (init_run init_x mean0 store0). Qed.

Lemma wf_net_store : wf_net store net = true.
Proof. reflexivity. Qed.

Lemma image_stored : value_of store image = Some image_value.
Proof. reflexivity. Qed.

Lemma image_all_big : all_val (XFin big) 1 3 8 8 image_value.
Proof.
  unfold all_val, image_value. cbn [vB vC vH vW vdata].
  do 4 (split; [reflexivity|]). split; [apply repeat_length|].
  apply List.Forall_forall. intros e He. by apply repeat_spec in He.
Qed.

Lemma guidance_is_nan : vdata (guidance_val store net image_value) = [XNaN].
Proof.
  rewrite (overflow_guidance store net 1 8 8 image_value 2 big wf_net_store
             ltac:(lia) ltac:(lia) image_all_big).
  - reflexivity.
  - intros n Hn. apply (nth_map_seq (init_x "conv1.weight") (32 * 3 * 3 * 3) n _ Hn).
  - intros n. apply (nth_map_default (init_x "conv1.bias")). reflexivity.
  - unfold float_max, big. lra.
  - intros n. apply (nth_map_default (init_x "conv2.weight")). reflexivity.
Qed.

(** The forward pass succeeds on the image; its one guidance entry is
    NaN or at most zero. *)
Lemma guidance_entries_nonpositive_or_nan_witness :
  exists sc ng h' d,
    forward net image store = Ok ((sc, ng), h')
    /\ h' !! storage ng = Some (FloatStorage d)
    /\ Forall (fun e => e = XNaN \/ x_nonpos e) d.
Proof.
  destruct (forward_spec store net image image_value)
    as (sc & ng & h' & Hrun & _);
    [reflexivity | reflexivity | reflexivity | simpl; lia | simpl; lia | simpl; lia |].
  destruct (guidance_entries_nonpositive_or_nan store net image image_value sc ng h')
    as (d & Hd & _ & Hall & _); [reflexivity | reflexivity | exact Hrun |].
  exists sc, ng, h', d. split; [exact Hrun|]. split; [exact Hd|exact Hall].
Defined.

(** C10 fails: with every parameter and every input element finite, the
    forward pass succeeds and its guidance entry is NaN, which is not at
    most zero. *)
Lemma overflow_gives_nan_guidance :
  __init__ init_x mean0 store0 = Ok (net, store)
  /\ value_of store image = Some image_value
  /\ valid_input image = true
  /\ exists sc ng h',
       forward net image store = Ok ((sc, ng), h')
       /\ h' !! storage ng = Some (FloatStorage [XNaN])
       /\ ~ Forall x_nonpos [XNaN].
Proof.
  split; [exact constructed|]. split; [reflexivity|]. split; [reflexivity|].
  destruct (forward_spec store net image image_value)
    as (sc & ng & h' & Hrun & _ & _ & Hng & _);
    [reflexivity | reflexivity | reflexivity | simpl; lia | simpl; lia | simpl; lia |].
  pose proof (value_of_lookup _ _ _ Hng) as (Hl & _).
  rewrite guidance_is_nan in Hl.
  exists sc, ng, h'. split; [exact Hrun|]. split; [exact Hl|].
  intros Hall. apply Forall_inv in Hall. exact Hall.
Qed.

(** C1 fails: the empty batch is a valid input, the forward pass accepts it
    and returns a guidance output without entries, whose exponentials sum
    to 0; and on the image above, a batch of one with finite elements, the
    one guidance entry is NaN, and so is the sum of the exponentials. *)
Lemma exponentials_do_not_sum_to_one :
  (valid_input Examples.empty_batch = true
   /\ value_of Examples.store3e Examples.empty_batch = Some Examples.empty_batch_value
   /\ exists sc ng h',
        forward Examples.net3 Examples.empty_batch Examples.store3e = Ok ((sc, ng), h')
        /\ h' !! storage ng = Some (FloatStorage [])
        /\ sum_R (map exp []) <> 1%R)
  /\ (valid_input image = true
      /\ value_of store image = Some image_value
      /\ exists sc ng h',
           forward net image store = Ok ((sc, ng), h')
           /\ h' !! storage ng = Some (FloatStorage [XNaN])
           /\ sum_list (map x_exp [XNaN]) = XNaN
           /\ XNaN <> XFin 1).
Proof.
  split.
  - split; [reflexivity|]. split; [reflexivity|].
    destruct (forward_spec Examples.store3e Examples.net3 Examples.empty_batch Examples.empty_batch_value)
      as (sc & ng & h' & Hrun & _ & _ & Hng & _ & _ & _ & Dng & _ & Wng);
      [reflexivity | reflexivity | reflexivity | simpl; lia | simpl; lia | simpl; lia |].
    pose proof (value_of_lookup _ _ _ Hng) as (Hl & G0 & _).
    destruct (quad_eq_inv _ _ _ _ _ _ _ _ Dng) as (F0 & _).
    simpl in F0. unfold well_sized in Wng. rewrite G0, F0 in Wng.
    apply length_zero_iff_nil in Wng. rewrite Wng in Hl.
    exists sc, ng, h'. split; [exact Hrun|]. split; [exact Hl|]. simpl. lra.
  - split; [reflexivity|]. split; [reflexivity|].
    destruct (forward_spec store net image image_value)
      as (sc & ng & h' & Hrun & _ & _ & Hng & _);
      [reflexivity | reflexivity | reflexivity | simpl; lia | simpl; lia | simpl; lia |].
    pose proof (value_of_lookup _ _ _ Hng) as (Hl & _).
    rewrite guidance_is_nan in Hl.
    exists sc, ng, h'. split; [exact Hrun|]. split; [exact Hl|].
    split; [reflexivity|discriminate].
Qed.
End Overflow.

(** * Further properties of the constructor and of the forward pass *)

Section More.
Context {T : Type} `{!Scalar T}.

Implicit Types (h : heap T) (x y t : Tensor4) (L : Conv2d) (d : list T)
  (v : Val4 (T := T)) (net : Network).

(** ** The components of the mean that are read *)

Lemma mean_at_replaced h net d' i :
  storage1 (mean net) < length h ->
  mean_at (<[storage1 (mean net) := FloatStorage d']> h) net i
  = nth (i * stride1 (mean net)) d' s_zero.
Proof.
  intros Hlt. unfold mean_at, floats. by rewrite list_lookup_insert_eq.
Qed.

Lemma coords_val_same_mean h h' net v :
  agree (param_locs net) h h' ->
  (forall i, i < 3 -> mean_at h' net i = mean_at h net i) ->
  coords_val h' net v = coords_val h net v.
Proof.
  intros Ha Hm. unfold coords_val, head_sc_val.
  rewrite <- (trunk_val_agree h h' net v Ha).
  rewrite <- (head_raw_val_agree h h' net (fc1 net) (fc2 net) (fc3 net)
                (512, 512, 1, 1, 0) (512, 512, 1, 1, 0) (512, 3, 1, 1, 0)
                (trunk_val h net v) Ha) by in_layers.
  rewrite (Hm 0), (Hm 1), (Hm 2) by lia. reflexivity.
Qed.

(** Lines 93-95 read [mean[0]], [mean[1]] and [mean[2]] and nothing else of the
    mean: a stored mean with more than three components is accepted, and two
    stored means that agree on the first three components give the same two
    outputs. *)
Theorem forward_reads_three_mean_components h net x v d' :
  wf_net h net = true -> value_of h x = Some v -> valid_input x = true ->
  3 <= len1 (mean net) ->
  ~ In (storage1 (mean net)) (param_locs net) ->
  storage x <> storage1 (mean net) ->
  (forall i, i < 3 ->
     nth (i * stride1 (mean net)) d' s_zero
     = nth (i * stride1 (mean net)) (floats h (storage1 (mean net))) s_zero) ->
  exists sc ng h1 sc' ng' h1' vsc vng,
    forward net x h = Ok ((sc, ng), h1)
    /\ forward net x (<[storage1 (mean net) := FloatStorage d']> h)
       = Ok ((sc', ng'), h1')
    /\ value_of h1 sc = Some vsc /\ value_of h1' sc' = Some vsc
    /\ value_of h1 ng = Some vng /\ value_of h1' ng' = Some vng.
Proof.
  intros Hwf Hx Hval Hlen Hsep Hne Hd.
  destruct (valid_input_inv _ Hval) as (E1 & HH & MH & HW & MW).
  pose proof (value_of_lookup _ _ _ Hx) as (_ & EB & EC & EH & EW).
  pose proof (is_float_lt _ _ (wf_net_mean _ _ Hwf)) as Hmlt.
  destruct (forward_spec h net x v Hwf Hx ltac:(lia) ltac:(lia) ltac:(lia) Hlen)
    as (sc & ng & h1 & Hrun & _ & Hsc & Hng & _).
  pose proof (agree_insert_params h net _ (FloatStorage d') Hsep) as Ha.
  pose proof (wf_net_new_mean h net d' Hwf Hsep) as Hwf'.
  destruct (forward_spec _ net x v Hwf'
              (eq_trans (value_of_insert_ne h x _ _ Hne) Hx)
              ltac:(lia) ltac:(lia) ltac:(lia) Hlen)
    as (sc' & ng' & h1' & Hrun' & _ & Hsc' & Hng' & _).
  exists sc, ng, h1, sc', ng', h1', (coords_val h net v), (guidance_val h net v).
  split; [exact Hrun|]. split; [exact Hrun'|]. split; [exact Hsc|].
  split; [|split; [exact Hng|]].
  2:{ rewrite (guidance_val_agree h _ net v Ha). exact Hng'. }
  rewrite (coords_val_same_mean h _ net v Ha) in Hsc'; [exact Hsc'|].
  intros i Hi. rewrite mean_at_replaced by done. unfold mean_at. by apply Hd.
Qed.

(** ** The two heads *)

(** The in-place additions of head 1 write into the output of [fc3] only:
    the output of block 3 has the same value before and after head 1, and
    head 2 returns the same guidance value whether it runs after head 1 (as
    in [forward]) or before it. *)
Theorem heads_do_not_interfere h net x v :
  wf_net h net = true -> value_of h x = Some v -> valid_input x = true ->
  3 <= len1 (mean net) ->
  exists res h3 sc h4 ng h5 ng0 h50 vres vng,
    forward net x h = Ok ((sc, ng), h5)
    /\ head_sc net res h3 = Ok (sc, h4)
    /\ value_of h3 res = Some vres /\ value_of h4 res = Some vres
    /\ head_ng net res (size0 x) sc h4 = Ok (ng, h5)
    /\ head_ng net res (size0 x) sc h3 = Ok (ng0, h50)
    /\ value_of h5 ng = Some vng /\ value_of h50 ng0 = Some vng.
Proof.
  intros Hwf Hx Hval Hlen.
  destruct (valid_input_inv _ Hval) as (E1 & HH & MH & HW & MW).
  pose proof (value_of_lookup _ _ _ Hx) as (_ & EB & EC & EH & EW).
  destruct (forward_steps h net x v Hwf Hx ltac:(lia) ltac:(lia) ltac:(lia) Hlen)
    as (r0 & h0 & r1 & h1 & r2 & h2 & res & h3 & sc & h4 & ng & h5 & _ & _ & _ & _
        & Hsc & Hng & Hrun & P0 & P1 & P2 & P3 & P4 & P5 & _ & _ & _ & Hres & _ & Hv
        & _ & _ & _ & Dt & Dsc & _).
  destruct (quad_eq_inv _ _ _ _ _ _ _ _ Dt) as (T0 & T1 & T2 & T3).
  destruct (quad_eq_inv _ _ _ _ _ _ _ _ Dsc) as (S0 & S1 & S2 & S3).
  pose proof (stem_out_pos (vH v)). pose proof (stem_out_pos (vW v)).
  assert (h `prefix_of` h3) as Hp3
    by (etrans; [exact P0|]; etrans; [exact P1|]; etrans; [exact P2|exact P3]).
  destruct (computes_run _ _ _
              (head_ng_spec h h3 net res _ (size0 x) sc Hp3 Hwf Hres
                 ltac:(lia) ltac:(lia) ltac:(lia) ltac:(lia) ltac:(lia) ltac:(lia)))
    as (ng0 & h50 & Hng0 & _ & Hv0 & _).
  exists res, h3, sc, h4, ng, h5, ng0, h50, (trunk_val h net v), (guidance_val h net v).
  split; [exact Hrun|]. split; [exact Hsc|]. split; [exact Hres|].
  split; [exact (value_of_prefix _ _ _ _ P4 Hres)|].
  split; [exact Hng|]. split; [exact Hng0|]. split; [exact Hv|exact Hv0].
Qed.

(** ** The constructor *)



End More.

(** ** The further properties at the example inputs *)

Module MoreExamples.
Import Examples.

(** The stored mean replaced by one of four components that starts with the
    same three: the two outputs for the example batch do not change. *)
Lemma forward_reads_three_mean_components_witness :
  exists sc ng h1 sc' ng' h1' vsc vng,
    forward net3 batch store3 = Ok ((sc, ng), h1)
    /\ forward net3 batch
         (<[storage1 (mean net3) := FloatStorage [1%R; 2%R; 3%R; 4%R]]> store3)
       = Ok ((sc', ng'), h1')
    /\ value_of h1 sc = Some vsc /\ value_of h1' sc' = Some vsc
    /\ value_of h1 ng = Some vng /\ value_of h1' ng' = Some vng.
Proof.
  apply (forward_reads_three_mean_components store3 net3 batch batch_value
           [1%R; 2%R; 3%R; 4%R]);
    [ reflexivity | reflexivity | reflexivity | simpl; lia
    | lazy; intuition discriminate | simpl; lia | ].
  intros i Hi. destruct i as [|[|[|i]]]; [reflexivity | reflexivity | reflexivity | lia].
Defined.

Lemma heads_do_not_interfere_witness :
  exists res h3 sc h4 ng h5 ng0 h50 vng,
    forward net3 batch store3 = Ok ((sc, ng), h5)
    /\ head_sc net3 res h3 = Ok (sc, h4)
    /\ head_ng net3 res 2 sc h4 = Ok (ng, h5)
    /\ head_ng net3 res 2 sc h3 = Ok (ng0, h50)
    /\ value_of h5 ng = Some vng /\ value_of h50 ng0 = Some vng.
Proof.
  destruct (heads_do_not_interfere store3 net3 batch batch_value)
    as (res & h3 & sc & h4 & ng & h5 & ng0 & h50 & vres & vng
        & Hrun & Hsc & _ & _ & Hng & Hng0 & Hv & Hv0);
    [reflexivity | reflexivity | reflexivity | simpl; lia |].
  exists res, h3, sc, h4, ng, h5, ng0, h50, vng.
  split; [exact Hrun|]. split; [exact Hsc|]. split; [exact Hng|].
  split; [exact Hng0|]. split; [exact Hv|exact Hv0].
Defined.


End MoreExamples.
